(** * AI Learning Buddy: the audio pipeline, the live session manager,
      the typed chat, the exam panel with its explanation playback, the
      difficulty ladder and the remote service wrappers, embedded from the
      TypeScript sources.

    Source files:
    - [components/TutorPanel.tsx]  (encode, decode, decodeAudioData,
      createBlob, stopConversation, startConversation and its callbacks,
      handleToggleRecording, fileToGenerativePart, handleFileChange,
      removeFile, handleSendMessage)
    - [components/ExamPanel.tsx]   (stopCurrentAudio, handlePlayExplanation,
      handleGenerateExam, handleSubmit, handleAnswerChange,
      getFeedbackForQuestion, renderContent)
    - [App.tsx]                    (handleExamComplete, handleNewExam)
    - [services/geminiService.ts]  (generateExam, gradeExam, generateSpeech)

    Conventions of the embedding.
    - A JavaScript string whose code units are all below 256 (every string
      the audio helpers build or consume) is a [string]; a [Uint8Array] or an
      [ArrayBuffer] is a [list Z] of bytes.
    - A finite JavaScript number (a [Float32Array] sample, a time in seconds)
      is the rational [Q] it denotes. Every arithmetic step the helpers
      perform on samples (times 32768, divided by 32768) is exact on binary
      floating point. A quotient or a sum of times is rounded to the nearest
      double, a tie to the even significand ([Double.to_double]); no time
      comes near [2^1024], so the overflow to [Infinity] is left out.
    - Typed arrays are little-endian, as on every platform browsers run on.
    - An [async] function is cut at its [await]s into segments that run to
      completion; the event loop chooses which segment runs next. An [await]
      on a promise that has already settled, or on a function that awaits
      nothing itself, resumes within the same task.
    - A state setter of React has taken effect when the next event is
      handled, and a handler sees the state of the last render. In the event
      loops of the panels a control answers only in a state whose render shows
      it enabled.
    - The remote service, the microphone, the file readers and the
      constructors of the platform are inputs: theorems hold for whatever
      they answer. *)

From Stdlib Require Import ZArith QArith Qabs Qround Lqa String Ascii List Lia Bool.
From stdpp Require Import base list gmap.
Import ListNotations.

Local Open Scope Z_scope.

(** ** Platform functions: [btoa] and [atob] *)

Module Base64.

(** Six bits, most significant first. *)
Definition sextet : Type := (bool * bool * bool * bool * bool * bool)%type.

Definition alphabet : string :=
  "ABCDEFGHIJKLMNOPQRSTUVWXYZabcdefghijklmnopqrstuvwxyz0123456789+/".

Definition bit (b : bool) : nat := if b then 1%nat else 0%nat.

Definition sextet_index (s : sextet) : nat :=
  let '(b5, b4, b3, b2, b1, b0) := s in
  (32 * bit b5 + 16 * bit b4 + 8 * bit b3 + 4 * bit b2 + 2 * bit b1 + bit b0)%nat.

Definition sextet_of_nat (n : nat) : sextet :=
  (Nat.testbit n 5, Nat.testbit n 4, Nat.testbit n 3,
   Nat.testbit n 2, Nat.testbit n 1, Nat.testbit n 0).

Definition b64_char (s : sextet) : ascii :=
  match String.get (sextet_index s) alphabet with
  | Some c => c
  | None => "="%char
  end.

Definition b64_value (c : ascii) : option sextet :=
  let n := nat_of_ascii c in
  if (65 <=? n)%nat && (n <=? 90)%nat then Some (sextet_of_nat (n - 65))
  else if (97 <=? n)%nat && (n <=? 122)%nat then Some (sextet_of_nat (n - 71))
  else if (48 <=? n)%nat && (n <=? 57)%nat then Some (sextet_of_nat (n + 4))
  else if (n =? 43)%nat then Some (sextet_of_nat 62)
  else if (n =? 47)%nat then Some (sextet_of_nat 63)
  else None.

(** RFC 4648 grouping: three bytes give four sextets; a final group of one
    or two bytes is padded with zero bits. *)
Fixpoint encode_sextets (l : list ascii) : list sextet :=
  match l with
  | [] => []
  | [Ascii a0 a1 a2 a3 a4 a5 a6 a7] =>
      [(a7, a6, a5, a4, a3, a2); (a1, a0, false, false, false, false)]
  | [Ascii a0 a1 a2 a3 a4 a5 a6 a7; Ascii b0 b1 b2 b3 b4 b5 b6 b7] =>
      [(a7, a6, a5, a4, a3, a2); (a1, a0, b7, b6, b5, b4);
       (b3, b2, b1, b0, false, false)]
  | Ascii a0 a1 a2 a3 a4 a5 a6 a7 :: Ascii b0 b1 b2 b3 b4 b5 b6 b7
      :: Ascii c0 c1 c2 c3 c4 c5 c6 c7 :: rest =>
      (a7, a6, a5, a4, a3, a2) :: (a1, a0, b7, b6, b5, b4)
      :: (b3, b2, b1, b0, c7, c6) :: (c5, c4, c3, c2, c1, c0)
      :: encode_sextets rest
  end.

Definition padding (n : nat) : list ascii :=
  match (n mod 3)%nat with
  | 1%nat => ["="%char; "="%char]
  | 2%nat => ["="%char]
  | _ => []
  end.

Definition btoa_chars (l : list ascii) : list ascii :=
  map b64_char (encode_sextets l) ++ padding (length l).

(** [btoa(binary)]: total on strings of code units below 256. *)
Definition btoa (binary : string) : string :=
  string_of_list_ascii (btoa_chars (list_ascii_of_string binary)).

(** The inverse grouping. A final group of two sextets gives one byte (its
    last four bits are dropped), of three sextets two bytes. *)
Fixpoint decode_sextets (l : list sextet) : list ascii :=
  match l with
  | (a7, a6, a5, a4, a3, a2) :: (a1, a0, b7, b6, b5, b4)
      :: (b3, b2, b1, b0, c7, c6) :: (c5, c4, c3, c2, c1, c0) :: rest =>
      Ascii a0 a1 a2 a3 a4 a5 a6 a7 :: Ascii b0 b1 b2 b3 b4 b5 b6 b7
      :: Ascii c0 c1 c2 c3 c4 c5 c6 c7 :: decode_sextets rest
  | [(a7, a6, a5, a4, a3, a2); (a1, a0, b7, b6, b5, b4); (b3, b2, b1, b0, _, _)] =>
      [Ascii a0 a1 a2 a3 a4 a5 a6 a7; Ascii b0 b1 b2 b3 b4 b5 b6 b7]
  | [(a7, a6, a5, a4, a3, a2); (a1, a0, _, _, _, _)] =>
      [Ascii a0 a1 a2 a3 a4 a5 a6 a7]
  | _ => []
  end.

(** The steps of the forgiving-base64 decode that [atob] runs. *)
Definition is_ascii_whitespace (c : ascii) : bool :=
  let n := nat_of_ascii c in
  (n =? 9)%nat || (n =? 10)%nat || (n =? 12)%nat || (n =? 13)%nat || (n =? 32)%nat.

Definition strip_whitespace (l : list ascii) : list ascii :=
  List.filter (fun c => negb (is_ascii_whitespace c)) l.

Definition is_pad (c : ascii) : bool := (nat_of_ascii c =? 61)%nat.

Definition strip_padding (l : list ascii) : list ascii :=
  if (length l mod 4 =? 0)%nat then
    match rev l with
    | p :: q :: r =>
        if is_pad p then (if is_pad q then rev r else rev (q :: r)) else l
    | [p] => if is_pad p then [] else l
    | [] => l
    end
  else l.

Fixpoint values (l : list ascii) : option (list sextet) :=
  match l with
  | [] => Some []
  | c :: r =>
      match b64_value c, values r with
      | Some s, Some ss => Some (s :: ss)
      | _, _ => None
      end
  end.

Definition atob_chars (l : list ascii) : option (list ascii) :=
  let data := strip_padding (strip_whitespace l) in
  if (length data mod 4 =? 1)%nat then None
  else
    match values data with
    | Some ss => Some (decode_sextets ss)
    | None => None
    end.

(** [atob(base64)]: [None] stands for the [InvalidCharacterError] it throws. *)
Definition atob (base64 : string) : option string :=
  match atob_chars (list_ascii_of_string base64) with
  | Some l => Some (string_of_list_ascii l)
  | None => None
  end.

End Base64.

Module Base64Facts.
Import Base64.

(** The test vectors of RFC 4648, section 10, and two forgiving inputs. *)
Example btoa_rfc4648 :
  btoa "" = ""%string /\ btoa "f" = "Zg=="%string /\ btoa "fo" = "Zm8="%string /\
  btoa "foo" = "Zm9v"%string /\ btoa "foob" = "Zm9vYg=="%string /\
  btoa "fooba" = "Zm9vYmE="%string /\ btoa "foobar" = "Zm9vYmFy"%string.
Proof. repeat split; reflexivity. Qed.

Example atob_rfc4648 :
  atob "Zm9vYmFy" = Some "foobar"%string /\ atob "Zm9vYg==" = Some "foob"%string /\
  atob "Zm9vYg" = Some "foob"%string /\ atob " Zm 9v " = Some "foo"%string /\
  atob "Zm9vY" = None /\ atob "Zm9v*mFy" = None /\ atob "====" = None /\
  atob " " = Some ""%string.
Proof. repeat split; reflexivity. Qed.

Lemma b64_value_char (s : sextet) : b64_value (b64_char s) = Some s.
Proof.
  destruct s as [[[[[b5 b4] b3] b2] b1] b0].
  destruct b5, b4, b3, b2, b1, b0; reflexivity.
Qed.

Lemma b64_char_plain (s : sextet) :
  is_ascii_whitespace (b64_char s) = false /\ is_pad (b64_char s) = false.
Proof.
  destruct s as [[[[[b5 b4] b3] b2] b1] b0].
  destruct b5, b4, b3, b2, b1, b0; split; reflexivity.
Qed.

Lemma list_ind3 {A} (P : list A -> Prop) :
  P [] -> (forall a, P [a]) -> (forall a b, P [a; b]) ->
  (forall a b c r, P r -> P (a :: b :: c :: r)) ->
  forall l, P l.
Proof.
  intros H0 H1 H2 H3.
  assert (H : forall l, P l /\ (forall a, P (a :: l)) /\ (forall a b, P (a :: b :: l))).
  { induction l as [|x l [IH0 [IH1 IH2]]]; repeat split; auto. }
  intros l. apply H.
Qed.

Lemma decode_encode (l : list ascii) : decode_sextets (encode_sextets l) = l.
Proof.
  induction l as [|a|a b|a b c r IH] using list_ind3.
  - reflexivity.
  - destruct a. reflexivity.
  - destruct a, b. reflexivity.
  - destruct a, b, c. cbn. now rewrite IH.
Qed.

Lemma encode_length (l : list ascii) :
  (length l mod 3 = 0 /\ length (encode_sextets l) mod 4 = 0 \/
   length l mod 3 = 1 /\ length (encode_sextets l) mod 4 = 2 \/
   length l mod 3 = 2 /\ length (encode_sextets l) mod 4 = 3)%nat.
Proof.
  induction l as [|a|a b|a b c r IH] using list_ind3.
  - left. split; reflexivity.
  - destruct a. right. left. split; reflexivity.
  - destruct a, b. right. right. split; reflexivity.
  - destruct a, b, c. cbn [encode_sextets length].
    replace (S (S (S (length r)))) with (length r + 1 * 3)%nat by lia.
    replace (S (S (S (S (length (encode_sextets r))))))
      with (length (encode_sextets r) + 1 * 4)%nat by lia.
    rewrite !Nat.Div0.mod_add. exact IH.
Qed.

Lemma values_chars (ss : list sextet) : values (map b64_char ss) = Some ss.
Proof.
  induction ss as [|s ss IH]; [reflexivity|].
  cbn. now rewrite b64_value_char, IH.
Qed.

Lemma strip_whitespace_id (l : list ascii) :
  Forall (fun c => is_ascii_whitespace c = false) l -> strip_whitespace l = l.
Proof.
  induction 1 as [|c l Hc _ IH]; [reflexivity|].
  unfold strip_whitespace in *. cbn. rewrite Hc. cbn. now rewrite IH.
Qed.

Lemma chars_no_whitespace (ss : list sextet) :
  Forall (fun c => is_ascii_whitespace c = false) (map b64_char ss).
Proof.
  induction ss as [|s ss IH]; constructor; [apply b64_char_plain | exact IH].
Qed.

Lemma btoa_chars_no_whitespace (l : list ascii) :
  Forall (fun c => is_ascii_whitespace c = false) (btoa_chars l).
Proof.
  unfold btoa_chars. apply Forall_app. split; [apply chars_no_whitespace|].
  unfold padding. destruct (length l mod 3)%nat as [|[|[|?]]]; repeat constructor.
Qed.

(** The last character of a run of alphabet characters is not a pad. *)
Lemma rev_chars_head (ss : list sextet) :
  match rev (map b64_char ss) with
  | c :: _ => is_pad c = false
  | [] => True
  end.
Proof.
  rewrite <- map_rev. destruct (rev ss) as [|s r]; [exact I|].
  cbn. apply b64_char_plain.
Qed.

Lemma strip_padding_btoa (l : list ascii) :
  strip_padding (btoa_chars l) = map b64_char (encode_sextets l).
Proof.
  unfold strip_padding, btoa_chars.
  pose proof (rev_chars_head (encode_sextets l)) as Hhead.
  set (cs := map b64_char (encode_sextets l)) in *.
  assert (Hlen : length cs = length (encode_sextets l)) by apply length_map.
  rewrite length_app, Hlen, rev_app_distr. unfold padding.
  destruct (encode_length l) as [[Hl He]|[[Hl He]|[Hl He]]]; rewrite Hl; cbn [length rev app].
  - rewrite Nat.add_0_r, He. cbn [Nat.eqb]. rewrite app_nil_r.
    destruct (rev cs) as [|p [|q r]] eqn:Hr.
    + reflexivity.
    + now rewrite Hhead.
    + now rewrite Hhead.
  - replace ((length (encode_sextets l) + 2) mod 4)%nat with 0%nat.
    2:{ rewrite <- Nat.Div0.add_mod_idemp_l, He. reflexivity. }
    cbn. apply rev_involutive.
  - replace ((length (encode_sextets l) + 1) mod 4)%nat with 0%nat.
    2:{ rewrite <- Nat.Div0.add_mod_idemp_l, He. reflexivity. }
    cbn. destruct (rev cs) as [|q r] eqn:Hr.
    + apply (f_equal (@rev ascii)) in Hr. rewrite rev_involutive in Hr. now rewrite Hr.
    + rewrite Hhead. change (rev r ++ [q]) with (rev (q :: r)).
      rewrite <- Hr. apply rev_involutive.
Qed.

Lemma atob_chars_btoa_chars (l : list ascii) : atob_chars (btoa_chars l) = Some l.
Proof.
  unfold atob_chars.
  rewrite (strip_whitespace_id _ (btoa_chars_no_whitespace l)), strip_padding_btoa.
  rewrite length_map.
  assert (Hne : (length (encode_sextets l) mod 4 =? 1)%nat = false).
  { destruct (encode_length l) as [[_ He]|[[_ He]|[_ He]]]; now rewrite He. }
  rewrite Hne, values_chars. now rewrite decode_encode.
Qed.

(** [atob(btoa(s)) = s] for every binary string. *)
Lemma atob_btoa (s : string) : atob (btoa s) = Some s.
Proof.
  unfold atob, btoa.
  rewrite list_ascii_of_string_of_list_ascii, atob_chars_btoa_chars.
  now rewrite string_of_list_ascii_of_string.
Qed.

End Base64Facts.

(** ** JavaScript values shared by the components *)

Module JS.

(** The exceptions the embedded code can meet. *)
Inductive exn : Type :=
  | InvalidCharacterError            (* atob on a malformed string *)
  | RangeError                       (* Int16Array over an odd byte length *)
  | NotSupportedError                (* createBuffer with a zero argument *)
  | InvalidStateError                (* close() on a closed AudioContext *)
  | TypeError                        (* property read on undefined *)
  | SyntaxError                      (* JSON.parse *)
  | Error (message : string)         (* new Error(message) *)
  | Thrown (value : string).         (* a thrown value that is not an Error *)

(** The completion of a piece of code: a value or a thrown exception. *)
Inductive completion (A : Type) : Type :=
  | Normal (a : A)
  | Throw (e : exn).
Arguments Normal {A} a.
Arguments Throw {A} e.

(** A string in a condition is truthy exactly when it is not empty. *)
Definition truthy (s : string) : bool :=
  match s with
  | EmptyString => false
  | String _ _ => true
  end.

(** [Math.max] on finite numbers. *)
Definition Math_max (a b : Q) : Q := if Qle_bool a b then b else a.

(** [err instanceof Error]: everything but a thrown non-Error value. *)
Definition instanceof_Error (e : exn) : bool :=
  match e with
  | Thrown _ => false
  | _ => true
  end.

(** [err.message]; for the errors the platform raises the text is the
    engine's, and the error's name stands for it. *)
Definition message_of (e : exn) : string :=
  match e with
  | Error m => m
  | Thrown v => v
  | InvalidCharacterError => "InvalidCharacterError"
  | RangeError => "RangeError"
  | NotSupportedError => "NotSupportedError"
  | InvalidStateError => "InvalidStateError"
  | TypeError => "TypeError"
  | SyntaxError => "SyntaxError"
  end.

(** Code that reads and writes a state [S] and may throw. *)
Definition M (S A : Type) : Type := S -> completion A * S.

Definition ret {S A} (a : A) : M S A := fun s => (Normal a, s).

Definition bind {S A B} (m : M S A) (k : A -> M S B) : M S B :=
  fun s =>
    match m s with
    | (Normal a, s') => k a s'
    | (Throw e, s') => (Throw e, s')
    end.

Definition throw {S A} (e : exn) : M S A := fun s => (Throw e, s).

(** [try { body } catch (e) { handler(e) }] *)
Definition try_catch {S A} (body : M S A) (handler : exn -> M S A) : M S A :=
  fun s =>
    match body s with
    | (Normal a, s') => (Normal a, s')
    | (Throw e, s') => handler e s'
    end.

(** [try { body } finally { final }] *)
Definition try_finally {S A} (body : M S A) (final : M S unit) : M S A :=
  fun s =>
    match body s with
    | (c, s') =>
        match final s' with
        | (Normal _, s'') => (c, s'')
        | (Throw e, s'') => (Throw e, s'')
        end
    end.

Definition gets {S A} (f : S -> A) : M S A := fun s => (Normal (f s), s).

Definition modify {S} (f : S -> S) : M S unit := fun s => (Normal tt, f s).

(** A value computed without the state, or the exception it threw. *)
Definition lift {S A} (c : completion A) : M S A := fun s => (c, s).

Definition exec {S A} (m : M S A) (s : S) : S := snd (m s).

Definition result {S A} (m : M S A) (s : S) : completion A := fst (m s).

Module Notations.
Notation "x <- c1 ;; c2" := (bind c1 (fun x => c2))
  (at level 100, c1 at next level, right associativity).
Notation "c1 ;; c2" := (bind c1 (fun _ => c2))
  (at level 100, right associativity).
End Notations.

End JS.

(** ** Numbers: IEEE 754 binary64, round to nearest *)

Module Double.

(** The arithmetic of JavaScript numbers on times: a finite double is the
    rational it denotes, and the result of an operation is the exact result
    rounded to the nearest double, a tie to the even significand. Doubles
    and rationals are counted in units of [2^-1074], the least positive
    double: there the doubles are the integers of at most 53 significant
    bits. No time comes near [2^1024]: the overflow to [Infinity], [NaN]
    and the sign of zero are left out. *)

(** Round to the nearest integer, a tie to the even one. *)
Definition round_half_even (q : Q) : Z :=
  let f := Qfloor q in
  match (q - inject_Z f ?= 1 # 2)%Q with
  | Lt => f
  | Gt => f + 1
  | Eq => if Z.even f then f else f + 1
  end.

(** The subnormal doubles are the multiples of [2^-1074]. *)
Definition grid : Z := 2 ^ 1074.

(** The spacing of the doubles around a rational that is not negative, both
    counted in units of [2^-1074]. *)
Definition ulp (q : Q) : Z := 2 ^ Z.max 0 (Z.log2 (Qfloor q) - 52).

(** A rational that is not negative, in units of [2^-1074], rounded to 53
    significant bits. *)
Definition round53 (q : Q) : Q :=
  (inject_Z (round_half_even (q / inject_Z (ulp q))) * inject_Z (ulp q))%Q.

(** The double nearest to a rational, a tie to the even significand. *)
Definition to_double (x : Q) : Q :=
  Qred (if Qle_bool 0 x
        then round53 (x * inject_Z grid) / inject_Z grid
        else - (round53 (- x * inject_Z grid) / inject_Z grid))%Q.

Definition is_double (x : Q) : Prop := (to_double x == x)%Q.

Arguments to_double : simpl never.

End Double.

Module DoubleFacts.
Import Double.
Local Open Scope Q_scope.

(** *** Rounding is monotone, idempotent and close *)

Lemma half_even_bounds (q : Q) :
  (Qfloor q <= round_half_even q <= Qfloor q + 1)%Z.
Proof.
  unfold round_half_even. destruct (q - inject_Z (Qfloor q) ?= 1 # 2);
    [destruct (Z.even (Qfloor q))|..]; lia.
Qed.

Lemma half_even_above (n : Z) (q : Q) :
  inject_Z n <= q -> (n <= round_half_even q)%Z.
Proof.
  intros H. apply Qfloor_resp_le in H. rewrite Qfloor_Z in H.
  pose proof (half_even_bounds q). lia.
Qed.

Lemma half_even_below (n : Z) (q : Q) :
  q <= inject_Z n -> (round_half_even q <= n)%Z.
Proof.
  intros H. pose proof (half_even_bounds q) as Hb.
  destruct (Z_lt_le_dec (Qfloor q) n) as [Hlt|Hge]; [lia|].
  assert (Hf : Qfloor q = n).
  { apply Qfloor_resp_le in H. rewrite Qfloor_Z in H. lia. }
  unfold round_half_even. rewrite Hf.
  destruct (Qcompare_spec (q - inject_Z n) (1 # 2)) as [E|E|E]; try lia; lra.
Qed.

Lemma half_even_mono (q q' : Q) :
  q <= q' -> (round_half_even q <= round_half_even q')%Z.
Proof.
  intros H. pose proof (half_even_bounds q) as Hb. pose proof (half_even_bounds q') as Hb'.
  pose proof (Qfloor_resp_le _ _ H) as Hf.
  destruct (Z_lt_le_dec (Qfloor q) (Qfloor q')) as [Hlt|Hge]; [lia|].
  assert (E : Qfloor q' = Qfloor q) by lia.
  unfold round_half_even. rewrite E.
  destruct (Qcompare_spec (q - inject_Z (Qfloor q)) (1 # 2)) as [E1|E1|E1];
    destruct (Qcompare_spec (q' - inject_Z (Qfloor q)) (1 # 2)) as [E2|E2|E2];
    try destruct (Z.even (Qfloor q)); try lia; lra.
Qed.

Lemma half_even_Z (n : Z) : round_half_even (inject_Z n) = n.
Proof.
  apply Z.le_antisymm; [apply half_even_below | apply half_even_above]; apply Qle_refl.
Qed.

Lemma half_even_comp (q q' : Q) : q == q' -> round_half_even q = round_half_even q'.
Proof.
  intros H. apply Z.le_antisymm; apply half_even_mono; rewrite H; apply Qle_refl.
Qed.

Lemma half_even_error (q : Q) : Qabs (inject_Z (round_half_even q) - q) <= 1 # 2.
Proof.
  pose proof (Qfloor_le q) as H1. pose proof (Qlt_floor q) as H2.
  rewrite inject_Z_plus in H2. change (inject_Z 1) with 1 in H2.
  unfold round_half_even.
  destruct (Qcompare_spec (q - inject_Z (Qfloor q)) (1 # 2)) as [E|E|E];
    [destruct (Z.even (Qfloor q))|..];
    rewrite ?inject_Z_plus; change (inject_Z 1) with 1;
    apply Qabs_Qle_condition; split; lra.
Qed.


(** *** Rounding to 53 bits *)

Definition expo (q : Q) : Z := Z.max 0 (Z.log2 (Qfloor q) - 52).

Lemma ulp_expo (q : Q) : ulp q = (2 ^ expo q)%Z.
Proof. reflexivity. Qed.

Lemma expo_nonneg (q : Q) : (0 <= expo q)%Z.
Proof. unfold expo. lia. Qed.

Lemma pow2_pos (e : Z) : (0 <= e)%Z -> (0 < 2 ^ e)%Z.
Proof. intros H. now apply Z.pow_pos_nonneg. Qed.

Lemma inject_pos (p : Z) : (0 < p)%Z -> 0 < inject_Z p.
Proof. intros H. change 0 with (inject_Z 0). now rewrite <- Zlt_Qlt. Qed.

Lemma scale_below (p n : Z) (q : Q) :
  (0 < p)%Z -> q <= inject_Z (n * p) -> q / inject_Z p <= inject_Z n.
Proof.
  intros Hp H. apply Qle_shift_div_r; [now apply inject_pos|].
  now rewrite <- inject_Z_mult.
Qed.

Lemma scale_above (p n : Z) (q : Q) :
  (0 < p)%Z -> inject_Z (n * p) <= q -> inject_Z n <= q / inject_Z p.
Proof.
  intros Hp H. apply Qle_shift_div_l; [now apply inject_pos|].
  now rewrite <- inject_Z_mult.
Qed.

Lemma scale_exact (p n : Z) :
  (0 < p)%Z -> inject_Z (n * p) / inject_Z p == inject_Z n.
Proof.
  intros Hp. rewrite inject_Z_mult. field.
  intros H. apply inject_pos in Hp. rewrite H in Hp. discriminate.
Qed.

Lemma round53_comp (q q' : Q) : q == q' -> round53 q == round53 q'.
Proof.
  intros H. unfold round53, ulp. rewrite (Qfloor_comp _ _ H).
  erewrite half_even_comp; [reflexivity|]. now rewrite H.
Qed.

(** A multiple of the spacing on one side of [q] stays on that side. *)
Lemma round53_above (k : Z) (q : Q) :
  inject_Z (k * ulp q) <= q -> inject_Z (k * ulp q) <= round53 q.
Proof.
  intros H. unfold round53. rewrite <- inject_Z_mult, <- Zle_Qle.
  apply Z.mul_le_mono_nonneg_r.
  - rewrite ulp_expo. apply Z.lt_le_incl, pow2_pos, expo_nonneg.
  - apply half_even_above, scale_above; [|exact H].
    rewrite ulp_expo. apply pow2_pos, expo_nonneg.
Qed.

Lemma round53_below (k : Z) (q : Q) :
  q <= inject_Z (k * ulp q) -> round53 q <= inject_Z (k * ulp q).
Proof.
  intros H. unfold round53. rewrite <- inject_Z_mult, <- Zle_Qle.
  apply Z.mul_le_mono_nonneg_r.
  - rewrite ulp_expo. apply Z.lt_le_incl, pow2_pos, expo_nonneg.
  - apply half_even_below, scale_below; [|exact H].
    rewrite ulp_expo. apply pow2_pos, expo_nonneg.
Qed.

Lemma floor_nonneg (q : Q) : 0 <= q -> (0 <= Qfloor q)%Z.
Proof. intros H. apply Qfloor_resp_le in H. exact H. Qed.

(** Where [q] lies, given its exponent. *)
Lemma bracket_hi (q : Q) : 0 <= q -> q <= inject_Z (2 ^ (expo q + 53)).
Proof.
  intros H0. pose proof (floor_nonneg q H0) as Hf.
  pose proof (Qlt_floor q) as Hq.
  assert (Hz : (Qfloor q + 1 <= 2 ^ (expo q + 53))%Z).
  { destruct (Z.eq_dec (Qfloor q) 0%Z) as [E|E].
    - rewrite E. pose proof (pow2_pos (expo q + 53)) as Hp.
      pose proof (expo_nonneg q). lia.
    - assert (Hpos : (0 < Qfloor q)%Z) by lia.
      destruct (Z.log2_spec _ Hpos) as [_ Hhi].
      assert (Hle : (2 ^ Z.succ (Z.log2 (Qfloor q)) <= 2 ^ (expo q + 53))%Z).
      { apply Z.pow_le_mono_r; [lia|]. unfold expo. lia. }
      lia. }
  rewrite Zle_Qle in Hz. lra.
Qed.

Lemma bracket_lo (q : Q) :
  0 <= q -> (0 < expo q)%Z -> inject_Z (2 ^ (expo q + 52)) <= q.
Proof.
  intros H0 He. pose proof (Qfloor_le q) as Hq.
  assert (Hpos : (0 < Qfloor q)%Z).
  { destruct (Z_lt_le_dec 0 (Qfloor q)) as [H|H]; [exact H|].
    unfold expo in He. rewrite (Z.log2_nonpos _ H) in He. lia. }
  destruct (Z.log2_spec _ Hpos) as [Hlo _].
  assert (E : (expo q + 52 = Z.log2 (Qfloor q))%Z) by (unfold expo in *; lia).
  rewrite E. rewrite Zle_Qle in Hlo. lra.
Qed.

Lemma expo_mono (q q' : Q) : q <= q' -> (expo q <= expo q')%Z.
Proof.
  intros H. unfold expo. apply Qfloor_resp_le in H.
  pose proof (Z.log2_le_mono _ _ H). lia.
Qed.

Lemma round53_mono (q q' : Q) : 0 <= q -> q <= q' -> round53 q <= round53 q'.
Proof.
  intros H0 H. assert (H0' : 0 <= q') by lra.
  pose proof (expo_mono _ _ H) as He.
  destruct (Z.eq_dec (expo q) (expo q')) as [E|E].
  - unfold round53. rewrite !ulp_expo, <- E.
    assert (Hp : (0 < 2 ^ expo q)%Z) by apply pow2_pos, expo_nonneg.
    rewrite <- !inject_Z_mult, <- Zle_Qle.
    apply Z.mul_le_mono_nonneg_r; [lia|]. apply half_even_mono.
    apply Qmult_le_compat_r; [exact H|].
    apply Qlt_le_weak, Qinv_lt_0_compat, inject_pos, Hp.
  - assert (Hlt : (expo q < expo q')%Z) by lia.
    pose proof (expo_nonneg q) as Hn.
    apply Qle_trans with (inject_Z (2 ^ (expo q + 53))).
    + replace (2 ^ (expo q + 53))%Z with (2 ^ 53 * ulp q)%Z
        by (rewrite ulp_expo, <- Z.pow_add_r; [f_equal|..]; lia).
      apply round53_below.
      replace (2 ^ 53 * ulp q)%Z with (2 ^ (expo q + 53))%Z
        by (rewrite ulp_expo, <- Z.pow_add_r; [f_equal|..]; lia).
      now apply bracket_hi.
    + apply Qle_trans with (inject_Z (2 ^ (expo q' + 52))).
      * rewrite <- Zle_Qle. apply Z.pow_le_mono_r; lia.
      * replace (2 ^ (expo q' + 52))%Z with (2 ^ 52 * ulp q')%Z
          by (rewrite ulp_expo, <- Z.pow_add_r; [f_equal|..]; lia).
        apply round53_above.
        replace (2 ^ 52 * ulp q')%Z with (2 ^ (expo q' + 52))%Z
          by (rewrite ulp_expo, <- Z.pow_add_r; [f_equal|..]; lia).
        apply bracket_lo; [exact H0' | lia].
Qed.

Lemma round53_nonneg (q : Q) : 0 <= q -> 0 <= round53 q.
Proof.
  intros H. change 0 with (inject_Z (0 * ulp q)). apply round53_above. exact H.
Qed.

(** A significand of at most 53 bits, scaled, is left as it is. *)
Lemma round53_fixed (m e : Z) :
  (0 <= e)%Z -> (0 <= m <= 2 ^ 53)%Z -> (e = 0 \/ 2 ^ 52 <= m)%Z ->
  round53 (inject_Z (m * 2 ^ e)) == inject_Z (m * 2 ^ e).
Proof.
  intros He Hm Hn. pose proof (pow2_pos e He) as Hp.
  unfold round53, ulp. rewrite Qfloor_Z.
  destruct (Z.eq_dec m (2 ^ 53)%Z) as [E|E].
  - subst m. rewrite <- Z.pow_add_r by lia.
    rewrite Z.log2_pow2 by lia.
    replace (Z.max 0 (53 + e - 52)) with (e + 1)%Z by lia.
    replace (2 ^ (53 + e))%Z with (2 ^ 52 * 2 ^ (e + 1))%Z
      by (rewrite <- Z.pow_add_r; [f_equal|..]; lia).
    rewrite (half_even_comp _ (inject_Z (2 ^ 52)));
      [|apply scale_exact, pow2_pos; lia].
    now rewrite half_even_Z, inject_Z_mult.
  - destruct (Z_lt_le_dec m (2 ^ 52)) as [Hs|Hb].
    + assert (e = 0)%Z by lia. subst e. rewrite Z.mul_1_r.
      assert (Hl : (Z.log2 m <= 52)%Z).
      { destruct (Z.eq_dec m 0%Z) as [->|]; [cbn; lia|].
        apply Z.lt_le_incl, Z.log2_lt_pow2; lia. }
      replace (Z.max 0 (Z.log2 m - 52)) with 0%Z by lia.
      change (2 ^ 0)%Z with 1%Z.
      rewrite (half_even_comp _ (inject_Z m));
        [|change (inject_Z 1) with 1; field].
      rewrite half_even_Z. change (inject_Z 1) with 1. ring.
    + assert (Hl : Z.log2 m = 52%Z).
      { apply Z.log2_unique; [lia|]. change (Z.succ 52) with 53%Z. lia. }
      rewrite Z.log2_mul_pow2 by lia. rewrite Hl.
      replace (Z.max 0 (e + 52 - 52)) with e by lia.
      rewrite (half_even_comp _ (inject_Z m)); [|now apply scale_exact].
      now rewrite half_even_Z, inject_Z_mult.
Qed.

Lemma round53_idem (q : Q) : 0 <= q -> round53 (round53 q) == round53 q.
Proof.
  intros H0. pose proof (expo_nonneg q) as He.
  assert (Hp : (0 < 2 ^ expo q)%Z) by now apply pow2_pos.
  set (m := round_half_even (q / inject_Z (ulp q))).
  assert (E : round53 q == inject_Z (m * 2 ^ expo q)).
  { unfold round53. fold m. now rewrite ulp_expo, inject_Z_mult. }
  rewrite (round53_comp _ _ E), E. apply round53_fixed; [exact He | |].
  - split.
    + apply half_even_above. apply (scale_above _ 0); [now rewrite ulp_expo|].
      exact H0.
    + apply half_even_below, scale_below; [now rewrite ulp_expo|].
      rewrite ulp_expo, <- Z.pow_add_r by lia.
      replace (53 + expo q)%Z with (expo q + 53)%Z by lia. now apply bracket_hi.
  - destruct (Z.eq_dec (expo q) 0%Z) as [E0|E0]; [now left|right].
    apply half_even_above, scale_above; [now rewrite ulp_expo|].
    rewrite ulp_expo, <- Z.pow_add_r by lia.
    replace (52 + expo q)%Z with (expo q + 52)%Z by lia. apply bracket_lo; [exact H0|lia].
Qed.

Lemma ulp_bound (q : Q) :
  0 <= q -> inject_Z (ulp q) <= 1 + q / inject_Z (2 ^ 52).
Proof.
  intros H0. pose proof (expo_nonneg q) as He.
  assert (H52 : 0 < inject_Z (2 ^ 52)) by (apply inject_pos; lia).
  assert (Hq : 0 <= q / inject_Z (2 ^ 52)).
  { apply Qle_shift_div_l; [exact H52 | now rewrite Qmult_0_l]. }
  destruct (Z.eq_dec (expo q) 0%Z) as [E|E].
  - rewrite ulp_expo, E. change (inject_Z (2 ^ 0)) with 1.
    set (t := q / inject_Z (2 ^ 52)) in *. lra.
  - assert (Hl : inject_Z (ulp q) <= q / inject_Z (2 ^ 52));
      [|set (t := q / inject_Z (2 ^ 52)) in *; lra].
    apply Qle_shift_div_l; [exact H52|].
    rewrite <- inject_Z_mult, ulp_expo, <- Z.pow_add_r by lia.
    apply bracket_lo; [exact H0 | lia].
Qed.

Lemma round53_error (q : Q) :
  Qabs (round53 q - q) <= inject_Z (ulp q) / 2.
Proof.
  assert (Hp : 0 < inject_Z (ulp q)).
  { apply inject_pos. rewrite ulp_expo. apply pow2_pos, expo_nonneg. }
  pose proof (half_even_error (q / inject_Z (ulp q))) as H.
  unfold round53. set (m := inject_Z (round_half_even (q / inject_Z (ulp q)))) in *.
  set (p := inject_Z (ulp q)) in *. clearbody m p.
  assert (E : m * p - q == (m - q / p) * p) by (field; lra).
  rewrite E, Qabs_Qmult, (Qabs_pos p) by lra.
  apply Qle_trans with ((1 # 2) * p); [|apply Qle_lteq; right; field].
  apply Qmult_le_compat_r; [exact H | lra].
Qed.

(** *** The nearest double *)

Lemma grid_pos : 0 < inject_Z grid.
Proof. apply inject_pos. unfold grid. now apply pow2_pos. Qed.

Lemma to_double_nonneg_eq (x : Q) :
  0 <= x -> to_double x == round53 (x * inject_Z grid) / inject_Z grid.
Proof.
  intros H. unfold to_double. rewrite Qred_correct.
  apply Qle_bool_iff in H. now rewrite H.
Qed.

Lemma to_double_neg_eq (x : Q) :
  x < 0 -> to_double x == - (round53 (- x * inject_Z grid) / inject_Z grid).
Proof.
  intros H. unfold to_double. rewrite Qred_correct.
  destruct (Qle_bool 0 x) eqn:E; [|reflexivity].
  apply Qle_bool_iff in E. lra.
Qed.

Lemma scaled_nonneg (x : Q) : 0 <= x -> 0 <= x * inject_Z grid.
Proof. intros H. apply Qmult_le_0_compat; [exact H | apply Qlt_le_weak, grid_pos]. Qed.

Lemma to_double_nonneg (x : Q) : 0 <= x -> 0 <= to_double x.
Proof.
  intros H. rewrite (to_double_nonneg_eq x H).
  apply Qle_shift_div_l; [apply grid_pos|]. rewrite Qmult_0_l.
  apply round53_nonneg, scaled_nonneg, H.
Qed.

Lemma to_double_nonpos (x : Q) : x < 0 -> to_double x <= 0.
Proof.
  intros H. rewrite (to_double_neg_eq x H).
  assert (0 <= round53 (- x * inject_Z grid) / inject_Z grid); [|lra].
  apply Qle_shift_div_l; [apply grid_pos|]. rewrite Qmult_0_l.
  apply round53_nonneg, scaled_nonneg. lra.
Qed.

(** Rounding keeps the order. *)
Lemma to_double_mono (x y : Q) : x <= y -> to_double x <= to_double y.
Proof.
  intros H. pose proof grid_pos as Hg.
  destruct (Qlt_le_dec x 0) as [Hx|Hx], (Qlt_le_dec y 0) as [Hy|Hy].
  - rewrite (to_double_neg_eq x Hx), (to_double_neg_eq y Hy).
    apply Qopp_le_compat. apply Qmult_le_compat_r;
      [|apply Qlt_le_weak, Qinv_lt_0_compat, Hg].
    apply round53_mono; [apply scaled_nonneg; lra|].
    apply Qmult_le_compat_r; [lra | apply Qlt_le_weak, Hg].
  - apply Qle_trans with 0; [now apply to_double_nonpos | now apply to_double_nonneg].
  - lra.
  - rewrite (to_double_nonneg_eq x Hx), (to_double_nonneg_eq y Hy).
    apply Qmult_le_compat_r; [|apply Qlt_le_weak, Qinv_lt_0_compat, Hg].
    apply round53_mono; [now apply scaled_nonneg|].
    apply Qmult_le_compat_r; [exact H | apply Qlt_le_weak, Hg].
Qed.

Lemma to_double_comp (x y : Q) : x == y -> to_double x == to_double y.
Proof.
  intros H. apply Qle_antisym; apply to_double_mono; rewrite H; apply Qle_refl.
Qed.

#[export] Instance to_double_proper : Proper (Qeq ==> Qeq) to_double.
Proof. intros x y H. now apply to_double_comp. Qed.

#[export] Instance is_double_proper : Proper (Qeq ==> iff) is_double.
Proof. intros x y H. unfold is_double. now rewrite H. Qed.

Lemma unscale (r : Q) : r / inject_Z grid * inject_Z grid == r.
Proof. pose proof grid_pos. field. lra. Qed.

(** What rounding gives is a double. *)
Lemma to_double_idem (x : Q) : is_double (to_double x).
Proof.
  unfold is_double. pose proof grid_pos as Hg.
  destruct (Qlt_le_dec x 0) as [Hx|Hx].
  - set (r := round53 (- x * inject_Z grid)).
    assert (Hr : 0 <= r) by (apply round53_nonneg, scaled_nonneg; lra).
    assert (E : to_double x == - (r / inject_Z grid)) by now apply to_double_neg_eq.
    assert (Hd : 0 <= r / inject_Z grid).
    { apply Qle_shift_div_l; [exact Hg | lra]. }
    rewrite E. destruct (Qlt_le_dec (- (r / inject_Z grid)) 0) as [Hn|Hn].
    + rewrite (to_double_neg_eq _ Hn).
      assert (E2 : - - (r / inject_Z grid) * inject_Z grid == r) by (field; lra).
      rewrite (round53_comp _ _ E2). unfold r at 1.
      rewrite round53_idem by (apply scaled_nonneg; lra). reflexivity.
    + assert (Hz : r == 0).
      { assert (H0 : r / inject_Z grid == 0) by lra.
        rewrite <- (unscale r), H0. ring. }
      rewrite (to_double_nonneg_eq _ Hn).
      assert (E2 : - (r / inject_Z grid) * inject_Z grid == round53 (- x * inject_Z grid)).
      { fold r. rewrite Hz. field. lra. }
      rewrite (round53_comp _ _ E2), round53_idem by (apply scaled_nonneg; lra).
      fold r. rewrite Hz. field. lra.
  - rewrite (to_double_nonneg_eq x Hx).
    set (r := round53 (x * inject_Z grid)).
    assert (Hr : 0 <= r) by (apply round53_nonneg, scaled_nonneg, Hx).
    assert (Hd : 0 <= r / inject_Z grid).
    { apply Qle_shift_div_l; [exact Hg | lra]. }
    rewrite (to_double_nonneg_eq _ Hd), (round53_comp _ _ (unscale r)).
    unfold r. now rewrite round53_idem by now apply scaled_nonneg.
Qed.

(** Rounding does not cross a double. *)
Lemma double_below (a x : Q) : is_double a -> a <= x -> a <= to_double x.
Proof.
  intros Ha H. unfold is_double in Ha.
  apply Qle_trans with (to_double a); [rewrite Ha; apply Qle_refl|].
  now apply to_double_mono.
Qed.

Lemma double_above (a x : Q) : is_double a -> x <= a -> to_double x <= a.
Proof.
  intros Ha H. unfold is_double in Ha.
  apply Qle_trans with (to_double a); [|rewrite Ha; apply Qle_refl].
  now apply to_double_mono.
Qed.

Lemma is_double_0 : is_double 0.
Proof. reflexivity. Qed.

(** Half of the least spacing, [2^-1075]. *)
Definition half_quantum : Q := 1 / inject_Z (2 * grid).

(** The error one rounding can make at [x]: [2^-53] of it, and in the
    subnormal range half the least spacing. *)
Definition rounding (x : Q) : Q := Qabs x / inject_Z (2 ^ 53) + half_quantum.

Lemma to_double_error_nonneg (x : Q) :
  0 <= x -> Qabs (to_double x - x) <= x / inject_Z (2 ^ 53) + half_quantum.
Proof.
  intros Hx. pose proof grid_pos as Hg.
  rewrite (to_double_nonneg_eq x Hx).
  set (q := x * inject_Z grid).
  assert (Hq : 0 <= q) by now apply scaled_nonneg.
  pose proof (round53_error q) as He. pose proof (ulp_bound q Hq) as Hu.
  assert (E : round53 q / inject_Z grid - x == (round53 q - q) / inject_Z grid).
  { unfold q. field. lra. }
  rewrite E. unfold Qdiv at 1. rewrite Qabs_Qmult.
  rewrite (Qabs_pos (/ inject_Z grid))
    by (apply Qlt_le_weak, Qinv_lt_0_compat, Hg).
  apply Qle_trans with ((1 + q / inject_Z (2 ^ 52)) / 2 * / inject_Z grid).
  - apply Qmult_le_compat_r; [|apply Qlt_le_weak, Qinv_lt_0_compat, Hg].
    eapply Qle_trans; [exact He|].
    unfold Qdiv at 1 3. apply Qmult_le_compat_r; [exact Hu | discriminate].
  - unfold half_quantum, q.
    rewrite inject_Z_mult.
    change (inject_Z (2 ^ 53)) with (2 * inject_Z (2 ^ 52)).
    change (inject_Z 2) with 2.
    assert (H52 : 0 < inject_Z (2 ^ 52)) by (apply inject_pos; lia).
    apply Qle_lteq; right. field. split; lra.
Qed.

Lemma to_double_opp (x : Q) : x < 0 -> to_double x == - to_double (- x).
Proof.
  intros H. rewrite (to_double_neg_eq x H).
  rewrite (to_double_nonneg_eq (- x)) by lra. reflexivity.
Qed.

(** One rounding is off by at most [rounding]. *)
Lemma to_double_error (x : Q) : Qabs (to_double x - x) <= rounding x.
Proof.
  unfold rounding. destruct (Qlt_le_dec x 0) as [Hx|Hx].
  - rewrite (to_double_opp x Hx), (Qabs_neg x) by lra.
    assert (E : - to_double (- x) - x == - (to_double (- x) - - x)) by ring.
    rewrite E, Qabs_opp. apply to_double_error_nonneg. lra.
  - rewrite (Qabs_pos x) by exact Hx. now apply to_double_error_nonneg.
Qed.

Lemma rounding_below (x : Q) : x - rounding x <= to_double x.
Proof.
  pose proof (to_double_error x) as H.
  apply Qabs_Qle_condition in H. lra.
Qed.

(** The sum [0.1 + 0.7] of JavaScript is [0.7999999999999999], below the
    sum of the two doubles. *)
Example tenth_plus_seven_tenths :
  to_double (1 # 10) = 3602879701896397 # 36028797018963968 /\
  to_double (to_double (1 # 10) + to_double (7 # 10))
  = 7205759403792793 # 9007199254740992 /\
  to_double (to_double (1 # 10) + to_double (7 # 10))
  < to_double (1 # 10) + to_double (7 # 10).
Proof. repeat split; vm_compute; reflexivity. Qed.

End DoubleFacts.

(** ** Audio helper functions of [TutorPanel.tsx] (and [ExamPanel.tsx]) *)

Module Audio.
Import JS Double Base64.

(** [String.fromCharCode(b)] for a byte and [s.charCodeAt(i)]. *)
Definition fromCharCode (b : Z) : ascii := ascii_of_N (Z.to_N b).

Definition charCodeAt (s : string) (i : nat) : Z :=
  match String.get i s with
  | Some c => Z.of_N (N_of_ascii c)
  | None => 0
  end.

(** [encode]: the loop appends one character per byte, then [btoa]. *)
Definition encode (bytes : list Z) : string :=
  let len := length bytes in
  let binary :=
    fold_left (fun binary i => (binary ++ String (fromCharCode (nth i bytes 0)) "")%string)
              (seq 0 len) ""%string in
  btoa binary.

(** [decode]: [atob], then the loop fills a fresh [Uint8Array(len)]. *)
Definition decode (base64 : string) : completion (list Z) :=
  match atob base64 with
  | None => Throw InvalidCharacterError
  | Some binaryString =>
      let len := String.length binaryString in
      let bytes := replicate len 0 in
      Normal (fold_left (fun bytes i => <[i := charCodeAt binaryString i]> bytes)
                        (seq 0 len) bytes)
  end.

(** [ToInt16] of ECMAScript on a finite number: truncate toward zero, reduce
    modulo 2^16, read the result as a signed 16-bit integer. *)
Definition ToInt16 (x : Q) : Z :=
  let int := Z.quot (Qnum x) (Zpos (Qden x)) in
  let int16bit := int mod 65536 in
  if 32768 <=? int16bit then int16bit - 65536 else int16bit.

(** An [Int16Array] is its buffer: two bytes per element, low byte first. *)
Definition Int16Array_new (l : nat) : list Z := replicate (2 * l) 0.

Definition Int16Array_length (buf : list Z) : nat := (length buf / 2)%nat.

(** [int16[i] = x]; a write past the end is ignored. *)
Definition Int16Array_set (buf : list Z) (i : nat) (x : Q) : list Z :=
  let u := ToInt16 x mod 65536 in
  <[(2 * i + 1)%nat := u / 256]> (<[(2 * i)%nat := u mod 256]> buf).

(** [int16[i]] *)
Definition Int16Array_get (buf : list Z) (i : nat) : Z :=
  let u := nth (2 * i) buf 0 + 256 * nth (2 * i + 1) buf 0 in
  if 32768 <=? u then u - 65536 else u.

(** [new Int16Array(data.buffer)] throws on an odd byte length. *)
Definition Int16Array_of_buffer (buffer : list Z) : completion (list Z) :=
  if Nat.even (length buffer) then Normal buffer else Throw RangeError.

Record AudioBuffer : Type := {
  sampleRate : Z;
  frames : nat;                      (* AudioBuffer.length *)
  channels : list (list Q)           (* getChannelData(c) *)
}.

(** [AudioBuffer.duration], in seconds: the double [length / sampleRate]. *)
Definition duration (b : AudioBuffer) : Q :=
  to_double (inject_Z (Z.of_nat (frames b)) / inject_Z (sampleRate b))%Q.

(** [decodeAudioData(data, ctx, sampleRate, numChannels)]. Every call site
    passes [numChannels = 1], where [frameCount] is a whole number;
    [ctx.createBuffer] throws when the frame or channel count is zero. *)
Definition decodeAudioData (data : list Z) (sampleRate : Z) (numChannels : nat)
  : completion AudioBuffer :=
  match Int16Array_of_buffer data with
  | Throw e => Throw e
  | Normal dataInt16 =>
      let frameCount := (Int16Array_length dataInt16 / numChannels)%nat in
      if ((frameCount =? 0) || (numChannels =? 0))%nat then Throw NotSupportedError
      else
        let fill channel :=
          fold_left
            (fun channelData i =>
               <[i := (inject_Z (Int16Array_get dataInt16 (i * numChannels + channel))
                       / 32768)%Q]> channelData)
            (seq 0 frameCount) (replicate frameCount 0%Q) in
        Normal {| sampleRate := sampleRate; frames := frameCount;
                  channels := map fill (seq 0 numChannels) |}
  end.

Record Blob : Type := { data : string; mimeType : string }.

(** [createBlob(data)]: the loop stores [data[i] * 32768] into a fresh
    [Int16Array(l)]; the bytes of its buffer are then encoded. *)
Definition createBlob (samples : list Q) : Blob :=
  let l := length samples in
  let int16 :=
    fold_left (fun int16 i => Int16Array_set int16 i (nth i samples 0%Q * 32768)%Q)
              (seq 0 l) (Int16Array_new l) in
  {| data := encode int16; mimeType := "audio/pcm;rate=16000" |}.

(** What a receiver obtains from an outbound chunk: [decode], then
    [decodeAudioData] at one channel. *)
Definition roundtrip (samples : list Q) : completion AudioBuffer :=
  match decode (data (createBlob samples)) with
  | Throw e => Throw e
  | Normal bytes => decodeAudioData bytes 24000 1
  end.

End Audio.

Module AudioFacts.
Import JS Base64 Base64Facts Audio.

(** *** Loops over [0 .. n) *)

Lemma fold_seq_S {A} (f : A -> nat -> A) (n : nat) (a : A) :
  fold_left f (seq 0 (S n)) a = f (fold_left f (seq 0 n) a) n.
Proof. rewrite seq_S, fold_left_app. reflexivity. Qed.

(** [for (i = 0; i < n; i++) arr[i] = f(i)] on an array of length [n]. *)
Lemma fill_loop_prefix {A} (f : nat -> A) (init : list A) (k : nat) :
  (k <= length init)%nat ->
  fold_left (fun arr i => <[i := f i]> arr) (seq 0 k) init
  = map f (seq 0 k) ++ drop k init.
Proof.
  induction k as [|k IH]; intros Hk.
  - reflexivity.
  - rewrite fold_seq_S, IH by lia.
    destruct (lookup_lt_is_Some_2 init k ltac:(lia)) as [x Hx].
    rewrite (drop_S _ _ _ Hx), seq_S, map_app. cbn [map].
    rewrite insert_app_r_alt by (rewrite length_map, length_seq; lia).
    rewrite length_map, length_seq, Nat.sub_diag. cbn.
    now rewrite <- app_assoc.
Qed.

Lemma fill_loop {A} (f : nat -> A) (init : list A) :
  fold_left (fun arr i => <[i := f i]> arr) (seq 0 (length init)) init
  = map f (seq 0 (length init)).
Proof.
  rewrite fill_loop_prefix by lia.
  rewrite drop_all. apply app_nil_r.
Qed.

Lemma map_nth_seq {A} (l : list A) (d : A) :
  map (fun i => nth i l d) (seq 0 (length l)) = l.
Proof.
  apply list_eq. intros i.
  rewrite list_lookup_fmap.
  destruct (decide (i < length l)%nat) as [Hi|Hi].
  - rewrite lookup_seq_lt by lia. cbn.
    destruct (lookup_lt_is_Some_2 l i Hi) as [x Hx].
    now rewrite (nth_lookup_Some _ _ _ _ Hx), Hx.
  - rewrite lookup_seq_ge by lia. cbn. symmetry. apply lookup_ge_None. lia.
Qed.

(** *** Characters and bytes *)

Definition is_byte (b : Z) : Prop := 0 <= b < 256.

Lemma charCode_fromCharCode (b : Z) :
  is_byte b -> Z.of_N (N_of_ascii (fromCharCode b)) = b.
Proof.
  unfold is_byte, fromCharCode. intros Hb.
  rewrite N_ascii_embedding by lia. lia.
Qed.

Lemma fromCharCode_charCode (c : ascii) : fromCharCode (Z.of_N (N_of_ascii c)) = c.
Proof. unfold fromCharCode. rewrite N2Z.id. apply ascii_N_embedding. Qed.

Lemma string_of_list_ascii_app (l1 l2 : list ascii) :
  string_of_list_ascii (l1 ++ l2)
  = (string_of_list_ascii l1 ++ string_of_list_ascii l2)%string.
Proof. induction l1 as [|c l1 IH]; cbn; [reflexivity | now rewrite IH]. Qed.

Lemma get_list_ascii (s : string) (i : nat) :
  String.get i s = list_ascii_of_string s !! i.
Proof.
  revert i. induction s as [|c s IH]; intros [|i]; cbn; auto.
Qed.

Lemma length_list_ascii (s : string) :
  length (list_ascii_of_string s) = String.length s.
Proof. induction s as [|c s IH]; cbn; [reflexivity | now rewrite IH]. Qed.

(** The binary string that [encode] builds. *)
Definition binary_of_bytes (bytes : list Z) : string :=
  string_of_list_ascii (map fromCharCode bytes).

(** The bytes that [decode] reads off a binary string. *)
Definition bytes_of_binary (s : string) : list Z :=
  map (fun c => Z.of_N (N_of_ascii c)) (list_ascii_of_string s).

Lemma encode_loop (bytes : list Z) (k : nat) :
  (k <= length bytes)%nat ->
  fold_left (fun binary i => (binary ++ String (fromCharCode (nth i bytes 0)) "")%string)
            (seq 0 k) ""%string
  = binary_of_bytes (take k bytes).
Proof.
  induction k as [|k IH]; intros Hk.
  - reflexivity.
  - rewrite fold_seq_S, IH by lia.
    destruct (lookup_lt_is_Some_2 bytes k ltac:(lia)) as [x Hx].
    rewrite (take_S_r _ _ _ Hx), (nth_lookup_Some _ _ _ _ Hx).
    unfold binary_of_bytes. now rewrite map_app, string_of_list_ascii_app.
Qed.

Lemma encode_btoa (bytes : list Z) : encode bytes = btoa (binary_of_bytes bytes).
Proof.
  unfold encode. rewrite encode_loop by lia. now rewrite firstn_all.
Qed.

Lemma decode_atob (base64 : string) :
  decode base64 =
  match atob base64 with
  | Some binaryString => Normal (bytes_of_binary binaryString)
  | None => Throw InvalidCharacterError
  end.
Proof.
  unfold decode. destruct (atob base64) as [s|]; [|reflexivity]. f_equal.
  pose proof (fill_loop (charCodeAt s) (replicate (String.length s) 0)) as H.
  rewrite length_replicate in H. rewrite H.
  unfold bytes_of_binary.
  rewrite <- (map_nth_seq (list_ascii_of_string s) "000"%char) at 1.
  rewrite length_list_ascii, map_map.
  apply map_ext_in. intros i Hi. apply in_seq in Hi.
  unfold charCodeAt. rewrite get_list_ascii.
  destruct (lookup_lt_is_Some_2 (list_ascii_of_string s) i
              ltac:(rewrite length_list_ascii; lia)) as [c Hc].
  now rewrite Hc, (nth_lookup_Some _ _ _ _ Hc).
Qed.

Lemma bytes_of_binary_of_bytes (bytes : list Z) :
  Forall is_byte bytes -> bytes_of_binary (binary_of_bytes bytes) = bytes.
Proof.
  intros H. unfold bytes_of_binary, binary_of_bytes.
  rewrite list_ascii_of_string_of_list_ascii, map_map.
  induction H as [|b l Hb _ IH]; cbn; [reflexivity|].
  now rewrite charCode_fromCharCode, IH.
Qed.

(** [decode(encode(bytes)) = bytes] for every [Uint8Array]. *)
Lemma decode_encode_bytes (bytes : list Z) :
  Forall is_byte bytes -> decode (encode bytes) = Normal bytes.
Proof.
  intros H. rewrite decode_atob, encode_btoa, atob_btoa.
  now rewrite bytes_of_binary_of_bytes.
Qed.

(** *** The outbound chunk *)

(** The sample conversion of [createBlob]: scale by 32768, store as int16. *)
Definition pcm16 (x : Q) : Z := ToInt16 (x * 32768)%Q.

(** A signed 16-bit integer as two bytes in two's complement, low byte
    first (little-endian). *)
Definition int16_le (v : Z) : list Z := [v mod 256; (v / 256) mod 256].

(** The bytes [createBlob] makes of a frame: every sample through its own
    conversion, low byte first. *)
Definition pcm_s16le (samples : list Q) : list Z :=
  flat_map (fun x => int16_le (pcm16 x)) samples.

(** Base64 (RFC 4648) of a byte sequence. *)
Definition base64 (bytes : list Z) : string := btoa (binary_of_bytes bytes).

Lemma ToInt16_range (x : Q) : -32768 <= ToInt16 x < 32768.
Proof.
  unfold ToInt16.
  pose proof (Z.mod_pos_bound (Qnum x ÷ Z.pos (Qden x)) 65536 ltac:(lia)).
  destruct (Z.leb_spec 32768 ((Qnum x ÷ Z.pos (Qden x)) mod 65536)); lia.
Qed.

Lemma int16_bytes (v : Z) :
  [(v mod 65536) mod 256; (v mod 65536) / 256] = int16_le v.
Proof.
  unfold int16_le. f_equal; [|f_equal].
  - Z.to_euclidean_division_equations; lia.
  - Z.to_euclidean_division_equations; lia.
Qed.

Lemma int16_le_bytes (v : Z) : Forall is_byte (int16_le v).
Proof.
  unfold int16_le, is_byte. repeat constructor; apply Z.mod_pos_bound; lia.
Qed.

Lemma length_pcm_s16le (samples : list Q) :
  length (pcm_s16le samples) = (2 * length samples)%nat.
Proof.
  induction samples as [|x l IH]; cbn; [reflexivity|].
  unfold pcm_s16le in IH. rewrite IH. lia.
Qed.

Lemma pcm_s16le_bytes (samples : list Q) : Forall is_byte (pcm_s16le samples).
Proof.
  induction samples as [|x l IH]; cbn; [constructor|].
  pose proof (int16_le_bytes (pcm16 x)) as H. unfold int16_le in H.
  inversion H as [|? ? H0 H1]; subst. inversion H1; subst.
  repeat (constructor; [assumption|]). exact IH.
Qed.

Lemma pcm_s16le_snoc (l : list Q) (x : Q) :
  pcm_s16le (l ++ [x]) = pcm_s16le l ++ int16_le (pcm16 x).
Proof. unfold pcm_s16le. rewrite flat_map_app. reflexivity. Qed.

(** The store loop of [createBlob], after [k] iterations. *)
Lemma createBlob_loop (samples : list Q) (k : nat) :
  (k <= length samples)%nat ->
  fold_left (fun int16 i => Int16Array_set int16 i (nth i samples 0%Q * 32768)%Q)
            (seq 0 k) (Int16Array_new (length samples))
  = pcm_s16le (take k samples) ++ replicate (2 * (length samples - k)) 0.
Proof.
  induction k as [|k IH]; intros Hk.
  - cbn [seq fold_left take pcm_s16le flat_map app]. now rewrite Nat.sub_0_r.
  - rewrite fold_seq_S, IH by lia. clear IH.
    destruct (lookup_lt_is_Some_2 samples k ltac:(lia)) as [x Hx].
    rewrite (take_S_r _ _ _ Hx), (nth_lookup_Some _ _ _ _ Hx), pcm_s16le_snoc.
    assert (Hlen : length (pcm_s16le (take k samples)) = (2 * k)%nat).
    { rewrite length_pcm_s16le, length_take_le; lia. }
    replace (2 * (length samples - k))%nat
      with (S (S (2 * (length samples - S k)))) by lia.
    unfold Int16Array_set. fold (pcm16 x).
    rewrite !replicate_S.
    rewrite (insert_app_r_alt _ _ (2 * k)) by lia.
    rewrite Hlen, Nat.sub_diag. cbn [insert list_insert].
    rewrite (insert_app_r_alt _ _ (2 * k + 1)) by lia.
    rewrite Hlen. replace (2 * k + 1 - 2 * k)%nat with 1%nat by lia.
    cbn [insert list_insert].
    rewrite <- app_assoc. f_equal.
    rewrite <- int16_bytes. reflexivity.
Qed.

Lemma createBlob_buffer (samples : list Q) :
  fold_left (fun int16 i => Int16Array_set int16 i (nth i samples 0%Q * 32768)%Q)
            (seq 0 (length samples)) (Int16Array_new (length samples))
  = pcm_s16le samples.
Proof.
  rewrite createBlob_loop by lia.
  rewrite firstn_all, Nat.sub_diag. cbn. apply app_nil_r.
Qed.

Lemma pcm_s16le_nth (samples : list Q) (i : nat) (x : Q) :
  samples !! i = Some x ->
  nth (2 * i) (pcm_s16le samples) 0 = pcm16 x mod 256 /\
  nth (2 * i + 1) (pcm_s16le samples) 0 = (pcm16 x / 256) mod 256.
Proof.
  revert i. induction samples as [|y l IH]; intros i Hi; [discriminate|].
  destruct i as [|i].
  - injection Hi as ->. split; reflexivity.
  - cbn in Hi. destruct (IH i Hi) as [H0 H1].
    replace (2 * S i)%nat with (S (S (2 * i))) by lia.
    replace (S (S (2 * i)) + 1)%nat with (S (S (2 * i + 1))) by lia.
    split; assumption.
Qed.

(** Reading element [i] of the buffer as int16 gives back the stored value. *)
Lemma Int16Array_get_pcm (samples : list Q) (i : nat) (x : Q) :
  samples !! i = Some x -> Int16Array_get (pcm_s16le samples) i = pcm16 x.
Proof.
  intros Hi. destruct (pcm_s16le_nth _ _ _ Hi) as [H0 H1].
  unfold Int16Array_get. rewrite H0, H1.
  pose proof (ToInt16_range (x * 32768)%Q) as Hr. fold (pcm16 x) in Hr.
  destruct (Z.leb_spec 32768 (pcm16 x mod 256 + 256 * ((pcm16 x / 256) mod 256)));
    Z.to_euclidean_division_equations; lia.
Qed.

(** *** The inbound chunk, at one channel *)

Definition samples_of (dataInt16 : list Z) : list Q :=
  map (fun i => (inject_Z (Int16Array_get dataInt16 i) / 32768)%Q)
      (seq 0 (Int16Array_length dataInt16)).

Lemma decodeAudioData_mono (bytes : list Z) (rate : Z) :
  decodeAudioData bytes rate 1 =
  if Nat.even (length bytes) then
    if (Int16Array_length bytes =? 0)%nat then Throw NotSupportedError
    else Normal {| sampleRate := rate; frames := Int16Array_length bytes;
                   channels := [samples_of bytes] |}
  else Throw RangeError.
Proof.
  unfold decodeAudioData, Int16Array_of_buffer.
  destruct (Nat.even (length bytes)); [|reflexivity].
  rewrite Nat.div_1_r, orb_false_r.
  destruct (Int16Array_length bytes =? 0)%nat; [reflexivity|].
  cbn [seq map]. do 2 f_equal. f_equal.
  pose proof (fill_loop
    (fun i => (inject_Z (Int16Array_get bytes (i * 1 + 0)) / 32768)%Q)
    (replicate (Int16Array_length bytes) 0%Q)) as H.
  rewrite length_replicate in H. rewrite H. unfold samples_of.
  apply map_ext. intros i. now rewrite Nat.mul_1_r, Nat.add_0_r.
Qed.

(** The value a sample comes back as. *)
Definition quantize (x : Q) : Q := (inject_Z (pcm16 x) / 32768)%Q.

Lemma samples_of_pcm (samples : list Q) :
  samples_of (pcm_s16le samples) = map quantize samples.
Proof.
  unfold samples_of, Int16Array_length.
  rewrite length_pcm_s16le, Nat.mul_comm, Nat.div_mul by lia.
  replace (map quantize samples)
    with (map quantize (map (fun i => nth i samples 0%Q) (seq 0 (length samples))))
    by (now rewrite map_nth_seq).
  rewrite map_map.
  apply map_ext_in. intros i Hi. apply in_seq in Hi.
  destruct (lookup_lt_is_Some_2 samples i ltac:(lia)) as [x Hx].
  now rewrite (Int16Array_get_pcm _ _ _ Hx), (nth_lookup_Some _ _ _ _ Hx).
Qed.

Lemma createBlob_data (samples : list Q) :
  data (createBlob samples) = base64 (pcm_s16le samples).
Proof.
  unfold createBlob. cbn [data]. rewrite createBlob_buffer. apply encode_btoa.
Qed.

Lemma decode_createBlob (samples : list Q) :
  decode (data (createBlob samples)) = Normal (pcm_s16le samples).
Proof.
  unfold createBlob. cbn [data]. rewrite createBlob_buffer.
  apply decode_encode_bytes, pcm_s16le_bytes.
Qed.

(** Encoding a non-empty frame and decoding it quantizes every sample. *)
Lemma roundtrip_quantize (samples : list Q) :
  samples <> [] ->
  roundtrip samples =
  Normal {| sampleRate := 24000; frames := length samples;
            channels := [map quantize samples] |}.
Proof.
  intros Hne. unfold roundtrip.
  rewrite decode_createBlob, decodeAudioData_mono, length_pcm_s16le.
  unfold Int16Array_length. rewrite length_pcm_s16le.
  rewrite Nat.mul_comm, Nat.even_mul, Nat.div_mul by lia. cbn [Nat.even orb].
  rewrite orb_true_r.
  destruct samples as [|x l]; [contradiction|]. cbn [length Nat.eqb].
  now rewrite samples_of_pcm.
Qed.

(** Truncation toward zero loses less than one unit. *)
Lemma ToInt16_in_range (y : Q) :
  (-32768 <= y)%Q -> (y < 32768)%Q ->
  ToInt16 y = Qnum y ÷ Z.pos (Qden y) /\
  (Qabs (inject_Z (ToInt16 y) - y) < 1)%Q.
Proof.
  destruct y as [n d]. intros Hlo Hhi.
  unfold Qle in Hlo. unfold Qlt in Hhi. cbn [Qnum Qden] in Hlo, Hhi.
  unfold ToInt16. cbn [Qnum Qden].
  assert (Hq : -32768 <= n ÷ Z.pos d <= 32767).
  { Z.to_euclidean_division_equations; nia. }
  assert (Heq : (if 32768 <=? (n ÷ Z.pos d) mod 65536
                 then (n ÷ Z.pos d) mod 65536 - 65536
                 else (n ÷ Z.pos d) mod 65536) = n ÷ Z.pos d).
  { destruct (Z.leb_spec 32768 ((n ÷ Z.pos d) mod 65536));
      Z.to_euclidean_division_equations; lia. }
  rewrite Heq. split; [reflexivity|].
  apply Qabs_Qlt_condition. unfold Qlt, Qminus, Qplus, Qopp, inject_Z.
  cbn [Qnum Qden]. split; Z.to_euclidean_division_equations; nia.
Qed.

(** The quantization bound, for samples in [-1, 1). *)
Lemma quantize_error (x : Q) :
  (-1 <= x)%Q -> (x < 1)%Q -> (Qabs (quantize x - x) < 1 # 32768)%Q.
Proof.
  intros Hlo Hhi.
  assert (H1 : (-32768 <= x * 32768)%Q).
  { change (-32768)%Q with ((-1) * 32768)%Q.
    apply Qmult_le_compat_r; [exact Hlo | discriminate]. }
  assert (H2 : (x * 32768 < 32768)%Q).
  { change (x * 32768 < 1 * 32768)%Q.
    apply Qmult_lt_compat_r; [reflexivity | exact Hhi]. }
  destruct (ToInt16_in_range _ H1 H2) as [_ Hb].
  unfold quantize, pcm16.
  assert (He : (inject_Z (ToInt16 (x * 32768)) / 32768 - x
                == (inject_Z (ToInt16 (x * 32768)) - x * 32768) * (1 # 32768))%Q)
    by field.
  rewrite He, Qabs_Qmult.
  change (Qabs (inject_Z (ToInt16 (x * 32768)) - x * 32768) * (1 # 32768)
          < 1 * (1 # 32768))%Q.
  apply Qmult_lt_compat_r; [reflexivity | exact Hb].
Qed.

(** X4. Every sample of a non-empty frame with values in [-1, 1) comes back
    within 1/32768. *)
Lemma roundtrip_within (samples : list Q) :
  samples <> [] ->
  Forall (fun x => (-1 <= x)%Q /\ (x < 1)%Q) samples ->
  exists buffer received,
    roundtrip samples = Normal buffer /\
    frames buffer = length samples /\
    channels buffer = [received] /\
    Forall2 (fun x y => (Qabs (y - x) < 1 # 32768)%Q) samples received.
Proof.
  intros Hne Hin. eexists. exists (map quantize samples).
  split; [now apply roundtrip_quantize|]. cbn [frames channels].
  repeat split. clear Hne.
  induction Hin as [|x l [Hlo Hhi] _ IH]; cbn [map]; constructor.
  - now apply quantize_error.
  - exact IH.
Qed.

(** *** The chunk against signed 16-bit PCM *)

(** A number cut to a whole number, toward zero. *)
Definition truncate (y : Q) : Z := if Qle_bool 0 y then Qfloor y else Qceiling y.

(** A sample as signed 16-bit PCM: scaled by 32768, cut to a whole number
    and kept within the range of int16, so that full scale [1.0] is the
    largest value, 32767. *)
Definition pcm_sample (x : Q) : Z :=
  Z.max (-32768) (Z.min 32767 (truncate (x * 32768)%Q)).

(** A frame as 16-bit little-endian signed PCM. *)
Definition pcm_frame (samples : list Q) : list Z :=
  flat_map (fun x => int16_le (pcm_sample x)) samples.

Lemma truncate_quot (y : Q) : truncate y = Qnum y ÷ Z.pos (Qden y).
Proof.
  destruct y as [n d]. unfold truncate, Qceiling, Qfloor, Qopp. cbn [Qnum Qden].
  destruct (Qle_bool 0 (n # d)) eqn:E.
  - apply Qle_bool_iff in E. unfold Qle in E. cbn in E.
    Z.to_euclidean_division_equations; nia.
  - assert (H : ~ (0 <= n # d)%Q) by (rewrite <- Qle_bool_iff; congruence).
    unfold Qle in H. cbn in H.
    Z.to_euclidean_division_equations; nia.
Qed.

(** Below full scale the conversion of [createBlob] is that of PCM. *)
Lemma pcm16_in_range (x : Q) :
  (-1 <= x)%Q -> (x < 1)%Q -> pcm16 x = pcm_sample x.
Proof.
  intros Hlo Hhi.
  assert (H1 : (-32768 <= x * 32768)%Q).
  { change (-32768)%Q with ((-1) * 32768)%Q.
    apply Qmult_le_compat_r; [exact Hlo | discriminate]. }
  assert (H2 : (x * 32768 < 32768)%Q).
  { change (x * 32768 < 1 * 32768)%Q.
    apply Qmult_lt_compat_r; [reflexivity | exact Hhi]. }
  destruct (ToInt16_in_range _ H1 H2) as [Heq _].
  unfold pcm16, pcm_sample. rewrite Heq, truncate_quot.
  destruct (x * 32768)%Q as [n d]. unfold Qle in H1. unfold Qlt in H2.
  cbn [Qnum Qden] in *.
  Z.to_euclidean_division_equations; nia.
Qed.

(** For a frame below full scale the chunk is the base64 of its PCM, with the
    MIME type of 16 kHz PCM. *)
Lemma createBlob_in_range (samples : list Q) :
  Forall (fun x => (-1 <= x)%Q /\ (x < 1)%Q) samples ->
  createBlob samples
  = {| data := base64 (pcm_frame samples); mimeType := "audio/pcm;rate=16000" |}.
Proof.
  intros Hin.
  assert (Hpcm : pcm_s16le samples = pcm_frame samples).
  { induction Hin as [|x l [Hlo Hhi] _ IH]; [reflexivity|].
    unfold pcm_s16le, pcm_frame in *. cbn [flat_map].
    now rewrite IH, (pcm16_in_range x Hlo Hhi). }
  pose proof (createBlob_data samples) as Hd. rewrite Hpcm in Hd.
  destruct (createBlob samples) as [d m] eqn:E.
  assert (Hm : m = "audio/pcm;rate=16000"%string).
  { unfold createBlob in E. now injection E as _ <-. }
  cbn [data] in Hd. now subst.
Qed.

(** C6, at the input where it fails. A frame holding the sample 1.0, the
    upper end of the range, has as 16-bit little-endian signed PCM the bytes
    ff 7f (32767), whose base64 is "/38=". [createBlob] stores 1.0 * 32768 =
    32768 into the [Int16Array] without clamping, where it wraps to -32768:
    the chunk is "AIA=" (bytes 00 80), the chunk of the sample -1.0. The
    MIME type is as claimed. *)
Theorem createBlob_full_scale :
  createBlob [1%Q] = {| data := "AIA="; mimeType := "audio/pcm;rate=16000" |} /\
  decode (data (createBlob [1%Q])) = Normal [0; 128] /\
  pcm_frame [1%Q] = [255; 127] /\
  base64 (pcm_frame [1%Q]) = "/38="%string /\
  data (createBlob [1%Q]) <> base64 (pcm_frame [1%Q]) /\
  createBlob [1%Q] = createBlob [(-1)%Q] /\
  data (createBlob [(-1)%Q]) = base64 (pcm_frame [(-1)%Q]).
Proof.
  do 4 (split; [vm_compute; reflexivity|]).
  split; [vm_compute; discriminate|].
  split; vm_compute; reflexivity.
Qed.

(** C3, at the input where it fails. A frame holding the sample 1.0 is
    encoded as the int16 value -32768 (32768 wraps around), so the sample
    comes back as -1.0: an error of 2, not of at most 1/32768. *)
Theorem roundtrip_full_scale :
  data (createBlob [1%Q]) = "AIA="%string /\
  decode "AIA=" = Normal [0; 128] /\
  roundtrip [1%Q] =
    Normal {| sampleRate := 24000; frames := 1;
              channels := [[(-32768 # 32768)%Q]] |} /\
  ((-32768 # 32768) - 1 == -2)%Q /\
  ~ (Qabs ((-32768 # 32768) - 1) <= 1 # 32768)%Q.
Proof.
  repeat split; try reflexivity. intros H. vm_compute in H. now apply H.
Qed.

End AudioFacts.

(** ** [TutorPanel.tsx]: the live conversation *)

Module TutorPanel.
Import JS JS.Notations Double Audio.

(** Browser and SDK objects are named by handles. *)
Definition handle : Type := nat.

Inductive Speaker : Type := user | tutor.

(** [Transcript] of [types.ts]. *)
Record Transcript : Type := {
  id : Z;
  speaker : Speaker;
  text : string;
  image : option string
}.

(** The part of [LiveServerMessage] the handler reads. *)
Record Transcription : Type := { transcription_text : option string }.
Record InlineData : Type := { inline_data : option string }.
Record Part : Type := { inlineData : option InlineData }.
Record Content : Type := { parts : list Part }.
Record ServerContent : Type := {
  outputTranscription : option Transcription;
  inputTranscription : option Transcription;
  turnComplete : bool;
  modelTurn : option Content
}.
Record LiveServerMessage : Type := { serverContent : option ServerContent }.

(** How the promise of [ai.live.connect] settles. *)
Inductive outcome : Type :=
  | Fulfilled (session : handle)
  | Rejected (reason : exn).

(** What the component does to the objects it holds, in order. *)
Inductive effect : Type :=
  | TrackStop (stream : handle)               (* every track of the stream stopped *)
  | ContextClose (ctx : handle)
  | Disconnect (node : handle)
  | DetachAudioProcess (node : handle)        (* onaudioprocess = null *)
  | SessionClose (session : handle)
  | SendRealtimeInput (session : handle) (media : Blob)
  | SourceStart (node : handle) (when : Q) (buffer : AudioBuffer)
  | ConsoleError (label : string)
  | UnhandledRejection (reason : exn).

(** Code waiting for a promise: a suspended [stopConversation], or the
    [then] callback of [onaudioprocess]. *)
Inductive waiter : Type :=
  | AwaitInStop
  | ThenSend (media : Blob).

Record World : Type := {
  fresh : handle;                             (* next unused handle *)
  settled : gmap handle outcome;              (* absent: still pending *)
  broken : gset handle;                       (* sessions whose close() throws *)
  waiters : list (handle * waiter);
  effects : list effect
}.

(** [audioContextRefs.current] *)
Record AudioRefs : Type := {
  input : option handle;
  output : option handle;
  scriptProcessor : option handle;
  source : option handle
}.

(** [transcriptRefs.current] *)
Record TranscriptRefs : Type := { currentInput : string; currentOutput : string }.

(** The variables the callbacks of one [startConversation] call close over. *)
Record Closure : Type := {
  inputAudioContext : handle;
  outputAudioContext : handle;
  nextStartTime : Q;
  sources : gset handle
}.

Record State : Type := {
  isRecording : bool;
  error : option string;
  transcripts : list Transcript;
  sessionPromiseRef : option handle;
  mediaStreamRef : option handle;
  audioContextRefs : AudioRefs;
  transcriptRefs : TranscriptRefs;
  closure : Closure;
  world : World
}.

Definition null_refs : AudioRefs :=
  {| input := None; output := None; scriptProcessor := None; source := None |}.

Definition empty_transcriptRefs : TranscriptRefs :=
  {| currentInput := ""; currentOutput := "" |}.

Definition initial_world : World :=
  {| fresh := 0%nat; settled := ∅; broken := ∅; waiters := []; effects := [] |}.

(** The component as mounted. *)
Definition initial_state : State :=
  {| isRecording := false; error := None; transcripts := [];
     sessionPromiseRef := None; mediaStreamRef := None;
     audioContextRefs := null_refs; transcriptRefs := empty_transcriptRefs;
     closure := {| inputAudioContext := 0%nat; outputAudioContext := 0%nat;
                   nextStartTime := 0%Q; sources := ∅ |};
     world := initial_world |}.

(** *** Field updates *)

Definition set_isRecording (v : bool) (s : State) : State :=
  {| isRecording := v; error := error s; transcripts := transcripts s;
     sessionPromiseRef := sessionPromiseRef s; mediaStreamRef := mediaStreamRef s;
     audioContextRefs := audioContextRefs s; transcriptRefs := transcriptRefs s;
     closure := closure s; world := world s |}.

Definition set_error (v : option string) (s : State) : State :=
  {| isRecording := isRecording s; error := v; transcripts := transcripts s;
     sessionPromiseRef := sessionPromiseRef s; mediaStreamRef := mediaStreamRef s;
     audioContextRefs := audioContextRefs s; transcriptRefs := transcriptRefs s;
     closure := closure s; world := world s |}.

Definition set_transcripts (v : list Transcript) (s : State) : State :=
  {| isRecording := isRecording s; error := error s; transcripts := v;
     sessionPromiseRef := sessionPromiseRef s; mediaStreamRef := mediaStreamRef s;
     audioContextRefs := audioContextRefs s; transcriptRefs := transcriptRefs s;
     closure := closure s; world := world s |}.

Definition set_sessionPromiseRef (v : option handle) (s : State) : State :=
  {| isRecording := isRecording s; error := error s; transcripts := transcripts s;
     sessionPromiseRef := v; mediaStreamRef := mediaStreamRef s;
     audioContextRefs := audioContextRefs s; transcriptRefs := transcriptRefs s;
     closure := closure s; world := world s |}.

Definition set_mediaStreamRef (v : option handle) (s : State) : State :=
  {| isRecording := isRecording s; error := error s; transcripts := transcripts s;
     sessionPromiseRef := sessionPromiseRef s; mediaStreamRef := v;
     audioContextRefs := audioContextRefs s; transcriptRefs := transcriptRefs s;
     closure := closure s; world := world s |}.

Definition set_audioContextRefs (v : AudioRefs) (s : State) : State :=
  {| isRecording := isRecording s; error := error s; transcripts := transcripts s;
     sessionPromiseRef := sessionPromiseRef s; mediaStreamRef := mediaStreamRef s;
     audioContextRefs := v; transcriptRefs := transcriptRefs s;
     closure := closure s; world := world s |}.

Definition set_transcriptRefs (v : TranscriptRefs) (s : State) : State :=
  {| isRecording := isRecording s; error := error s; transcripts := transcripts s;
     sessionPromiseRef := sessionPromiseRef s; mediaStreamRef := mediaStreamRef s;
     audioContextRefs := audioContextRefs s; transcriptRefs := v;
     closure := closure s; world := world s |}.

Definition set_closure (v : Closure) (s : State) : State :=
  {| isRecording := isRecording s; error := error s; transcripts := transcripts s;
     sessionPromiseRef := sessionPromiseRef s; mediaStreamRef := mediaStreamRef s;
     audioContextRefs := audioContextRefs s; transcriptRefs := transcriptRefs s;
     closure := v; world := world s |}.

Definition set_world (v : World) (s : State) : State :=
  {| isRecording := isRecording s; error := error s; transcripts := transcripts s;
     sessionPromiseRef := sessionPromiseRef s; mediaStreamRef := mediaStreamRef s;
     audioContextRefs := audioContextRefs s; transcriptRefs := transcriptRefs s;
     closure := closure s; world := v |}.

Definition set_nextStartTime (v : Q) (c : Closure) : Closure :=
  {| inputAudioContext := inputAudioContext c;
     outputAudioContext := outputAudioContext c;
     nextStartTime := v; sources := sources c |}.

Definition set_sources (v : gset handle) (c : Closure) : Closure :=
  {| inputAudioContext := inputAudioContext c;
     outputAudioContext := outputAudioContext c;
     nextStartTime := nextStartTime c; sources := v |}.

Definition set_effects (v : list effect) (w : World) : World :=
  {| fresh := fresh w; settled := settled w; broken := broken w;
     waiters := waiters w; effects := v |}.

Definition set_waiters (v : list (handle * waiter)) (w : World) : World :=
  {| fresh := fresh w; settled := settled w; broken := broken w;
     waiters := v; effects := effects w |}.

Definition set_settled (v : gmap handle outcome) (w : World) : World :=
  {| fresh := fresh w; settled := v; broken := broken w;
     waiters := waiters w; effects := effects w |}.

Definition set_fresh (v : handle) (w : World) : World :=
  {| fresh := v; settled := settled w; broken := broken w;
     waiters := waiters w; effects := effects w |}.

(** *** Primitive operations *)

(** The effect log with one more entry. *)
Definition log (e : effect) (s : State) : State :=
  set_world (set_effects (effects (world s) ++ [e]) (world s)) s.

Definition perform (e : effect) : M State unit := modify (log e).

(** A new object. *)
Definition alloc : M State handle :=
  fun s => (Normal (fresh (world s)), set_world (set_fresh (S (fresh (world s))) (world s)) s).

(** A constructor or request the platform may refuse. *)
Definition construct (refusal : option exn) : M State handle :=
  match refusal with
  | Some e => throw e
  | None => alloc
  end.

Definition effect_is_close (ctx : handle) (e : effect) : bool :=
  match e with
  | ContextClose c => Nat.eqb c ctx
  | _ => false
  end.

(** [ctx.state === 'closed'] *)
Definition context_closed (ctx : handle) (s : State) : bool :=
  existsb (effect_is_close ctx) (effects (world s)).

(** [ctx.close()]: on a closed context the returned promise rejects, and
    nothing takes the rejection. *)
Definition AudioContext_close (ctx : handle) : M State unit :=
  closed <- gets (context_closed ctx) ;;
  if closed then perform (UnhandledRejection InvalidStateError)
  else perform (ContextClose ctx).

(** [session.close()] *)
Definition session_close (session : handle) : M State unit :=
  bad <- gets (fun s => bool_decide (session ∈ broken (world s))) ;;
  if bad then throw InvalidStateError else perform (SessionClose session).

(** A call that is not awaited: a rejection of its promise is unhandled. *)
Definition spawn (task : M State unit) : M State unit :=
  try_catch task (fun e => perform (UnhandledRejection e)).

(** *** [stopConversation]

    The function has one [await]: [await sessionPromiseRef.current]. It is
    cut there: [stop_resume] is what runs once the promise has settled,
    [stop_release] is the code after the [if (sessionPromiseRef.current)]
    block. *)

Definition stop_release : M State unit :=
  stream <- gets mediaStreamRef ;;
  match stream with
  | Some ms => perform (TrackStop ms) ;; modify (set_mediaStreamRef None)
  | None => ret tt
  end ;;
  refs <- gets audioContextRefs ;;
  match scriptProcessor refs with
  | Some sp => perform (Disconnect sp) ;; perform (DetachAudioProcess sp)
  | None => ret tt
  end ;;
  match source refs with
  | Some src => perform (Disconnect src)
  | None => ret tt
  end ;;
  match input refs with
  | Some ctx =>
      closed <- gets (context_closed ctx) ;;
      if closed then ret tt else AudioContext_close ctx
  | None => ret tt
  end ;;
  match output refs with
  | Some ctx =>
      closed <- gets (context_closed ctx) ;;
      if closed then ret tt else AudioContext_close ctx
  | None => ret tt
  end ;;
  modify (set_audioContextRefs null_refs).

Definition stop_resume (o : outcome) : M State unit :=
  try_catch
    match o with
    | Fulfilled session => session_close session
    | Rejected reason => throw reason
    end
    (fun e => perform (ConsoleError "Error closing session:")) ;;
  modify (set_sessionPromiseRef None) ;;
  stop_release.

(** The call itself: it runs up to the [await], and through it when the
    promise has already settled; on a pending promise it is suspended. *)
Definition stopConversation : M State unit :=
  modify (set_isRecording false) ;;
  promise <- gets sessionPromiseRef ;;
  match promise with
  | Some p =>
      known <- gets (fun s => settled (world s) !! p) ;;
      match known with
      | Some o => stop_resume o
      | None =>
          modify (fun s => set_world
                    (set_waiters (waiters (world s) ++ [(p, AwaitInStop)]) (world s)) s)
      end
  | None => stop_release
  end.

(** *** [startConversation]

    Cut at [await navigator.mediaDevices.getUserMedia]. The platform's
    answers are inputs: [Some e] is a refusal with exception [e]. *)

Definition start_catch (err : exn) : M State unit :=
  modify (set_error (Some (if instanceof_Error err then message_of err
                           else "An unknown error occurred."%string))) ;;
  spawn stopConversation.

(** Up to the [await]; [true] when [getUserMedia] has been requested. *)
Definition start_begin (genai : option exn) : M State bool :=
  modify (set_error None) ;;
  modify (set_isRecording true) ;;
  modify (set_transcriptRefs empty_transcriptRefs) ;;
  match genai with
  | Some e => start_catch e ;; ret false
  | None => ret true
  end.

Record StartEnv : Type := {
  getUserMedia : option exn;
  newInputContext : option exn;
  newOutputContext : option exn
}.

(** From the [await] on, inside the [try]. The promise of [ai.live.connect]
    is stored, not awaited. *)
Definition start_resume (env : StartEnv) : M State unit :=
  try_catch
    (stream <- construct (getUserMedia env) ;;
     modify (set_mediaStreamRef (Some stream)) ;;
     inCtx <- construct (newInputContext env) ;;
     outCtx <- construct (newOutputContext env) ;;
     modify (fun s => set_audioContextRefs
               {| input := Some inCtx; output := output (audioContextRefs s);
                  scriptProcessor := scriptProcessor (audioContextRefs s);
                  source := source (audioContextRefs s) |} s) ;;
     modify (fun s => set_audioContextRefs
               {| input := input (audioContextRefs s); output := Some outCtx;
                  scriptProcessor := scriptProcessor (audioContextRefs s);
                  source := source (audioContextRefs s) |} s) ;;
     modify (set_closure {| inputAudioContext := inCtx; outputAudioContext := outCtx;
                            nextStartTime := 0; sources := ∅ |}) ;;
     promise <- alloc ;;
     modify (set_sessionPromiseRef (Some promise)))
    start_catch.

Definition startConversation (genai : option exn) (env : StartEnv) : M State unit :=
  requested <- start_begin genai ;;
  if requested then start_resume env else ret tt.

(** *** The callbacks given to [ai.live.connect] *)

Definition onopen : M State unit :=
  stream <- gets mediaStreamRef ;;
  match stream with
  | None => throw TypeError            (* createMediaStreamSource(null) *)
  | Some _ =>
      src <- alloc ;;
      sp <- alloc ;;
      modify (fun s => set_audioContextRefs
                {| input := input (audioContextRefs s);
                   output := output (audioContextRefs s);
                   scriptProcessor := scriptProcessor (audioContextRefs s);
                   source := Some src |} s) ;;
      modify (fun s => set_audioContextRefs
                {| input := input (audioContextRefs s);
                   output := output (audioContextRefs s);
                   scriptProcessor := Some sp;
                   source := source (audioContextRefs s) |} s)
  end.

(** [sessionPromiseRef.current?.then(session => session.sendRealtimeInput(..))] *)
Definition onaudioprocess (frame : list Q) : M State unit :=
  let pcmBlob := createBlob frame in
  promise <- gets sessionPromiseRef ;;
  match promise with
  | None => ret tt
  | Some p =>
      known <- gets (fun s => settled (world s) !! p) ;;
      match known with
      | Some (Fulfilled session) => perform (SendRealtimeInput session pcmBlob)
      | Some (Rejected reason) => perform (UnhandledRejection reason)
      | None =>
          modify (fun s => set_world
                    (set_waiters (waiters (world s) ++ [(p, ThenSend pcmBlob)]) (world s)) s)
      end
  end.

(** What the handler reads from the platform. *)
Record MessageEnv : Type := {
  Date_now : Z;
  currentTime : Q                      (* outputAudioContext.currentTime *)
}.

(** [x += text]: an absent text is appended as the string "undefined". *)
Definition text_or_undefined (t : Transcription) : string :=
  match transcription_text t with
  | Some txt => txt
  | None => "undefined"
  end.

(** [message.serverContent?.modelTurn?.parts[0]?.inlineData.data] *)
Definition audioData_of (message : LiveServerMessage) : completion (option string) :=
  match serverContent message with
  | None => Normal None
  | Some sc =>
      match modelTurn sc with
      | None => Normal None
      | Some turn =>
          match parts turn with
          | [] => Normal None
          | part :: _ =>
              match inlineData part with
              | None => Throw TypeError
              | Some d => Normal (inline_data d)
              end
          end
      end
  end.

Definition turn_entries (now : Z) (fullInput fullOutput : string) : list Transcript :=
  (if truthy fullInput
   then [{| id := now + 1; speaker := user; text := fullInput; image := None |}]
   else [])
  ++ (if truthy fullOutput
      then [{| id := now + 2; speaker := tutor; text := fullOutput; image := None |}]
      else []).

(** The [await decodeAudioData(..)] inside resumes within the same task:
    [decodeAudioData] awaits nothing, so the handler runs through. *)
Definition onmessage (env : MessageEnv) (message : LiveServerMessage) : M State unit :=
  match serverContent message with
  | Some {| outputTranscription := Some t |} =>
      modify (fun s => set_transcriptRefs
                {| currentInput := currentInput (transcriptRefs s);
                   currentOutput := (currentOutput (transcriptRefs s)
                                     ++ text_or_undefined t)%string |} s)
  | _ => ret tt
  end ;;
  match serverContent message with
  | Some {| inputTranscription := Some t |} =>
      modify (fun s => set_transcriptRefs
                {| currentInput := (currentInput (transcriptRefs s)
                                    ++ text_or_undefined t)%string;
                   currentOutput := currentOutput (transcriptRefs s) |} s)
  | _ => ret tt
  end ;;
  match serverContent message with
  | Some {| turnComplete := true |} =>
      fullInput <- gets (fun s => currentInput (transcriptRefs s)) ;;
      fullOutput <- gets (fun s => currentOutput (transcriptRefs s)) ;;
      modify (fun s => set_transcripts
                (transcripts s ++ turn_entries (Date_now env) fullInput fullOutput) s) ;;
      modify (set_transcriptRefs empty_transcriptRefs)
  | _ => ret tt
  end ;;
  audioData <- lift (audioData_of message) ;;
  match audioData with
  | Some payload =>
      if truthy payload then
        modify (fun s => set_closure
                  (set_nextStartTime
                     (Math_max (nextStartTime (closure s)) (currentTime env))
                     (closure s)) s) ;;
        bytes <- lift (decode payload) ;;
        audioBuffer <- lift (decodeAudioData bytes 24000 1) ;;
        sourceNode <- alloc ;;
        when <- gets (fun s => nextStartTime (closure s)) ;;
        perform (SourceStart sourceNode when audioBuffer) ;;
        modify (fun s => set_closure
                  (set_nextStartTime
                     (to_double (nextStartTime (closure s) + duration audioBuffer)%Q)
                     (closure s)) s) ;;
        modify (fun s => set_closure
                  (set_sources ({[sourceNode]} ∪ sources (closure s)) (closure s)) s)
      else ret tt
  | None => ret tt
  end.

(** The ['ended'] listener of a source node. *)
Definition onended (sourceNode : handle) : M State unit :=
  modify (fun s => set_closure
            (set_sources (sources (closure s) ∖ {[sourceNode]}) (closure s)) s).

Definition onerror : M State unit :=
  modify (set_error (Some "An error occurred during the session."%string)) ;;
  spawn stopConversation.

Definition onclose : M State unit := ret tt.

(** [handleToggleRecording] *)
Definition handleToggleRecording (genai : option exn) : M State bool :=
  recording <- gets isRecording ;;
  if recording then spawn stopConversation ;; ret false
  else start_begin genai.

(** *** The event loop *)

(** The promise settles: what waits for it runs, in the order it queued. The
    report a browser makes of a rejected promise that nothing waits for is
    not part of the log. *)
Definition run_waiter (o : outcome) (w : waiter) : M State unit :=
  match w with
  | AwaitInStop => spawn (stop_resume o)
  | ThenSend media =>
      match o with
      | Fulfilled session => perform (SendRealtimeInput session media)
      | Rejected reason => perform (UnhandledRejection reason)
      end
  end.

Fixpoint run_waiters (o : outcome) (ws : list waiter) : M State unit :=
  match ws with
  | [] => ret tt
  | w :: rest => run_waiter o w ;; run_waiters o rest
  end.

Definition settle (p : handle) (o : outcome) : M State unit :=
  known <- gets (fun s => settled (world s) !! p) ;;
  match known with
  | Some _ => ret tt                     (* a promise settles once *)
  | None =>
      ws <- gets (fun s => waiters (world s)) ;;
      modify (fun s => set_world
                (set_waiters (List.filter (fun pw => negb (Nat.eqb (fst pw) p)) ws)
                   (set_settled (<[p := o]> (settled (world s))) (world s))) s) ;;
      run_waiters o (map snd (List.filter (fun pw => Nat.eqb (fst pw) p) ws))
  end.

Inductive event : Type :=
  | Toggle (genai : option exn)          (* click on the microphone button *)
  | MediaAnswer (env : StartEnv)         (* getUserMedia settles *)
  | Settle (p : handle) (o : outcome)    (* the connect promise settles *)
  | Open
  | AudioProcess (frame : list Q)
  | Message (env : MessageEnv) (message : LiveServerMessage)
  | Ended (sourceNode : handle)
  | SessionError
  | Close
  | Unmount.

(** One task of the event loop; a handler that throws leaves an unhandled
    rejection (or an uncaught error) and the loop goes on. *)
Definition handle_event (e : event) : M State unit :=
  spawn
    match e with
    | Toggle genai => handleToggleRecording genai ;; ret tt
    | MediaAnswer env => start_resume env
    | Settle p o => settle p o
    | Open => onopen
    | AudioProcess frame => onaudioprocess frame
    | Message env message => onmessage env message
    | Ended sourceNode => onended sourceNode
    | SessionError => onerror
    | Close => onclose
    | Unmount => stopConversation
    end.

Definition step (s : State) (e : event) : State := exec (handle_event e) s.

Definition run (events : list event) (s : State) : State := fold_left step events s.

End TutorPanel.

Module TutorPanelFacts.
Import JS JS.Notations Double DoubleFacts Audio AudioFacts TutorPanel.

(** *** The inbound-message handler, in two halves *)

(** Lines up to the reset of the fragment buffers. *)
Definition onmessage_transcripts (env : MessageEnv) (message : LiveServerMessage)
  : M State unit :=
  match serverContent message with
  | Some {| outputTranscription := Some t |} =>
      modify (fun s => set_transcriptRefs
                {| currentInput := currentInput (transcriptRefs s);
                   currentOutput := (currentOutput (transcriptRefs s)
                                     ++ text_or_undefined t)%string |} s)
  | _ => ret tt
  end ;;
  match serverContent message with
  | Some {| inputTranscription := Some t |} =>
      modify (fun s => set_transcriptRefs
                {| currentInput := (currentInput (transcriptRefs s)
                                    ++ text_or_undefined t)%string;
                   currentOutput := currentOutput (transcriptRefs s) |} s)
  | _ => ret tt
  end ;;
  match serverContent message with
  | Some {| turnComplete := true |} =>
      fullInput <- gets (fun s => currentInput (transcriptRefs s)) ;;
      fullOutput <- gets (fun s => currentOutput (transcriptRefs s)) ;;
      modify (fun s => set_transcripts
                (transcripts s ++ turn_entries (Date_now env) fullInput fullOutput) s) ;;
      modify (set_transcriptRefs empty_transcriptRefs)
  | _ => ret tt
  end.

(** The audio lines. *)
Definition onmessage_audio (env : MessageEnv) (message : LiveServerMessage)
  : M State unit :=
  audioData <- lift (audioData_of message) ;;
  match audioData with
  | Some payload =>
      if truthy payload then
        modify (fun s => set_closure
                  (set_nextStartTime
                     (Math_max (nextStartTime (closure s)) (currentTime env))
                     (closure s)) s) ;;
        bytes <- lift (decode payload) ;;
        audioBuffer <- lift (decodeAudioData bytes 24000 1) ;;
        sourceNode <- alloc ;;
        when <- gets (fun s => nextStartTime (closure s)) ;;
        perform (SourceStart sourceNode when audioBuffer) ;;
        modify (fun s => set_closure
                  (set_nextStartTime
                     (to_double (nextStartTime (closure s) + duration audioBuffer)%Q)
                     (closure s)) s) ;;
        modify (fun s => set_closure
                  (set_sources ({[sourceNode]} ∪ sources (closure s)) (closure s)) s)
      else ret tt
  | None => ret tt
  end.

(** The fragment a message adds to a buffer. *)
Definition fragment (t : option Transcription) : string :=
  match t with
  | Some t => text_or_undefined t
  | None => ""
  end.

Definition fragment_in (message : LiveServerMessage) : string :=
  match serverContent message with
  | Some sc => fragment (inputTranscription sc)
  | None => ""
  end.

Definition fragment_out (message : LiveServerMessage) : string :=
  match serverContent message with
  | Some sc => fragment (outputTranscription sc)
  | None => ""
  end.

Definition turn_complete (message : LiveServerMessage) : bool :=
  match serverContent message with
  | Some sc => turnComplete sc
  | None => false
  end.

Lemma append_empty_r (s : string) : (s ++ "")%string = s.
Proof.
  induction s as [|c s IH]; [reflexivity|].
  change (String c (s ++ "")%string = String c s). now rewrite IH.
Qed.

(** The first half never throws and touches only the transcript state. *)
Lemma onmessage_transcripts_spec env message s :
  let fullInput := (currentInput (transcriptRefs s) ++ fragment_in message)%string in
  let fullOutput := (currentOutput (transcriptRefs s) ++ fragment_out message)%string in
  onmessage_transcripts env message s =
  (Normal tt,
   if turn_complete message
   then set_transcriptRefs empty_transcriptRefs
          (set_transcripts
             (transcripts s ++ turn_entries (Date_now env) fullInput fullOutput) s)
   else set_transcriptRefs
          {| currentInput := fullInput; currentOutput := fullOutput |} s).
Proof.
  destruct s as [rec err ts sp ms refs [ci co] cl w].
  destruct message as [[[[ot|] [it|] [|] mt]|]];
    cbn; rewrite ?append_empty_r; reflexivity.
Qed.

Lemma onmessage_split env message s :
  onmessage env message s =
  (onmessage_transcripts env message ;; onmessage_audio env message) s.
Proof.
  unfold onmessage, onmessage_transcripts, onmessage_audio, bind.
  destruct message as [[[[ot|] [it|] [|] mt]|]]; reflexivity.
Qed.

(** *** The playback clock *)

(** The chunks handed to [sourceNode.start], oldest first. *)
Definition scheduled (s : State) : list (Q * AudioBuffer) :=
  flat_map (fun e => match e with
                     | SourceStart _ when buffer => [(when, buffer)]
                     | _ => []
                     end) (effects (world s)).

Definition clock (s : State) : Q := nextStartTime (closure s).

Lemma Math_max_lub (a b : Q) : (a <= Math_max a b)%Q /\ (b <= Math_max a b)%Q.
Proof.
  unfold Math_max. destruct (Qle_bool a b) eqn:E.
  - apply Qle_bool_iff in E. split; [exact E | apply Qle_refl].
  - split; [apply Qle_refl|].
    destruct (Qlt_le_dec a b) as [H|H]; [|exact H].
    apply Qlt_le_weak, Qle_bool_iff in H. congruence.
Qed.

(** With the context not past the clock, the maximum is the clock. *)
Lemma Math_max_clock (c now : Q) : (now <= c)%Q -> (Math_max c now == c)%Q.
Proof.
  intros H. unfold Math_max. destruct (Qle_bool c now) eqn:E; [|reflexivity].
  apply Qle_bool_iff in E. now apply Qle_antisym.
Qed.

Lemma Math_max_double (a b : Q) :
  is_double a -> is_double b -> is_double (Math_max a b).
Proof. unfold Math_max. now destruct (Qle_bool a b). Qed.

Lemma duration_nonneg (bytes : list Z) (buffer : AudioBuffer) :
  decodeAudioData bytes 24000 1 = Normal buffer -> (0 <= duration buffer)%Q.
Proof.
  rewrite decodeAudioData_mono.
  destruct (Nat.even (length bytes)); [|discriminate].
  destruct (Int16Array_length bytes =? 0)%nat; [discriminate|].
  intros [= <-]. unfold duration. apply to_double_nonneg.
  unfold Qle. cbn. lia.
Qed.

(** What the audio lines do to the clock and to the schedule. *)
Inductive audio_step (now : Q) (s s' : State) : Prop :=
  | audio_none :
      scheduled s' = scheduled s ->
      clock s' = clock s ->
      audio_step now s s'
  | audio_failed :
      scheduled s' = scheduled s ->
      clock s' = Math_max (clock s) now ->
      audio_step now s s'
  | audio_scheduled (buffer : AudioBuffer) :
      scheduled s' = scheduled s ++ [(Math_max (clock s) now, buffer)] ->
      clock s' = to_double (Math_max (clock s) now + duration buffer)%Q ->
      (0 <= duration buffer)%Q ->
      audio_step now s s'.

Lemma scheduled_perform_other (s : State) (e : effect) :
  (forall n w b, e <> SourceStart n w b) ->
  scheduled (exec (perform e) s) = scheduled s.
Proof.
  intros He. unfold scheduled, exec, perform, modify. cbn.
  rewrite flat_map_app. cbn. destruct e; try (now rewrite app_nil_r).
  now destruct (He node when buffer).
Qed.

Lemma onmessage_audio_step env message s :
  audio_step (currentTime env) s (exec (onmessage_audio env message) s) /\
  transcripts (exec (onmessage_audio env message) s) = transcripts s /\
  transcriptRefs (exec (onmessage_audio env message) s) = transcriptRefs s.
Proof.
  unfold exec, onmessage_audio, bind, lift.
  destruct (audioData_of message) as [[payload|]|e]; cbn;
    [|split; [now apply audio_none | now split] ..].
  destruct (truthy payload); cbn; [|split; [now apply audio_none | now split]].
  destruct (decode payload) as [bytes|e]; cbn;
    [|split; [now apply audio_failed | now split]].
  destruct (decodeAudioData bytes 24000 1) as [buffer|e] eqn:Hd; cbn;
    [|split; [now apply audio_failed | now split]].
  split; [|now split].
  apply (audio_scheduled _ _ _ buffer).
  - unfold scheduled. cbn. rewrite flat_map_app. reflexivity.
  - reflexivity.
  - exact (duration_nonneg _ _ Hd).
Qed.

Lemma onmessage_transcripts_frame env message s :
  scheduled (exec (onmessage_transcripts env message) s) = scheduled s /\
  clock (exec (onmessage_transcripts env message) s) = clock s.
Proof.
  unfold exec. rewrite onmessage_transcripts_spec.
  destruct (turn_complete message); split; reflexivity.
Qed.

Lemma exec_bind {S A B} (m : M S A) (k : A -> M S B) (s : S) :
  exec (bind m k) s =
  match result m s with
  | Normal a => exec (k a) (exec m s)
  | Throw _ => exec m s
  end.
Proof. unfold exec, result, bind. destruct (m s) as [[a|e] s']; reflexivity. Qed.

Lemma exec_onmessage env message s :
  exec (onmessage env message) s =
  exec (onmessage_audio env message) (exec (onmessage_transcripts env message) s).
Proof.
  unfold exec at 1. rewrite onmessage_split. fold (exec
    (onmessage_transcripts env message;; onmessage_audio env message) s).
  rewrite exec_bind. unfold result. now rewrite onmessage_transcripts_spec.
Qed.

(** The task wrapper adds at most an unhandled rejection. *)
Lemma spawn_frame (task : M State unit) (s : State) :
  scheduled (exec (spawn task) s) = scheduled (exec task s) /\
  clock (exec (spawn task) s) = clock (exec task s) /\
  transcripts (exec (spawn task) s) = transcripts (exec task s) /\
  transcriptRefs (exec (spawn task) s) = transcriptRefs (exec task s).
Proof.
  unfold exec, spawn, try_catch. destruct (task s) as [[[]|e] s']; cbn; [easy|].
  repeat split. unfold scheduled. cbn. rewrite flat_map_app. cbn. apply app_nil_r.
Qed.

Definition messages (ms : list (MessageEnv * LiveServerMessage)) : list event :=
  map (fun em => Message (fst em) (snd em)) ms.

Lemma run_snoc (events : list event) (e : event) (s : State) :
  run (events ++ [e]) s = step (run events s) e.
Proof. unfold run. now rewrite fold_left_app. Qed.

(** **** The schedule the messages call for

    Stated on the messages themselves, not through the handler. *)

(** The audio a message carries: the data of the first part of its model
    turn, when that is not the empty string. *)
Inductive carries (message : LiveServerMessage) (payload : string) : Prop :=
  | carries_first_part (sc : ServerContent) (turn : Content)
                       (part : Part) (rest : list Part) (d : InlineData) :
      serverContent message = Some sc ->
      modelTurn sc = Some turn ->
      parts turn = part :: rest ->
      inlineData part = Some d ->
      inline_data d = Some payload ->
      payload <> ""%string ->
      carries message payload.

(** The chunk a payload holds: base64 of 16-bit samples, 24 kHz, mono. *)
Definition chunk_of (payload : string) : completion AudioBuffer :=
  match decode payload with
  | Normal bytes => decodeAudioData bytes 24000 1
  | Throw e => Throw e
  end.

(** [playback c ms chunks c']: from the clock [c] the messages [ms] call for
    the chunks [chunks], each with its start time, and leave the clock at
    [c']. A chunk starts at the later of the clock and the time of the output
    context, and the clock moves to the double nearest to that start plus the
    chunk's duration. A payload that does not decode only raises the clock
    to the time of the context; a message without audio leaves it. *)
Inductive playback
  : Q -> list (MessageEnv * LiveServerMessage) -> list (Q * AudioBuffer) -> Q -> Prop :=
  | playback_done (c : Q) : playback c [] [] c
  | playback_chunk c env message payload buffer ms chunks c' :
      carries message payload ->
      chunk_of payload = Normal buffer ->
      playback (to_double (Math_max c (currentTime env) + duration buffer)%Q)
               ms chunks c' ->
      playback c ((env, message) :: ms)
               ((Math_max c (currentTime env), buffer) :: chunks) c'
  | playback_undecodable c env message payload e ms chunks c' :
      carries message payload ->
      chunk_of payload = Throw e ->
      playback (Math_max c (currentTime env)) ms chunks c' ->
      playback c ((env, message) :: ms) chunks c'
  | playback_silent c env message ms chunks c' :
      (forall payload, ~ carries message payload) ->
      playback c ms chunks c' ->
      playback c ((env, message) :: ms) chunks c'.

(** Chunks that follow the clock: each starts at or after the clock its
    predecessor left, the double nearest to its end, and the last one leaves
    the clock at or before [hi]. *)
Fixpoint rounded_chain (lo : Q) (chunks : list (Q * AudioBuffer)) (hi : Q) : Prop :=
  match chunks with
  | [] => (lo <= hi)%Q
  | (when, buffer) :: rest =>
      (lo <= when)%Q /\ rounded_chain (to_double (when + duration buffer)%Q) rest hi
  end.

(** Chunks that overlap by no more than one rounding: each starts no
    earlier than the end of the one before, less the error of rounding that
    end. *)
Fixpoint spaced (chunks : list (Q * AudioBuffer)) : Prop :=
  match chunks with
  | [] => True
  | (when, buffer) :: rest =>
      match rest with
      | [] => True
      | (next, _) :: _ =>
          (when + duration buffer - rounding (when + duration buffer) <= next)%Q
      end /\ spaced rest
  end.

(** Chunks laid end to end in exact seconds: every chunk starts at or after
    the end of the one before and the last one ends by [hi]. *)
Fixpoint chain (lo : Q) (chunks : list (Q * AudioBuffer)) (hi : Q) : Prop :=
  match chunks with
  | [] => (lo <= hi)%Q
  | (when, buffer) :: rest =>
      (lo <= when)%Q /\ chain (when + duration buffer)%Q rest hi
  end.

(** A message carries one payload at most, and calls for one schedule. *)
Lemma carries_functional (message : LiveServerMessage) (p p' : string) :
  carries message p -> carries message p' -> p = p'.
Proof.
  intros [sc turn part rest d H1 H2 H3 H4 H5 _]
         [sc' turn' part' rest' d' H1' H2' H3' H4' H5' _].
  congruence.
Qed.

Lemma playback_functional c ms chunks1 c1 chunks2 c2 :
  playback c ms chunks1 c1 -> playback c ms chunks2 c2 ->
  chunks1 = chunks2 /\ c1 = c2.
Proof.
  intros H. revert chunks2 c2.
  induction H as [c|c env message payload buffer ms chunks c' Hc Hb _ IH
                  |c env message payload e ms chunks c' Hc Hb _ IH
                  |c env message ms chunks c' Hc _ IH];
    intros chunks2 c2 H2; inversion H2; subst; clear H2.
  all: match goal with
       | Hn : forall p, ~ carries _ p, Hq : carries _ ?q |- _ =>
           now destruct (Hn q Hq)
       | Hc1 : carries ?m ?p, Hc2 : carries ?m ?q |- _ =>
           pose proof (carries_functional _ _ _ Hc1 Hc2); subst;
           match goal with
           | Ha : chunk_of ?x = Normal ?b1, Hb' : chunk_of ?x = Normal ?b2 |- _ =>
               assert (b1 = b2) by congruence; subst;
               match goal with
               | Hp : playback _ _ _ _ |- _ =>
                   destruct (IH _ _ Hp) as [-> ->]; now split
               end
           | Ha : chunk_of ?x = Normal _, Hb' : chunk_of ?x = Throw _ |- _ =>
               congruence
           | Hp : playback _ _ _ _ |- _ => exact (IH _ _ Hp)
           end
       | Hp : playback _ _ _ _ |- _ => exact (IH _ _ Hp)
       | _ => now split
       end.
Qed.

(** The handler reads the payload the message carries. *)
Lemma audioData_carries (message : LiveServerMessage) :
  match audioData_of message with
  | Normal (Some payload) =>
      if truthy payload then carries message payload
      else forall p, ~ carries message p
  | _ => forall p, ~ carries message p
  end.
Proof.
  assert (Hno : forall p, audioData_of message <> Normal (Some p) ->
                          ~ carries message p).
  { intros p Hne [sc turn part rest d H1 H2 H3 H4 H5 H6]. apply Hne.
    unfold audioData_of. now rewrite H1, H2, H3, H4, H5. }
  destruct (audioData_of message) as [[payload|]|e] eqn:Ha;
    try (intros p; apply Hno; congruence).
  destruct (truthy payload) eqn:Ht.
  - unfold audioData_of in Ha.
    destruct (serverContent message) as [sc|] eqn:H1; [|discriminate].
    destruct (modelTurn sc) as [turn|] eqn:H2; [|discriminate].
    destruct (parts turn) as [|part rest] eqn:H3; [discriminate|].
    destruct (inlineData part) as [d|] eqn:H4; [|discriminate].
    injection Ha as Ha.
    apply (carries_first_part _ _ sc turn part rest d H1 H2 H3 H4 Ha).
    intros ->. discriminate.
  - intros p. destruct (string_dec p payload) as [->|Hne].
    + intros [sc turn part rest d H1 H2 H3 H4 H5 H6].
      destruct payload; [now apply H6 | discriminate].
    + apply Hno. congruence.
Qed.

(** What the audio lines do, told by the message. *)
Inductive audio_outcome (env : MessageEnv) (message : LiveServerMessage)
          (s s' : State) : Prop :=
  | outcome_chunk payload buffer :
      carries message payload ->
      chunk_of payload = Normal buffer ->
      scheduled s' = scheduled s ++ [(Math_max (clock s) (currentTime env), buffer)] ->
      clock s' = to_double (Math_max (clock s) (currentTime env) + duration buffer)%Q ->
      audio_outcome env message s s'
  | outcome_undecodable payload e :
      carries message payload ->
      chunk_of payload = Throw e ->
      scheduled s' = scheduled s ->
      clock s' = Math_max (clock s) (currentTime env) ->
      audio_outcome env message s s'
  | outcome_silent :
      (forall payload, ~ carries message payload) ->
      scheduled s' = scheduled s ->
      clock s' = clock s ->
      audio_outcome env message s s'.

Lemma onmessage_audio_outcome env message s :
  audio_outcome env message s (exec (onmessage_audio env message) s).
Proof.
  pose proof (audioData_carries message) as Hc.
  unfold exec, onmessage_audio, bind, lift.
  destruct (audioData_of message) as [[payload|]|e]; cbn;
    [|now apply outcome_silent ..].
  destruct (truthy payload); cbn; [|now apply outcome_silent].
  destruct (decode payload) as [bytes|e] eqn:Hb; cbn.
  - destruct (decodeAudioData bytes 24000 1) as [buffer|e] eqn:Hd; cbn.
    + apply (outcome_chunk _ _ _ _ payload buffer); [exact Hc | | | reflexivity].
      * unfold chunk_of. now rewrite Hb.
      * unfold scheduled. cbn. rewrite flat_map_app. reflexivity.
    + apply (outcome_undecodable _ _ _ _ payload e); [exact Hc | | reflexivity ..].
      unfold chunk_of. now rewrite Hb.
  - apply (outcome_undecodable _ _ _ _ payload e); [exact Hc | | reflexivity ..].
    unfold chunk_of. now rewrite Hb.
Qed.

Lemma message_outcome env message s :
  audio_outcome env message s (step s (Message env message)).
Proof.
  unfold step, handle_event.
  destruct (spawn_frame (onmessage env message) s) as (Hs & Hc & _).
  rewrite exec_onmessage in Hs, Hc.
  destruct (onmessage_transcripts_frame env message s) as [Hs0 Hc0].
  destruct (onmessage_audio_outcome env message
              (exec (onmessage_transcripts env message) s))
    as [payload buffer H1 H2 H3 H4|payload e H1 H2 H3 H4|H1 H3 H4];
    rewrite Hs0 in H3; rewrite Hc0 in H4.
  - apply (outcome_chunk _ _ _ _ payload buffer); first [assumption | congruence].
  - apply (outcome_undecodable _ _ _ _ payload e); first [assumption | congruence].
  - apply outcome_silent; first [assumption | congruence].
Qed.

(** Over any run of inbound messages the handler schedules what the
    messages call for. *)
Lemma messages_playback (ms : list (MessageEnv * LiveServerMessage)) (s : State) :
  exists added,
    scheduled (run (messages ms) s) = scheduled s ++ added /\
    playback (clock s) ms added (clock (run (messages ms) s)).
Proof.
  revert s. induction ms as [|[env message] ms IH]; intros s.
  - exists []. split; [now rewrite app_nil_r | constructor].
  - change (run (messages ((env, message) :: ms)) s)
      with (run (messages ms) (step s (Message env message))).
    destruct (IH (step s (Message env message))) as (added & Hs & Hp).
    destruct (message_outcome env message s)
      as [payload buffer H1 H2 H3 H4|payload e H1 H2 H3 H4|H1 H3 H4];
      rewrite H3 in Hs; rewrite H4 in Hp.
    + exists ((Math_max (clock s) (currentTime env), buffer) :: added).
      split; [now rewrite Hs, <- app_assoc|].
      now apply (playback_chunk _ _ _ payload).
    + exists added. split; [exact Hs|].
      now apply (playback_undecodable _ _ _ payload e).
    + exists added. split; [exact Hs|]. now apply playback_silent.
Qed.

Lemma chunk_of_nonneg (payload : string) (buffer : AudioBuffer) :
  chunk_of payload = Normal buffer -> (0 <= duration buffer)%Q.
Proof.
  unfold chunk_of. destruct (decode payload) as [bytes|e]; [|discriminate].
  apply duration_nonneg.
Qed.

Lemma rounded_chain_lower lo lo' chunks hi :
  rounded_chain lo' chunks hi -> (lo <= lo')%Q -> rounded_chain lo chunks hi.
Proof.
  destruct chunks as [|[when buffer] rest]; cbn.
  - intros H Hle. eapply Qle_trans; eassumption.
  - intros [H1 H2] Hle. split; [eapply Qle_trans; eassumption | exact H2].
Qed.

Lemma rounded_chain_snoc lo chunks mid when buffer :
  rounded_chain lo chunks mid -> (mid <= when)%Q ->
  rounded_chain lo (chunks ++ [(when, buffer)]) (to_double (when + duration buffer)%Q).
Proof.
  revert lo. induction chunks as [|[w b] rest IH]; intros lo H Hle; cbn in *.
  - split; [eapply Qle_trans; eassumption | apply Qle_refl].
  - destruct H as [H1 H2]. split; [exact H1 | now apply IH].
Qed.

Lemma rounded_chain_weaken lo chunks mid hi :
  rounded_chain lo chunks mid -> (mid <= hi)%Q -> rounded_chain lo chunks hi.
Proof.
  revert lo. induction chunks as [|[w b] rest IH]; intros lo H Hle; cbn in *.
  - eapply Qle_trans; eassumption.
  - destruct H as [H1 H2]. split; [exact H1 | now apply IH].
Qed.

(** A chunk that follows the clock overlaps its predecessor by no more than
    the rounding of the predecessor's end. *)
Lemma rounded_chain_spaced lo chunks hi :
  rounded_chain lo chunks hi -> spaced chunks.
Proof.
  revert lo. induction chunks as [|[w b] rest IH]; intros lo H; [exact I|].
  destruct H as [_ H]. split; [|exact (IH _ H)].
  destruct rest as [|[next b'] rest]; [exact I|].
  destruct H as [H _].
  eapply Qle_trans; [apply rounding_below | exact H].
Qed.

(** A clock that is a double stays one, and moving it by a duration never
    takes it back. *)
Lemma advance_double (start d : Q) :
  is_double start -> (0 <= d)%Q ->
  (start <= to_double (start + d))%Q /\ is_double (to_double (start + d)).
Proof.
  intros Hs Hd. split; [|apply to_double_idem].
  apply double_below; [exact Hs | lra].
Qed.

Lemma playback_follows c ms chunks c' :
  playback c ms chunks c' ->
  is_double c ->
  Forall (fun em => is_double (currentTime (fst em))) ms ->
  rounded_chain c chunks c' /\ (c <= c')%Q /\ is_double c'.
Proof.
  induction 1 as [c|c env message payload buffer ms chunks c' Hc Hb _ IH
                  |c env message payload e ms chunks c' Hc Hb _ IH
                  |c env message ms chunks c' Hc _ IH];
    intros Hd Hms.
  - repeat split; [apply Qle_refl | apply Qle_refl | exact Hd].
  - inversion Hms as [|? ? Hnow Hrest]; subst. cbn in Hnow.
    pose proof (Math_max_double _ _ Hd Hnow) as Hm.
    pose proof (Math_max_lub c (currentTime env)) as [Hle _].
    destruct (advance_double _ _ Hm (chunk_of_nonneg _ _ Hb)) as [Hadv Hadv'].
    destruct (IH Hadv' Hrest) as (H1 & H2 & H3).
    split; [split; [exact Hle | exact H1]|].
    split; [|exact H3].
    eapply Qle_trans; [exact Hle|]. eapply Qle_trans; [exact Hadv | exact H2].
  - inversion Hms as [|? ? Hnow Hrest]; subst. cbn in Hnow.
    pose proof (Math_max_double _ _ Hd Hnow) as Hm.
    pose proof (Math_max_lub c (currentTime env)) as [Hle _].
    destruct (IH Hm Hrest) as (H1 & H2 & H3).
    split; [exact (rounded_chain_lower _ _ _ _ H1 Hle)|].
    split; [eapply Qle_trans; eassumption | exact H3].
  - inversion Hms as [|? ? Hnow Hrest]; subst.
    exact (IH Hd Hrest).
Qed.

(** *** Invocations that interleave at the [await]

    Should two invocations of the handler overlap at [await
    decodeAudioData(..)], what each does to the clock is still made of two
    kinds of segment: the line before the [await], and the lines after it. *)
Inductive segment : Type :=
  | Bump (now : Q)                     (* nextStartTime = Math.max(nextStartTime, now) *)
  | Start (buffer : AudioBuffer).      (* start(nextStartTime); nextStartTime += duration *)

Definition run_segment (s : State) (g : segment) : State :=
  match g with
  | Bump now =>
      set_closure (set_nextStartTime (Math_max (clock s) now) (closure s)) s
  | Start buffer =>
      exec (sourceNode <- alloc ;;
            when <- gets (fun s => nextStartTime (closure s)) ;;
            perform (SourceStart sourceNode when buffer) ;;
            modify (fun s => set_closure
                      (set_nextStartTime
                         (to_double (nextStartTime (closure s) + duration buffer)%Q)
                         (closure s)) s) ;;
            modify (fun s => set_closure
                      (set_sources ({[sourceNode]} ∪ sources (closure s)) (closure s)) s))
           s
  end.

(** The segments of the audio lines of one invocation. *)
Definition audio_segments (env : MessageEnv) (message : LiveServerMessage)
  : list segment :=
  match audioData_of message with
  | Normal (Some payload) =>
      if truthy payload then
        Bump (currentTime env)
        :: match decode payload with
           | Normal bytes =>
               match decodeAudioData bytes 24000 1 with
               | Normal buffer => [Start buffer]
               | Throw _ => []
               end
           | Throw _ => []
           end
      else []
  | _ => []
  end.

Lemma onmessage_audio_segments env message s :
  exec (onmessage_audio env message) s
  = fold_left run_segment (audio_segments env message) s.
Proof.
  unfold exec, onmessage_audio, audio_segments, bind, lift.
  destruct (audioData_of message) as [[payload|]|e]; cbn; try reflexivity.
  destruct (truthy payload); cbn; [|reflexivity].
  destruct (decode payload) as [bytes|e]; cbn; [|reflexivity].
  destruct (decodeAudioData bytes 24000 1) as [buffer|e]; reflexivity.
Qed.

(** A segment of numbers the platform can give: a time that is a double, a
    buffer whose duration is not negative. *)
Definition segment_ok (g : segment) : Prop :=
  match g with
  | Bump now => is_double now
  | Start buffer => (0 <= duration buffer)%Q
  end.

(** X12. In whatever order segments run, every chunk starts at or after the
    clock its predecessor left (the double nearest to its end), so it overlaps
    it by no more than that rounding, and the clock never decreases. *)
Lemma segments_chain (gs : list segment) (s : State) :
  is_double (clock s) ->
  Forall segment_ok gs ->
  exists added,
    scheduled (fold_left run_segment gs s) = scheduled s ++ added /\
    rounded_chain (clock s) added (clock (fold_left run_segment gs s)) /\
    spaced added /\
    (clock s <= clock (fold_left run_segment gs s))%Q /\
    is_double (clock (fold_left run_segment gs s)).
Proof.
  intros Hd. induction gs as [|g gs IH] using rev_ind; intros Hok.
  - exists []. cbn. rewrite app_nil_r.
    repeat split; [apply Qle_refl | apply Qle_refl | exact Hd].
  - apply Forall_app in Hok. destruct Hok as [Hok Hg].
    inversion Hg as [|? ? Hg1 _]; subst. clear Hg.
    destruct (IH Hok) as (added & Hs & Hc & _ & Hle & Hd1). clear IH.
    rewrite fold_left_app. cbn [fold_left].
    set (s1 := fold_left run_segment gs s) in *.
    destruct g as [now|buffer].
    + exists added. cbn [run_segment].
      pose proof (Math_max_lub (clock s1) now) as [Hm _].
      assert (Hclk : clock (set_closure
                        (set_nextStartTime (Math_max (clock s1) now) (closure s1)) s1)
                     = Math_max (clock s1) now) by reflexivity.
      rewrite Hclk. repeat split.
      * exact Hs.
      * eapply rounded_chain_weaken; [exact Hc | exact Hm].
      * exact (rounded_chain_spaced _ _ _ Hc).
      * eapply Qle_trans; [exact Hle | exact Hm].
      * now apply Math_max_double.
    + exists (added ++ [(clock s1, buffer)]). cbn in Hg1.
      assert (Hsch : scheduled (run_segment s1 (Start buffer))
                     = scheduled s1 ++ [(clock s1, buffer)]).
      { unfold scheduled. cbn. rewrite flat_map_app. reflexivity. }
      assert (Hclk : clock (run_segment s1 (Start buffer))
                     = to_double (clock s1 + duration buffer)%Q) by reflexivity.
      destruct (advance_double _ _ Hd1 Hg1) as [Hadv Hadv'].
      assert (Hrc : rounded_chain (clock s) (added ++ [(clock s1, buffer)])
                      (to_double (clock s1 + duration buffer)%Q)).
      { eapply rounded_chain_snoc; [exact Hc | apply Qle_refl]. }
      rewrite Hsch, Hclk, Hs, app_assoc. repeat split.
      * exact Hrc.
      * exact (rounded_chain_spaced _ _ _ Hrc).
      * eapply Qle_trans; [exact Hle | exact Hadv].
      * exact Hadv'.
Qed.

(** **** Three chunks of silence: one frame, three frames, one frame *)

Definition silence (payload : string) : LiveServerMessage :=
  {| serverContent :=
       Some {| outputTranscription := None; inputTranscription := None;
               turnComplete := false;
               modelTurn :=
                 Some {| parts := [{| inlineData :=
                                        Some {| inline_data := Some payload |} |}] |} |} |}.

Definition at_zero : MessageEnv := {| Date_now := 0; currentTime := 0 |}.

(** Two zero bytes are one frame, six are three. *)
Definition three_chunks : list (MessageEnv * LiveServerMessage) :=
  [(at_zero, silence "AAA="); (at_zero, silence "AAAAAAAA"); (at_zero, silence "AAA=")].

Definition frames_of_silence (n : nat) : AudioBuffer :=
  {| sampleRate := 24000; frames := n;
     channels := [replicate n (inject_Z 0 / 32768)%Q] |}.

(** C1, the claim as worded. The clock is not advanced by exactly the
    duration of a chunk, and chunks can overlap: after a chunk of one frame
    and one of three frames, all at time 0 of the output context, the clock
    stands below the start of the second chunk plus its duration, the third
    chunk starts there, before the second one has ended, and the chunks are
    not laid end to end. *)
Lemma playback_clock_inexact :
  let s2 := run (messages (take 2 three_chunks)) initial_state in
  let s3 := run (messages three_chunks) initial_state in
  let start2 := to_double (0 + duration (frames_of_silence 1))%Q in
  let start3 := to_double (start2 + duration (frames_of_silence 3))%Q in
  scheduled s3 = [(0%Q, frames_of_silence 1); (start2, frames_of_silence 3);
                  (start3, frames_of_silence 1)] /\
  clock s2 = start3 /\
  ~ (clock s2 == start2 + duration (frames_of_silence 3))%Q /\
  (start3 < start2 + duration (frames_of_silence 3))%Q /\
  ~ exists added,
      scheduled s3 = scheduled initial_state ++ added /\
      chain (clock initial_state) added (clock s3).
Proof.
  assert (Hs : scheduled (run (messages three_chunks) initial_state)
               = [(0%Q, frames_of_silence 1);
                  (to_double (0 + duration (frames_of_silence 1))%Q,
                   frames_of_silence 3);
                  (to_double (to_double (0 + duration (frames_of_silence 1))
                              + duration (frames_of_silence 3))%Q,
                   frames_of_silence 1)])
    by (vm_compute; reflexivity).
  assert (Hlt : (to_double (to_double (0 + duration (frames_of_silence 1))
                            + duration (frames_of_silence 3))
                 < to_double (0 + duration (frames_of_silence 1))
                   + duration (frames_of_silence 3))%Q)
    by (vm_compute; reflexivity).
  split; [exact Hs|].
  split; [vm_compute; reflexivity|].
  split; [|split; [exact Hlt|]].
  - intros H. apply (Qlt_not_eq _ _ Hlt).
    rewrite <- H. vm_compute. reflexivity.
  - intros (added & Ha & Hc). rewrite Hs in Ha.
    change (scheduled initial_state ++ added) with added in Ha. subst added.
    destruct Hc as (_ & _ & Hc & _).
    exact (Qlt_not_le _ _ Hlt Hc).
Qed.

(** C1. Over every sequence of inbound messages, with the clock and the
    times of the output context doubles as the platform gives them: the
    handler schedules exactly the chunks the messages carry, each at
    [max(nextStartTime, currentTime)], and moves the clock to the double
    nearest to that start plus the chunk's duration; a payload that does not
    decode raises the clock to that maximum and schedules nothing; a message
    without audio changes neither. The clock [nextStartTime] never decreases;
    each chunk starts at or after the clock its predecessor left, at it
    whenever the output context has not run past it ([Math_max_clock]: no
    gap), and before the exact end of its predecessor by no more than the
    rounding of that end. *)
Theorem playback_clock_rounded
    (s : State) (ms : list (MessageEnv * LiveServerMessage)) :
  is_double (clock s) ->
  Forall (fun em => is_double (currentTime (fst em))) ms ->
  exists added,
    scheduled (run (messages ms) s) = scheduled s ++ added /\
    playback (clock s) ms added (clock (run (messages ms) s)) /\
    (clock s <= clock (run (messages ms) s))%Q /\
    rounded_chain (clock s) added (clock (run (messages ms) s)) /\
    spaced added.
Proof.
  intros Hd Hms.
  destruct (messages_playback ms s) as (added & Hs & Hp).
  destruct (playback_follows _ _ _ _ Hp Hd Hms) as (Hc & Hle & _).
  exists added. repeat split; try assumption.
  exact (rounded_chain_spaced _ _ _ Hc).
Qed.

Lemma playback_clock_rounded_witness :
  is_double (clock initial_state) /\
  Forall (fun em => is_double (currentTime (fst em))) three_chunks /\
  exists added,
    scheduled (run (messages three_chunks) initial_state)
    = scheduled initial_state ++ added /\
    playback (clock initial_state) three_chunks added
             (clock (run (messages three_chunks) initial_state)) /\
    (clock initial_state <= clock (run (messages three_chunks) initial_state))%Q /\
    rounded_chain (clock initial_state) added
                  (clock (run (messages three_chunks) initial_state)) /\
    spaced added.
Proof.
  assert (H0 : is_double (clock initial_state)) by reflexivity.
  assert (Hms : Forall (fun em => is_double (currentTime (fst em))) three_chunks).
  { repeat (constructor 2; [reflexivity|]). constructor 1. }
  split; [exact H0|]. split; [exact Hms|].
  exact (playback_clock_rounded initial_state three_chunks H0 Hms).
Defined.

Lemma truthy_eqb (x : string) : truthy x = negb (x =? "")%string.
Proof. destruct x; reflexivity. Qed.

(** C2. A message with the turn-complete signal appends, to the transcript
    log, one entry with speaker [user] when the input buffer (with this
    message's fragment) is not empty, then one entry with speaker [tutor] when
    the output buffer is not empty, and nothing for an empty buffer; when the
    handler returns both buffers are the empty string. *)
Theorem turn_complete_emits
    (env : MessageEnv) (ot it : option Transcription) (mt : option Content)
    (s : State) :
  let message :=
    {| serverContent :=
         Some {| outputTranscription := ot; inputTranscription := it;
                 turnComplete := true; modelTurn := mt |} |} in
  let s' := exec (onmessage env message) s in
  let fullInput := (currentInput (transcriptRefs s) ++ fragment it)%string in
  let fullOutput := (currentOutput (transcriptRefs s) ++ fragment ot)%string in
  exists added,
    transcripts s' = transcripts s ++ added /\
    map (fun t => (speaker t, text t, image t)) added =
      (if (fullInput =? "")%string then [] else [(user, fullInput, None)])
      ++ (if (fullOutput =? "")%string then [] else [(tutor, fullOutput, None)]) /\
    transcriptRefs s' = empty_transcriptRefs.
Proof.
  intros message s' fullInput fullOutput.
  exists (turn_entries (Date_now env) fullInput fullOutput).
  subst s'. rewrite exec_onmessage.
  destruct (onmessage_audio_step env message
              (exec (onmessage_transcripts env message) s)) as (_ & Ht & Hr).
  rewrite Ht, Hr. unfold exec. rewrite onmessage_transcripts_spec.
  cbn [turn_complete message serverContent turnComplete snd].
  repeat split.
  unfold turn_entries. rewrite !truthy_eqb, map_app.
  destruct (fullInput =? "")%string, (fullOutput =? "")%string; reflexivity.
Qed.

(** The scenario of the specification: start, three capture frames, then one
    message with output transcription "Hi" and the turn-complete signal. *)
Example scenario_hi :
  let ok := {| getUserMedia := None; newInputContext := None;
               newOutputContext := None |} in
  let hi := {| serverContent :=
                 Some {| outputTranscription :=
                           Some {| transcription_text := Some "Hi"%string |};
                         inputTranscription := None; turnComplete := true;
                         modelTurn := None |} |} in
  let s := run [Toggle None; MediaAnswer ok; Open; Settle 3%nat (Fulfilled 6%nat);
                AudioProcess [0%Q]; AudioProcess [1 # 2]; AudioProcess [-1 # 2];
                Message {| Date_now := 1000; currentTime := 0 |} hi]
               initial_state in
  transcripts s = [{| id := 1002; speaker := tutor; text := "Hi"; image := None |}] /\
  transcriptRefs s = empty_transcriptRefs /\
  effects (world s) =
    [SendRealtimeInput 6%nat {| data := "AAA="; mimeType := "audio/pcm;rate=16000" |};
     SendRealtimeInput 6%nat {| data := "AEA="; mimeType := "audio/pcm;rate=16000" |};
     SendRealtimeInput 6%nat {| data := "AMA="; mimeType := "audio/pcm;rate=16000" |}].
Proof. vm_compute. repeat split. Qed.

(** *** Teardown *)

(** Every lifecycle reference is null. *)
Definition released (s : State) : Prop :=
  sessionPromiseRef s = None /\ mediaStreamRef s = None /\
  audioContextRefs s = null_refs.

(** The [await] in [stopConversation] does not block: there is no session
    promise, or it has settled. *)
Definition promise_known (s : State) : Prop :=
  match sessionPromiseRef s with
  | Some p => is_Some (settled (world s) !! p)
  | None => True
  end.

(** An effect other than a rejection nobody handles. *)
Definition quiet (e : effect) : Prop :=
  match e with
  | UnhandledRejection _ => False
  | _ => True
  end.

(** The resources [s] holds have been let go in [s']. *)
Definition let_go (s s' : State) : Prop :=
  (forall ms, mediaStreamRef s = Some ms -> In (TrackStop ms) (effects (world s'))) /\
  (forall ctx, input (audioContextRefs s) = Some ctx -> context_closed ctx s' = true) /\
  (forall ctx, output (audioContextRefs s) = Some ctx -> context_closed ctx s' = true) /\
  (forall sp, scriptProcessor (audioContextRefs s) = Some sp ->
     In (Disconnect sp) (effects (world s')) /\
     In (DetachAudioProcess sp) (effects (world s'))) /\
  (forall src, source (audioContextRefs s) = Some src ->
     In (Disconnect src) (effects (world s'))).

(** From [s] to [s'] the effect log only grew, by quiet effects, and
    nothing changed besides the log, the lifecycle references and the
    recording flag. *)
Definition grows (s s' : State) : Prop :=
  (exists added, effects (world s') = effects (world s) ++ added /\
                 Forall quiet added) /\
  error s' = error s /\ transcripts s' = transcripts s /\
  transcriptRefs s' = transcriptRefs s /\ closure s' = closure s /\
  fresh (world s') = fresh (world s) /\ settled (world s') = settled (world s) /\
  broken (world s') = broken (world s) /\ waiters (world s') = waiters (world s).

Lemma grows_refl (s : State) : grows s s.
Proof.
  split; [|repeat split]. exists []. split; [now rewrite app_nil_r | constructor].
Qed.

Lemma grows_trans (s1 s2 s3 : State) : grows s1 s2 -> grows s2 s3 -> grows s1 s3.
Proof.
  intros [(a1 & E1 & Q1) R1] [(a2 & E2 & Q2) R2]. split.
  - exists (a1 ++ a2). rewrite E2, E1, app_assoc. split; [reflexivity|].
    apply Forall_app. now split.
  - repeat match goal with H : _ /\ _ |- _ => destruct H end.
    repeat split; congruence.
Qed.

Lemma grows_log (e : effect) (s : State) : quiet e -> grows s (log e s).
Proof.
  intros He. split; [|repeat split]. exists [e]. split; [reflexivity|].
  now repeat constructor.
Qed.

Lemma grows_In (e : effect) (s s' : State) :
  grows s s' -> In e (effects (world s)) -> In e (effects (world s')).
Proof. intros [(a & E & _) _] H. rewrite E. apply in_or_app. now left. Qed.

Lemma grows_closed (ctx : handle) (s s' : State) :
  grows s s' -> context_closed ctx s = true -> context_closed ctx s' = true.
Proof.
  intros [(a & E & _) _] H. unfold context_closed in *.
  now rewrite E, existsb_app, H.
Qed.

Lemma In_log (e : effect) (s : State) : In e (effects (world (log e s))).
Proof. cbn. apply in_or_app. right. now left. Qed.

Lemma closed_log (ctx : handle) (s : State) :
  context_closed ctx (log (ContextClose ctx) s) = true.
Proof.
  unfold context_closed. cbn. rewrite existsb_app. cbn.
  now rewrite Nat.eqb_refl, orb_true_r.
Qed.

(** [if (ctx && ctx.state !== 'closed') ctx.close()] *)
Definition close_if_open (r : option handle) (s : State) : State :=
  match r with
  | Some ctx => if context_closed ctx s then s else log (ContextClose ctx) s
  | None => s
  end.

Lemma close_if_open_grows (r : option handle) (s : State) :
  grows s (close_if_open r s).
Proof.
  unfold close_if_open. destruct r as [ctx|]; [|apply grows_refl].
  destruct (context_closed ctx s); [apply grows_refl | now apply grows_log].
Qed.

Lemma close_if_open_closed (ctx : handle) (s : State) :
  context_closed ctx (close_if_open (Some ctx) s) = true.
Proof.
  unfold close_if_open. destruct (context_closed ctx s) eqn:E;
    [exact E | apply closed_log].
Qed.

(** The state [stop_release] leaves. *)
Definition release (s : State) : State :=
  let s1 := match mediaStreamRef s with
            | Some ms => set_mediaStreamRef None (log (TrackStop ms) s)
            | None => s
            end in
  let refs := audioContextRefs s1 in
  let s2 := match scriptProcessor refs with
            | Some sp => log (DetachAudioProcess sp) (log (Disconnect sp) s1)
            | None => s1
            end in
  let s3 := match source refs with
            | Some src => log (Disconnect src) s2
            | None => s2
            end in
  set_audioContextRefs null_refs
    (close_if_open (output refs) (close_if_open (input refs) s3)).

Lemma stop_release_eq (s : State) : stop_release s = (Normal tt, release s).
Proof.
  unfold stop_release, release, close_if_open, AudioContext_close, perform,
    bind, gets, modify, ret.
  destruct (mediaStreamRef s) as [ms|];
    cbn [audioContextRefs set_mediaStreamRef log set_world];
    destruct (audioContextRefs s) as [[ci|] [co|] [sp|] [src|]];
    cbn [input output scriptProcessor source];
    repeat match goal with
           | |- context [context_closed ?c ?x] =>
               destruct (context_closed c x) eqn:?
           end;
    try reflexivity; congruence.
Qed.

Lemma grows_set_mediaStreamRef v s : grows s (set_mediaStreamRef v s).
Proof. split; [|repeat split]. exists []. split; [now rewrite app_nil_r | constructor]. Qed.

Lemma grows_set_audioContextRefs v s : grows s (set_audioContextRefs v s).
Proof. split; [|repeat split]. exists []. split; [now rewrite app_nil_r | constructor]. Qed.

Lemma grows_set_sessionPromiseRef v s : grows s (set_sessionPromiseRef v s).
Proof. split; [|repeat split]. exists []. split; [now rewrite app_nil_r | constructor]. Qed.

Lemma grows_set_isRecording v s : grows s (set_isRecording v s).
Proof. split; [|repeat split]. exists []. split; [now rewrite app_nil_r | constructor]. Qed.

(** The stages of [release], named. *)
Definition release1 (s : State) : State :=
  match mediaStreamRef s with
  | Some ms => set_mediaStreamRef None (log (TrackStop ms) s)
  | None => s
  end.

Definition release2 (refs : AudioRefs) (s1 : State) : State :=
  match scriptProcessor refs with
  | Some sp => log (DetachAudioProcess sp) (log (Disconnect sp) s1)
  | None => s1
  end.

Definition release3 (refs : AudioRefs) (s2 : State) : State :=
  match source refs with
  | Some src => log (Disconnect src) s2
  | None => s2
  end.

Lemma release_stages (s : State) :
  release s =
  let refs := audioContextRefs s in
  set_audioContextRefs null_refs
    (close_if_open (output refs)
       (close_if_open (input refs) (release3 refs (release2 refs (release1 s))))).
Proof.
  unfold release, release1, release2, release3.
  destruct (mediaStreamRef s); reflexivity.
Qed.

Lemma release1_grows s : grows s (release1 s).
Proof.
  unfold release1. destruct (mediaStreamRef s); [|apply grows_refl].
  eapply grows_trans; [|apply grows_set_mediaStreamRef]. now apply grows_log.
Qed.

Lemma release2_grows refs s : grows s (release2 refs s).
Proof.
  unfold release2. destruct (scriptProcessor refs); [|apply grows_refl].
  eapply grows_trans; [|now apply grows_log]. now apply grows_log.
Qed.

Lemma release3_grows refs s : grows s (release3 refs s).
Proof.
  unfold release3. destruct (source refs); [|apply grows_refl].
  now apply grows_log.
Qed.

Lemma release_grows (s : State) : grows s (release s).
Proof.
  rewrite release_stages. cbv zeta.
  eapply grows_trans; [apply release1_grows|].
  eapply grows_trans; [apply release2_grows|].
  eapply grows_trans; [apply release3_grows|].
  eapply grows_trans; [apply close_if_open_grows|].
  eapply grows_trans; [apply close_if_open_grows|].
  apply grows_set_audioContextRefs.
Qed.

Lemma close_if_open_refs r s :
  sessionPromiseRef (close_if_open r s) = sessionPromiseRef s /\
  mediaStreamRef (close_if_open r s) = mediaStreamRef s /\
  isRecording (close_if_open r s) = isRecording s.
Proof.
  unfold close_if_open. destruct r as [ctx|]; [|easy].
  destruct (context_closed ctx s); easy.
Qed.

Lemma release_refs (s : State) :
  mediaStreamRef (release s) = None /\
  audioContextRefs (release s) = null_refs /\
  sessionPromiseRef (release s) = sessionPromiseRef s /\
  isRecording (release s) = isRecording s.
Proof.
  rewrite release_stages. cbv zeta.
  set (refs := audioContextRefs s).
  set (s3 := release3 refs (release2 refs (release1 s))).
  assert (H3 : mediaStreamRef s3 = None /\ sessionPromiseRef s3 = sessionPromiseRef s
               /\ isRecording s3 = isRecording s).
  { subst s3. unfold release3, release2, release1.
    destruct (source refs), (scriptProcessor refs), (mediaStreamRef s) eqn:E;
      cbn; auto. }
  destruct H3 as (Ha & Hb & Hc).
  destruct (close_if_open_refs (input refs) s3) as (A1 & A2 & A3).
  destruct (close_if_open_refs (output refs) (close_if_open (input refs) s3))
    as (B1 & B2 & B3).
  cbn [mediaStreamRef audioContextRefs sessionPromiseRef isRecording
       set_audioContextRefs].
  repeat split; congruence.
Qed.

Lemma release_let_go (s : State) : let_go s (release s).
Proof.
  rewrite release_stages. cbv zeta.
  set (refs := audioContextRefs s).
  pose proof (release2_grows refs (release1 s)) as G2.
  pose proof (release3_grows refs (release2 refs (release1 s))) as G3.
  pose proof (close_if_open_grows (input refs)
                (release3 refs (release2 refs (release1 s)))) as G4.
  pose proof (close_if_open_grows (output refs)
                (close_if_open (input refs)
                   (release3 refs (release2 refs (release1 s))))) as G5.
  pose proof (grows_set_audioContextRefs null_refs
                (close_if_open (output refs)
                   (close_if_open (input refs)
                      (release3 refs (release2 refs (release1 s)))))) as G6.
  unfold let_go. repeat split.
  - intros ms Hms.
    apply (grows_In _ _ _ (grows_trans _ _ _ G2 (grows_trans _ _ _ G3
             (grows_trans _ _ _ G4 (grows_trans _ _ _ G5 G6))))).
    unfold release1. rewrite Hms. apply In_log.
  - intros ctx Hc. apply (grows_closed _ _ _ (grows_trans _ _ _ G5 G6)).
    fold refs in Hc. rewrite Hc. apply close_if_open_closed.
  - intros ctx Hc. apply (grows_closed _ _ _ G6).
    fold refs in Hc. rewrite Hc. apply close_if_open_closed.
  - apply (grows_In _ _ _ (grows_trans _ _ _ G3
             (grows_trans _ _ _ G4 (grows_trans _ _ _ G5 G6)))).
    unfold release2. fold refs in H. rewrite H.
    apply (grows_In _ (log (Disconnect sp) (release1 s)) _);
      [now apply grows_log | apply In_log].
  - apply (grows_In _ _ _ (grows_trans _ _ _ G3
             (grows_trans _ _ _ G4 (grows_trans _ _ _ G5 G6)))).
    unfold release2. fold refs in H. rewrite H. apply In_log.
  - intros src Hs.
    apply (grows_In _ _ _ (grows_trans _ _ _ G4 (grows_trans _ _ _ G5 G6))).
    unfold release3. fold refs in Hs. rewrite Hs. apply In_log.
Qed.

(** With nothing held, the release lines change nothing. *)
Lemma release_idle (s : State) :
  mediaStreamRef s = None -> audioContextRefs s = null_refs -> release s = s.
Proof.
  destruct s as [rec err ts sp ms refs tr cl w]. cbn. intros -> ->. reflexivity.
Qed.

(** The [try { session.close() } catch] lines, once the promise settled. *)
Definition closing (o : outcome) (s : State) : State :=
  match o with
  | Fulfilled session =>
      if bool_decide (session ∈ broken (world s))
      then log (ConsoleError "Error closing session:") s
      else log (SessionClose session) s
  | Rejected _ => log (ConsoleError "Error closing session:") s
  end.

Lemma closing_grows (o : outcome) (s : State) : grows s (closing o s).
Proof.
  unfold closing. destruct o as [session|e]; [|now apply grows_log].
  destruct (bool_decide _); now apply grows_log.
Qed.

Lemma closing_refs (o : outcome) (s : State) :
  sessionPromiseRef (closing o s) = sessionPromiseRef s /\
  mediaStreamRef (closing o s) = mediaStreamRef s /\
  audioContextRefs (closing o s) = audioContextRefs s /\
  isRecording (closing o s) = isRecording s.
Proof.
  unfold closing. destruct o as [session|e]; [|easy].
  destruct (bool_decide _); easy.
Qed.

Lemma stop_resume_eq (o : outcome) (s : State) :
  stop_resume o s = (Normal tt, release (set_sessionPromiseRef None (closing o s))).
Proof.
  unfold stop_resume, session_close, try_catch, perform, closing.
  unfold bind, gets, modify, throw.
  destruct o as [session|e].
  - destruct (bool_decide (session ∈ broken (world s))); apply stop_release_eq.
  - apply stop_release_eq.
Qed.

(** The state a call of [stopConversation] leaves when it ran through. *)
Definition stopped (o : option outcome) (s : State) : State :=
  match o with
  | Some o => release (set_sessionPromiseRef None (closing o (set_isRecording false s)))
  | None => release (set_isRecording false s)
  end.

(** The state it leaves when it is suspended on a pending promise. *)
Definition suspended (p : handle) (s : State) : State :=
  set_world (set_waiters (waiters (world s) ++ [(p, AwaitInStop)]) (world s))
    (set_isRecording false s).

Lemma stopConversation_eq (s : State) :
  stopConversation s =
  (Normal tt,
   match sessionPromiseRef s with
   | Some p =>
       match settled (world s) !! p with
       | Some o => stopped (Some o) s
       | None => suspended p s
       end
   | None => stopped None s
   end).
Proof.
  unfold stopConversation, bind, gets, modify. cbn [fst snd sessionPromiseRef
    set_isRecording world].
  destruct (sessionPromiseRef s) as [p|]; [|apply stop_release_eq].
  change (world (set_isRecording false s)) with (world s).
  destruct (settled (world s) !! p) as [o|]; [apply stop_resume_eq | reflexivity].
Qed.

(** The state in which the release lines of [stopped] start. *)
Definition before_release (o : option outcome) (s : State) : State :=
  match o with
  | Some o => set_sessionPromiseRef None (closing o (set_isRecording false s))
  | None => set_isRecording false s
  end.

Lemma stopped_release (o : option outcome) (s : State) :
  stopped o s = release (before_release o s).
Proof. destruct o; reflexivity. Qed.

Lemma before_release_refs (o : option outcome) (s : State) :
  mediaStreamRef (before_release o s) = mediaStreamRef s /\
  audioContextRefs (before_release o s) = audioContextRefs s /\
  isRecording (before_release o s) = false /\
  sessionPromiseRef (before_release o s) =
    match o with Some _ => None | None => sessionPromiseRef s end.
Proof.
  destruct o as [o|]; cbn; [|easy].
  destruct (closing_refs o (set_isRecording false s)) as (_ & H2 & H3 & H4).
  rewrite H2, H3, H4. easy.
Qed.

Lemma before_release_grows (o : option outcome) (s : State) :
  grows s (before_release o s).
Proof.
  destruct o as [o|]; cbn.
  - eapply grows_trans; [apply grows_set_isRecording|].
    eapply grows_trans; [apply closing_grows|]. apply grows_set_sessionPromiseRef.
  - apply grows_set_isRecording.
Qed.

Lemma stopped_refs (o : option outcome) (s : State) :
  mediaStreamRef (stopped o s) = None /\
  audioContextRefs (stopped o s) = null_refs /\
  isRecording (stopped o s) = false /\
  sessionPromiseRef (stopped o s) =
    match o with Some _ => None | None => sessionPromiseRef s end.
Proof.
  rewrite stopped_release.
  destruct (release_refs (before_release o s)) as (H1 & H2 & H3 & H4).
  destruct (before_release_refs o s) as (_ & _ & H5 & H6).
  rewrite H1, H2, H3, H4, H5, H6. easy.
Qed.

Lemma stopped_grows (o : option outcome) (s : State) : grows s (stopped o s).
Proof.
  rewrite stopped_release.
  eapply grows_trans; [apply before_release_grows | apply release_grows].
Qed.

Lemma stopped_let_go (o : option outcome) (s : State) : let_go s (stopped o s).
Proof.
  rewrite stopped_release.
  pose proof (release_let_go (before_release o s)) as H.
  destruct (before_release_refs o s) as (H1 & H2 & _).
  unfold let_go in *. now rewrite H1, H2 in H.
Qed.

(** With a settled (or no) session promise the call runs through. *)
Lemma stopConversation_known (s : State) :
  promise_known s ->
  exists o,
    stopConversation s = (Normal tt, stopped o s) /\
    match o with
    | Some o => exists p, sessionPromiseRef s = Some p /\
                          settled (world s) !! p = Some o
    | None => sessionPromiseRef s = None
    end.
Proof.
  unfold promise_known. intros H. rewrite stopConversation_eq.
  destruct (sessionPromiseRef s) as [p|].
  - destruct H as [o Ho]. rewrite Ho. exists (Some o). split; [reflexivity|].
    now exists p.
  - now exists None.
Qed.

(** A state with nothing held and the recording flag down is a fixed point. *)
Lemma stopConversation_idle (s : State) :
  released s -> isRecording s = false ->
  stopConversation s = (Normal tt, s).
Proof.
  intros (H1 & H2 & H3) H4. rewrite stopConversation_eq, H1. unfold stopped.
  rewrite release_idle by assumption.
  destruct s as [rec err ts sp ms refs tr cl w]. cbn in *. now subst.
Qed.

(** Where the [await] returns (the session promise is absent or settled), a
    call is idempotent: it throws nothing and leaves no unhandled rejection,
    leaves every lifecycle reference null and the recording flag down, has
    stopped the tracks of the held stream, disconnected the held nodes,
    closed the held contexts and closed the session (or logged the failure
    to); a second call right after throws nothing and changes nothing; and a
    call in a state that holds nothing changes nothing. *)
Lemma stopConversation_settled (s : State) :
  promise_known s ->
  let s1 := exec stopConversation s in
  result stopConversation s = Normal tt /\
  released s1 /\ isRecording s1 = false /\
  let_go s s1 /\ grows s s1 /\
  (forall p session,
     sessionPromiseRef s = Some p ->
     settled (world s) !! p = Some (Fulfilled session) ->
     In (SessionClose session) (effects (world s1)) \/
     (session ∈ broken (world s) /\
      In (ConsoleError "Error closing session:") (effects (world s1)))) /\
  result stopConversation s1 = Normal tt /\
  exec stopConversation s1 = s1 /\
  (released s -> isRecording s = false -> exec stopConversation s = s).
Proof.
  intros Hk s1. subst s1. unfold exec, result.
  destruct (stopConversation_known s Hk) as (o & Heq & Ho). rewrite Heq.
  cbn [fst snd].
  destruct (stopped_refs o s) as (R1 & R2 & R3 & R4).
  assert (Hrel : released (stopped o s)).
  { unfold released. rewrite R1, R2, R4. destruct o; auto. }
  split; [reflexivity|]. split; [exact Hrel|]. split; [exact R3|].
  split; [apply stopped_let_go|]. split; [apply stopped_grows|].
  rewrite (stopConversation_idle _ Hrel R3). cbn [fst snd].
  split; [|split; [reflexivity|split; [reflexivity|]]].
  - intros p session Hp Hs.
    destruct o as [o|]; [|congruence].
    destruct Ho as (p' & Hp' & Ho'). assert (p' = p) by congruence. subst p'.
    assert (o = Fulfilled session) by congruence. subst o.
    unfold stopped, closing.
    change (broken (world (set_isRecording false s))) with (broken (world s)).
    destruct (bool_decide (session ∈ broken (world s))) eqn:Eb.
    + right. split; [now apply bool_decide_eq_true in Eb|].
      eapply grows_In; [apply release_grows|].
      eapply grows_In; [apply grows_set_sessionPromiseRef|]. apply In_log.
    + left. eapply grows_In; [apply release_grows|].
      eapply grows_In; [apply grows_set_sessionPromiseRef|]. apply In_log.
  - intros Hr Hi. now rewrite (stopConversation_idle _ Hr Hi) in Heq;
      injection Heq as <-.
Qed.

Lemma stopConversation_settled_witness :
  let s0 := run [Toggle None;
                 MediaAnswer {| getUserMedia := None; newInputContext := None;
                                newOutputContext := None |};
                 Open; Settle 3%nat (Fulfilled 100%nat)] initial_state in
  promise_known s0 /\
  released (exec stopConversation s0) /\
  exec stopConversation (exec stopConversation s0) = exec stopConversation s0.
Proof.
  intros s0.
  assert (Hk : promise_known s0) by (vm_compute; eexists; reflexivity).
  split; [exact Hk|].
  pose proof (stopConversation_settled s0 Hk) as H. cbv zeta in H.
  split; [apply H | apply H].
Defined.

(** *** A call suspended on a pending promise *)

Lemma spawn_normal (task : M State unit) (s s' : State) :
  task s = (Normal tt, s') -> spawn task s = (Normal tt, s').
Proof. intros H. unfold spawn, try_catch. now rewrite H. Qed.

Lemma run_waiter_normal (o : outcome) (w : waiter) (s : State) :
  result (run_waiter o w) s = Normal tt.
Proof.
  unfold result. destruct w as [|media]; cbn [run_waiter].
  - now rewrite (spawn_normal _ _ _ (stop_resume_eq o s)).
  - destruct o; reflexivity.
Qed.

Lemma run_waiter_released (o : outcome) (w : waiter) (s : State) :
  (w = AwaitInStop \/ released s) -> released (exec (run_waiter o w) s).
Proof.
  unfold exec. destruct w as [|media]; cbn [run_waiter].
  - intros _. rewrite (spawn_normal _ _ _ (stop_resume_eq o s)). cbn [snd].
    destruct (release_refs (set_sessionPromiseRef None (closing o s)))
      as (H1 & H2 & H3 & _).
    unfold released. now rewrite H1, H2, H3.
  - intros [H|H]; [discriminate|]. destruct o; exact H.
Qed.

Lemma run_waiter_isRecording (o : outcome) (w : waiter) (s : State) :
  isRecording (exec (run_waiter o w) s) = isRecording s.
Proof.
  unfold exec. destruct w as [|media]; cbn [run_waiter].
  - rewrite (spawn_normal _ _ _ (stop_resume_eq o s)). cbn [snd].
    destruct (release_refs (set_sessionPromiseRef None (closing o s)))
      as (_ & _ & _ & H4).
    rewrite H4. cbn. apply closing_refs.
  - destruct o; reflexivity.
Qed.

Lemma exec_run_waiters_cons (o : outcome) (w : waiter) (ws : list waiter) (s : State) :
  exec (run_waiters o (w :: ws)) s = exec (run_waiters o ws) (exec (run_waiter o w) s).
Proof.
  cbn [run_waiters]. rewrite exec_bind. now rewrite run_waiter_normal.
Qed.

Lemma run_waiters_isRecording (o : outcome) (ws : list waiter) (s : State) :
  isRecording (exec (run_waiters o ws) s) = isRecording s.
Proof.
  revert s. induction ws as [|w ws IH]; intros s; [reflexivity|].
  now rewrite exec_run_waiters_cons, IH, run_waiter_isRecording.
Qed.

Lemma run_waiters_released (o : outcome) (ws : list waiter) (s : State) :
  released s -> released (exec (run_waiters o ws) s).
Proof.
  revert s. induction ws as [|w ws IH]; intros s H; [exact H|].
  rewrite exec_run_waiters_cons. apply IH, run_waiter_released. now right.
Qed.

Lemma run_waiters_stop (o : outcome) (ws ws' : list waiter) (s : State) :
  released (exec (run_waiters o (ws ++ AwaitInStop :: ws')) s).
Proof.
  revert s. induction ws as [|w ws IH]; intros s.
  - cbn [app]. rewrite exec_run_waiters_cons.
    apply run_waiters_released, run_waiter_released. now left.
  - cbn [app]. rewrite exec_run_waiters_cons. apply IH.
Qed.

(** The rejections nobody handled, oldest first. *)
Definition rejections (s : State) : list exn :=
  flat_map (fun e => match e with
                     | UnhandledRejection reason => [reason]
                     | _ => []
                     end) (effects (world s)).

(** The rejections a settling promise leaves unhandled among what waits for
    it: one for every send chained on it with [then], when it rejects. A
    suspended [stopConversation] leaves none. *)
Definition unhandled (o : outcome) (ws : list waiter) : list exn :=
  flat_map (fun w => match w, o with
                     | ThenSend _, Rejected reason => [reason]
                     | _, _ => []
                     end) ws.

Lemma grows_rejections (s s' : State) : grows s s' -> rejections s' = rejections s.
Proof.
  intros [(added & E & Hq) _]. unfold rejections. rewrite E, flat_map_app.
  assert (Hnil : flat_map (fun e => match e with
                                    | UnhandledRejection reason => [reason]
                                    | _ => []
                                    end) added = []).
  { clear E. induction Hq as [|e l He _ IH]; [reflexivity|].
    cbn [flat_map]. rewrite IH. now destruct e. }
  rewrite Hnil. apply app_nil_r.
Qed.

Lemma run_waiter_rejections (o : outcome) (w : waiter) (s : State) :
  rejections (exec (run_waiter o w) s) = rejections s ++ unhandled o [w].
Proof.
  unfold exec. destruct w as [|media]; cbn [run_waiter unhandled flat_map].
  - rewrite (spawn_normal _ _ _ (stop_resume_eq o s)). cbn [snd app].
    rewrite app_nil_r. apply grows_rejections.
    eapply grows_trans; [apply closing_grows|].
    eapply grows_trans; [apply grows_set_sessionPromiseRef | apply release_grows].
  - destruct o as [session|reason]; unfold rejections; cbn;
      rewrite flat_map_app; cbn; [now rewrite !app_nil_r | reflexivity].
Qed.

Lemma run_waiters_rejections (o : outcome) (ws : list waiter) (s : State) :
  rejections (exec (run_waiters o ws) s) = rejections s ++ unhandled o ws.
Proof.
  revert s. induction ws as [|w ws IH]; intros s.
  - cbn. now rewrite app_nil_r.
  - rewrite exec_run_waiters_cons, IH, run_waiter_rejections, <- app_assoc.
    f_equal. unfold unhandled. cbn [flat_map]. now rewrite app_nil_r.
Qed.

(** X13. Two calls in a row while the session promise is pending are both
    suspended: they throw nothing and change only the recording flag and the
    queue of the promise. Once the promise settles, either way, both run
    through: every lifecycle reference is null, the recording flag is down,
    and they leave no rejection unhandled; the only rejections left
    unhandled are those of the sends chained on the promise before, one
    each, when it rejects. *)
Lemma stop_twice_pending (s : State) (p : handle) (o : outcome) :
  sessionPromiseRef s = Some p -> settled (world s) !! p = None ->
  let s2 := run [Unmount; Unmount] s in
  let s' := run [Unmount; Unmount; Settle p o] s in
  s2 = suspended p (suspended p s) /\
  released s' /\ isRecording s' = false /\
  rejections s'
  = rejections s
    ++ unhandled o (map snd (List.filter (fun pw => Nat.eqb (fst pw) p)
                                         (waiters (world s)))).
Proof.
  intros Hp Hs.
  assert (H1 : spawn stopConversation s = (Normal tt, suspended p s)).
  { apply spawn_normal. now rewrite stopConversation_eq, Hp, Hs. }
  assert (H2 : spawn stopConversation (suspended p s)
               = (Normal tt, suspended p (suspended p s))).
  { apply spawn_normal. rewrite stopConversation_eq. cbn. now rewrite Hp, Hs. }
  assert (Hsusp : run [Unmount; Unmount] s = suspended p (suspended p s)).
  { unfold run. cbn [fold_left]. unfold step, handle_event.
    unfold exec at 2. rewrite H1. cbn [snd].
    unfold exec at 1. rewrite H2. reflexivity. }
  set (ws0 := map snd (List.filter (fun pw => Nat.eqb (fst pw) p) (waiters (world s)))).
  assert (Hrun : exists s3,
             run [Unmount; Unmount; Settle p o] s
             = exec (run_waiters o (ws0 ++ [AwaitInStop; AwaitInStop])) s3 /\
             isRecording s3 = false /\ rejections s3 = rejections s).
  { change (run [Unmount; Unmount; Settle p o] s)
      with (step (run [Unmount; Unmount] s) (Settle p o)).
    rewrite Hsusp. unfold step, handle_event.
    set (s2 := suspended p (suspended p s)).
    assert (Hw : waiters (world s2)
                 = waiters (world s) ++ [(p, AwaitInStop); (p, AwaitInStop)]).
    { subst s2. cbn. now rewrite <- app_assoc. }
    assert (Hk : settled (world s2) !! p = None) by exact Hs.
    assert (Hset : exists s3,
               settle p o s2 = run_waiters o (ws0 ++ [AwaitInStop; AwaitInStop]) s3 /\
               isRecording s3 = false /\ rejections s3 = rejections s).
    { unfold settle, bind, gets, modify. rewrite Hk, Hw. cbn [fst snd].
      rewrite !List.filter_app. cbn [List.filter fst]. rewrite Nat.eqb_refl.
      rewrite map_app. cbn [map snd]. fold ws0.
      eexists. split; [reflexivity|]. split; reflexivity. }
    destruct Hset as (s3 & Heq & Hrec & Hrej).
    exists s3. split; [|split; [exact Hrec | exact Hrej]].
    assert (Hn : forall l x, result (run_waiters o l) x = Normal tt).
    { induction l as [|w l IH]; intros x; [reflexivity|].
      unfold result in *. cbn [run_waiters]. unfold bind.
      pose proof (run_waiter_normal o w x) as Hw1. unfold result in Hw1.
      destruct (run_waiter o w x) as [c x']. cbn in Hw1. subst c. apply IH. }
    unfold exec at 1. erewrite spawn_normal; [reflexivity|].
    rewrite Heq.
    pose proof (Hn (ws0 ++ [AwaitInStop; AwaitInStop]) s3) as Hr.
    unfold result, exec in *.
    destruct (run_waiters o (ws0 ++ [AwaitInStop; AwaitInStop]) s3) as [c x].
    cbn in *. now subst c. }
  destruct Hrun as (s3 & Heq & Hrec & Hrej). cbv zeta.
  split; [exact Hsusp|]. rewrite Heq. split; [|split].
  - apply run_waiters_stop.
  - now rewrite run_waiters_isRecording.
  - rewrite run_waiters_rejections, Hrej. f_equal.
    unfold unhandled. rewrite flat_map_app. cbn. apply app_nil_r.
Qed.

Lemma let_go_grows (s s1 s2 : State) :
  let_go s s1 -> grows s1 s2 -> let_go s s2.
Proof.
  intros (H1 & H2 & H3 & H4 & H5) G. unfold let_go. repeat split.
  - intros ms Hms. eapply grows_In; eauto.
  - intros ctx Hc. eapply grows_closed; eauto.
  - intros ctx Hc. eapply grows_closed; eauto.
  - eapply grows_In; [exact G|]. now apply H4.
  - eapply grows_In; [exact G|]. now apply H4.
  - intros src Hs. eapply grows_In; eauto.
Qed.

(** Two calls made back to back in one task, on a settled promise: both
    reach the [await] before either goes on, so both go through the
    [try { session.close() }] lines. Nothing is thrown, and the second pass
    finds nothing left to release. *)
Lemma stop_twice_interleaved (s : State) (o : outcome) :
  let entered := set_isRecording false (set_isRecording false s) in
  let s1 := exec (stop_resume o) entered in
  let s2 := exec (stop_resume o) s1 in
  result (stop_resume o) entered = Normal tt /\
  result (stop_resume o) s1 = Normal tt /\
  released s2 /\ isRecording s2 = false /\ grows s s2 /\ let_go s s2.
Proof.
  cbv zeta. unfold exec, result. rewrite !stop_resume_eq. cbn [fst snd].
  set (s0 := set_isRecording false (set_isRecording false s)).
  set (s1 := release (set_sessionPromiseRef None (closing o s0))).
  set (s2 := release (set_sessionPromiseRef None (closing o s1))).
  assert (G01 : grows s0 s1).
  { eapply grows_trans; [apply closing_grows|].
    eapply grows_trans; [apply grows_set_sessionPromiseRef | apply release_grows]. }
  assert (G12 : grows s1 s2).
  { eapply grows_trans; [apply closing_grows|].
    eapply grows_trans; [apply grows_set_sessionPromiseRef | apply release_grows]. }
  assert (G0 : grows s s0).
  { eapply grows_trans; apply grows_set_isRecording. }
  destruct (release_refs (set_sessionPromiseRef None (closing o s0)))
    as (A1 & A2 & A3 & A4).
  destruct (release_refs (set_sessionPromiseRef None (closing o s1)))
    as (B1 & B2 & B3 & B4).
  destruct (closing_refs o s0) as (_ & C2 & C3 & C4).
  destruct (closing_refs o s1) as (_ & _ & _ & D4).
  split; [reflexivity|]. split; [reflexivity|]. split; [|split; [|split]].
  - unfold released. subst s2. now rewrite B1, B2, B3.
  - subst s2. rewrite B4. cbn [isRecording set_sessionPromiseRef]. rewrite D4.
    subst s1. rewrite A4. cbn [isRecording set_sessionPromiseRef]. now rewrite C4.
  - exact (grows_trans _ _ _ G0 (grows_trans _ _ _ G01 G12)).
  - eapply let_go_grows; [|exact G12].
    pose proof (release_let_go (set_sessionPromiseRef None (closing o s0))) as L.
    unfold let_go in *. cbn [mediaStreamRef audioContextRefs set_sessionPromiseRef] in L.
    now rewrite C2, C3 in L.
Qed.

(** *** The failure paths *)

(** X14. [onerror] with a settled session promise: the message is set and the
    teardown of [stopConversation] has run. *)
Lemma onerror_teardown (s : State) :
  promise_known s ->
  let s' := exec onerror s in
  result onerror s = Normal tt /\
  error s' = Some "An error occurred during the session."%string /\
  released s' /\ isRecording s' = false /\ let_go s s'.
Proof.
  intros Hk. cbv zeta. unfold exec, result, onerror, bind, modify. cbn [fst snd].
  set (s0 := set_error _ s).
  assert (Hk0 : promise_known s0) by exact Hk.
  destruct (stopConversation_known s0 Hk0) as (o & Heq & Ho).
  rewrite (spawn_normal _ _ _ Heq). cbn [fst snd].
  destruct (stopped_refs o s0) as (R1 & R2 & R3 & R4).
  destruct (stopped_grows o s0) as (_ & He & _).
  split; [reflexivity|]. split; [now rewrite He|].
  split; [|split; [exact R3 | exact (stopped_let_go o s0)]].
  unfold released. rewrite R1, R2, R4. destruct o; auto.
Qed.

(** The [catch] block of [startConversation], likewise. *)
Lemma start_catch_teardown (err : exn) (s : State) :
  promise_known s ->
  let s' := exec (start_catch err) s in
  result (start_catch err) s = Normal tt /\
  error s' = Some (if instanceof_Error err then message_of err
                   else "An unknown error occurred."%string) /\
  released s' /\ isRecording s' = false /\ let_go s s'.
Proof.
  intros Hk. cbv zeta. unfold exec, result, start_catch, bind, modify. cbn [fst snd].
  set (s0 := set_error _ s).
  assert (Hk0 : promise_known s0) by exact Hk.
  destruct (stopConversation_known s0 Hk0) as (o & Heq & Ho).
  rewrite (spawn_normal _ _ _ Heq). cbn [fst snd].
  destruct (stopped_refs o s0) as (R1 & R2 & R3 & R4).
  destruct (stopped_grows o s0) as (_ & He & _).
  split; [reflexivity|]. split; [now rewrite He|].
  split; [|split; [exact R3 | exact (stopped_let_go o s0)]].
  unfold released. rewrite R1, R2, R4. destruct o; auto.
Qed.

Definition granted : StartEnv :=
  {| getUserMedia := None; newInputContext := None; newOutputContext := None |}.

(** C4, at the input where it fails. The microphone is granted, both
    contexts are built and [ai.live.connect] returns a promise that then
    rejects. The promise is stored without [await], so the [catch] of
    [startConversation] never sees the rejection: no error message is set,
    the recording flag stays up, the stream (handle 0) and both contexts
    (handles 1 and 2) stay open and referenced, and nothing is released. *)
Theorem connect_rejection_no_teardown :
  let s := run [Toggle None; MediaAnswer granted;
                Settle 3%nat (Rejected (Error "connect failed"))] initial_state in
  error s = None /\ isRecording s = true /\
  sessionPromiseRef s = Some 3%nat /\ mediaStreamRef s = Some 0%nat /\
  audioContextRefs s = {| input := Some 1%nat; output := Some 2%nat;
                          scriptProcessor := None; source := None |} /\
  effects (world s) = [] /\
  context_closed 1%nat s = false /\ context_closed 2%nat s = false.
Proof. vm_compute. repeat split. Qed.

(** C5, at the input where it fails. The microphone button is clicked, the
    microphone is granted, both contexts are built and [ai.live.connect] has
    returned a promise that has not settled yet. A call of [stopConversation]
    now throws nothing, but it is suspended at [await
    sessionPromiseRef.current] before any line that releases: the session
    promise, the stream (handle 0) and both contexts (handles 1 and 2) stay
    referenced and open and no track is stopped. A second call is suspended
    in the same way, and it is no repetition of the first: a second
    continuation is queued. However often it is called, nothing is released
    while the promise is pending. *)
Theorem stop_while_connecting :
  let s := run [Toggle None; MediaAnswer granted] initial_state in
  let s1 := exec stopConversation s in
  let s2 := exec stopConversation s1 in
  settled (world s) !! 3%nat = None /\
  result stopConversation s = Normal tt /\
  result stopConversation s1 = Normal tt /\
  ~ released s1 /\
  sessionPromiseRef s1 = Some 3%nat /\ mediaStreamRef s1 = Some 0%nat /\
  audioContextRefs s1 = {| input := Some 1%nat; output := Some 2%nat;
                           scriptProcessor := None; source := None |} /\
  context_closed 1%nat s1 = false /\ context_closed 2%nat s1 = false /\
  effects (world s1) = [] /\
  waiters (world s1) = [(3%nat, AwaitInStop)] /\
  s2 <> s1 /\
  waiters (world s2) = [(3%nat, AwaitInStop); (3%nat, AwaitInStop)] /\
  forall n : nat,
    let sn := Nat.iter n (exec stopConversation) s in
    ~ released sn /\ mediaStreamRef sn = Some 0%nat /\ effects (world sn) = [].
Proof.
  cbv zeta.
  set (s := run [Toggle None; MediaAnswer granted] initial_state).
  assert (Hp : sessionPromiseRef s = Some 3%nat) by (vm_compute; reflexivity).
  assert (Hk : settled (world s) !! 3%nat = None) by (vm_compute; reflexivity).
  assert (Hm : mediaStreamRef s = Some 0%nat) by (vm_compute; reflexivity).
  assert (He : effects (world s) = []) by (vm_compute; reflexivity).
  assert (Hn : forall n : nat,
             let sn := Nat.iter n (exec stopConversation) s in
             sessionPromiseRef sn = Some 3%nat /\
             settled (world sn) !! 3%nat = None /\
             mediaStreamRef sn = Some 0%nat /\ effects (world sn) = []).
  { induction n as [|n IH]; [now repeat split|].
    cbv zeta in *. rewrite !Nat.iter_succ. destruct IH as (I1 & I2 & I3 & I4).
    assert (Hstep : exec stopConversation (Nat.iter n (exec stopConversation) s)
                    = suspended 3%nat (Nat.iter n (exec stopConversation) s)).
    { unfold exec at 1. rewrite stopConversation_eq, I1. unfold handle in *.
      now rewrite I2. }
    rewrite Hstep.
    split; [exact I1|]. split; [exact I2|]. split; [exact I3 | exact I4]. }
  split; [exact Hk|].
  split; [vm_compute; reflexivity|]. split; [vm_compute; reflexivity|].
  split; [intros (H & _); vm_compute in H; discriminate|].
  do 7 (split; [vm_compute; reflexivity|]).
  split.
  { intros H. apply (f_equal (fun x => length (waiters (world x)))) in H.
    vm_compute in H. discriminate. }
  split; [vm_compute; reflexivity|].
  intros n. destruct (Hn n) as (I1 & _ & I3 & I4).
  split; [|split; assumption].
  intros (H & _). cbv zeta in I1. congruence.
Qed.

(** The same failure reported through [onerror] while the promise is still
    pending: the message is set, but the teardown waits on the promise and
    has released nothing. *)
Example onerror_while_pending :
  let s := run [Toggle None; MediaAnswer granted; SessionError] initial_state in
  error s = Some "An error occurred during the session."%string /\
  isRecording s = false /\
  waiters (world s) = [(3%nat, AwaitInStop)] /\
  mediaStreamRef s = Some 0%nat /\ effects (world s) = [].
Proof. vm_compute. repeat split. Qed.

(** The output context is refused after the input context was built: the
    stream is stopped, but the input context (handle 1) was not yet stored
    and is never closed. *)
Example output_context_refused :
  let s := run [Toggle None;
                MediaAnswer {| getUserMedia := None; newInputContext := None;
                               newOutputContext := Some NotSupportedError |}]
               initial_state in
  error s = Some "NotSupportedError"%string /\ released s /\
  effects (world s) = [TrackStop 0%nat] /\ fresh (world s) = 2%nat /\
  context_closed 1%nat s = false.
Proof. vm_compute. repeat split. Qed.

(** A second click while [getUserMedia] is still pending calls
    [stopConversation], which finds nothing to release; the start then goes
    on when the microphone is granted, with the recording flag down. *)
Example stop_while_starting :
  let s := run [Toggle None; Toggle None; MediaAnswer granted] initial_state in
  isRecording s = false /\ mediaStreamRef s = Some 0%nat /\
  sessionPromiseRef s = Some 3%nat /\ effects (world s) = [].
Proof. vm_compute. repeat split. Qed.

(** A refused microphone: the message of the error is shown, nothing is held. *)
Example microphone_refused :
  let s := run [Toggle None;
                MediaAnswer {| getUserMedia := Some (Error "Permission denied");
                               newInputContext := None; newOutputContext := None |}]
               initial_state in
  error s = Some "Permission denied"%string /\ released s /\
  isRecording s = false /\ effects (world s) = [].
Proof. vm_compute. repeat split. Qed.

End TutorPanelFacts.

(** ** [services/geminiService.ts] *)

Module GeminiService.
Import JS JS.Notations.

(** [types.ts] *)
Record Question : Type := { id : Z; questionText : string }.
Definition Exam : Type := list Question.
Record Feedback : Type := { questionId : Z; isCorrect : bool; explanation : string }.
Record ExamResult : Type := { score : Q; feedback : list Feedback }.

(** An entry of [formattedAnswers]. *)
Record FormattedAnswer : Type := { question : string; answer : string }.

(** What a request asks for; the prose of the prompt is left out. *)
Inductive Prompt : Type :=
  | ExamPrompt (difficulty : Z)
  | GradingPrompt (formattedAnswers : list FormattedAnswer)
  | SpeechPrompt (text : string).

Record Request : Type := { model : string; contents : Prompt }.

(** The part of a response the wrappers read. *)
Record InlineData : Type := { data : option string }.
Record Part : Type := { inlineData : option InlineData }.
Record Content : Type := { parts : option (list Part) }.
Record Candidate : Type := { content : option Content }.
Record Response : Type := {
  text : option string;
  candidates : option (list Candidate)
}.

Definition EXAM_GENERATION_MODEL : string := "gemini-2.5-pro".
Definition EXAM_GRADING_MODEL : string := "gemini-2.5-pro".

(** What the module does besides returning: the requests it sends and the
    lines it logs with [console.error]. *)
Record Service : Type := { sent : list Request; console : list string }.

Definition send (r : Request) : M Service unit :=
  modify (fun s => {| sent := sent s ++ [r]; console := console s |}).

Definition console_error (label : string) : M Service unit :=
  modify (fun s => {| sent := sent s; console := console s ++ [label] |}).

Definition fallback_exam : Exam :=
  [{| id := 1; questionText := "Could not generate an exam. Please try again." |}].

(** [answers[q.id] || "No answer provided"] *)
Definition answer_or_default (answers : gmap Z string) (q : Question) : string :=
  match answers !! id q with
  | Some a => if truthy a then a else "No answer provided"
  | None => "No answer provided"
  end.

(** [response.candidates?.[0]?.content?.parts?.[0]?.inlineData?.data] *)
Definition audio_of (response : Response) : option string :=
  match candidates response with
  | Some (candidate :: _) =>
      match content candidate with
      | Some c =>
          match parts c with
          | Some (part :: _) =>
              match inlineData part with
              | Some d => data d
              | None => None
              end
          | _ => None
          end
      | None => None
      end
  | _ => None
  end.

Section Remote.

(** [ai.models.generateContent]: the answer of the service to a request, a
    rejection being [Throw]; and [JSON.parse(text.trim())] at the two types
    it is cast to. *)
Variable generateContent : Request -> completion Response.
Variable parse_exam : string -> completion Exam.
Variable parse_result : string -> completion ExamResult.

(** [await ai.models.generateContent(request)] *)
Definition call (r : Request) : M Service Response :=
  send r ;; lift (generateContent r).

(** [response.text.trim()] throws when [text] is undefined. *)
Definition text_of (response : Response) : completion string :=
  match text response with
  | Some t => Normal t
  | None => Throw TypeError
  end.

Definition generateExam (difficulty : Z) : M Service Exam :=
  try_catch
    (response <- call {| model := EXAM_GENERATION_MODEL;
                         contents := ExamPrompt difficulty |} ;;
     jsonText <- lift (text_of response) ;;
     exam <- lift (parse_exam jsonText) ;;
     ret exam)
    (fun error => console_error "Error generating exam:" ;; ret fallback_exam).

Definition gradeExam (exam : Exam) (answers : gmap Z string) : M Service ExamResult :=
  let formattedAnswers :=
    map (fun q => {| question := questionText q;
                     answer := answer_or_default answers q |}) exam in
  try_catch
    (response <- call {| model := EXAM_GRADING_MODEL;
                         contents := GradingPrompt formattedAnswers |} ;;
     jsonText <- lift (text_of response) ;;
     result <- lift (parse_result jsonText) ;;
     ret result)
    (fun error =>
       console_error "Error grading exam:" ;;
       ret {| score := 0;
              feedback :=
                map (fun q => {| questionId := id q; isCorrect := false;
                                 explanation :=
                                   "Sorry, there was an error grading this question." |})
                    exam |}).

(** [null] is [None]. *)
Definition generateSpeech (text : string) : M Service (option string) :=
  try_catch
    (response <- call {| model := "gemini-2.5-flash-preview-tts";
                         contents := SpeechPrompt text |} ;;
     match audio_of response with
     | Some base64Audio =>
         if truthy base64Audio then ret (Some base64Audio)
         else throw (Error "No audio data received from API.")
     | None => throw (Error "No audio data received from API.")
     end)
    (fun error => console_error "Error generating speech:" ;; ret None).

End Remote.

End GeminiService.

Module GeminiServiceFacts.
Import JS JS.Notations GeminiService.

Definition exam_request (difficulty : Z) : Request :=
  {| model := "gemini-2.5-pro"; contents := ExamPrompt difficulty |}.

(** The answer put in the grading prompt for a question: the answer given,
    or the placeholder when there is none (no entry, or an empty one). *)
Inductive prompt_answer (answers : gmap Z string) (q : Question) : string -> Prop :=
  | answer_given (a : string) :
      answers !! id q = Some a -> a <> ""%string -> prompt_answer answers q a
  | answer_missing :
      answers !! id q = None \/ answers !! id q = Some ""%string ->
      prompt_answer answers q "No answer provided".

(** The remote call, the read of [response.text] or the parse fails. *)
Inductive attempt_fails {A : Type} (generateContent : Request -> completion Response)
    (parse : string -> completion A) (r : Request) : Prop :=
  | remote_rejects (e : exn) :
      generateContent r = Throw e -> attempt_fails generateContent parse r
  | text_missing (response : Response) :
      generateContent r = Normal response -> text response = None ->
      attempt_fails generateContent parse r
  | parse_throws (response : Response) (t : string) (e : exn) :
      generateContent r = Normal response -> text response = Some t ->
      parse t = Throw e -> attempt_fails generateContent parse r.

(** A response carries the audio payload [d]. *)
Inductive carries_audio (response : Response) (d : string) : Prop :=
  | audio_payload (candidate : Candidate) (others : list Candidate) (c : Content)
      (part : Part) (rest : list Part) (inline : InlineData) :
      candidates response = Some (candidate :: others) ->
      content candidate = Some c ->
      parts c = Some (part :: rest) ->
      inlineData part = Some inline ->
      data inline = Some d ->
      d <> ""%string ->
      carries_audio response d.

Lemma audio_of_carries (response : Response) (d : string) :
  carries_audio response d <-> audio_of response = Some d /\ truthy d = true.
Proof.
  unfold audio_of. split.
  - intros [candidate others c part rest inline H1 H2 H3 H4 H5 H6].
    rewrite H1, H2, H3, H4. split; [exact H5|]. now destruct d.
  - intros [H Ht].
    destruct (candidates response) as [[|candidate others]|] eqn:H1; try discriminate.
    destruct (content candidate) as [c|] eqn:H2; try discriminate.
    destruct (parts c) as [[|part rest]|] eqn:H3; try discriminate.
    destruct (inlineData part) as [inline|] eqn:H4; try discriminate.
    eapply audio_payload; eauto. now destruct d.
Qed.

Lemma answer_or_default_spec (answers : gmap Z string) (q : Question) :
  prompt_answer answers q (answer_or_default answers q).
Proof.
  unfold answer_or_default.
  destruct (answers !! id q) as [a|] eqn:E.
  - destruct a as [|c a]; cbn [truthy].
    + apply answer_missing. now right.
    + now apply answer_given.
  - apply answer_missing. now left.
Qed.

Section Remote.
Variable generateContent : Request -> completion Response.
Variable parse_exam : string -> completion Exam.
Variable parse_result : string -> completion ExamResult.

Ltac run_service :=
  unfold result, exec, generateExam, gradeExam, generateSpeech, call, send,
    console_error, text_of, try_catch, bind, lift, modify, ret, throw,
    EXAM_GENERATION_MODEL, EXAM_GRADING_MODEL.

Lemma generateExam_total (difficulty : Z) (s : Service) :
  exists exam, result (generateExam generateContent parse_exam difficulty) s
               = Normal exam.
Proof.
  run_service. cbn.
  destruct (generateContent _) as [response|e]; [|eauto].
  destruct (text response) as [t|]; [|eauto].
  destruct (parse_exam t); eauto.
Qed.

Lemma generateExam_fallback (difficulty : Z) (s : Service) :
  attempt_fails generateContent parse_exam (exam_request difficulty) ->
  generateExam generateContent parse_exam difficulty s =
  (Normal fallback_exam,
   {| sent := sent s ++ [exam_request difficulty];
      console := console s ++ ["Error generating exam:"%string] |}).
Proof.
  unfold exam_request. intros [e H|response H Ht|response t e H Ht Hp];
    run_service; cbn; rewrite H; try rewrite Ht; try rewrite Hp; reflexivity.
Qed.

Definition grading_request (exam : Exam) (answers : gmap Z string) : Request :=
  {| model := "gemini-2.5-pro";
     contents :=
       GradingPrompt
         (map (fun q => {| question := questionText q;
                           answer := answer_or_default answers q |}) exam) |}.

Lemma gradeExam_total (exam : Exam) (answers : gmap Z string) (s : Service) :
  exists r, result (gradeExam generateContent parse_result exam answers) s = Normal r.
Proof.
  run_service. cbn.
  destruct (generateContent _) as [response|e]; [|eauto].
  destruct (text response) as [t|]; [|eauto].
  destruct (parse_result t); eauto.
Qed.

Lemma gradeExam_sends (exam : Exam) (answers : gmap Z string) (s : Service) :
  sent (exec (gradeExam generateContent parse_result exam answers) s)
  = sent s ++ [grading_request exam answers].
Proof.
  run_service. cbn. fold (grading_request exam answers).
  destruct (generateContent _) as [response|e]; [|reflexivity].
  destruct (text response) as [t|]; [|reflexivity].
  destruct (parse_result t); reflexivity.
Qed.

Lemma gradeExam_fallback (exam : Exam) (answers : gmap Z string) (s : Service) :
  attempt_fails generateContent parse_result (grading_request exam answers) ->
  result (gradeExam generateContent parse_result exam answers) s =
  Normal {| score := 0;
            feedback :=
              map (fun q => {| questionId := id q; isCorrect := false;
                               explanation :=
                                 "Sorry, there was an error grading this question." |})
                  exam |}.
Proof.
  unfold grading_request. intros [e H|response H Ht|response t e H Ht Hp];
    run_service; cbn; rewrite H; try rewrite Ht; try rewrite Hp; reflexivity.
Qed.

(** [generateSpeech] never throws; it returns the payload of the response
    when there is one, and [null] otherwise. *)
Lemma generateSpeech_spec (text : string) (s : Service) :
  let request := {| model := "gemini-2.5-flash-preview-tts";
                    contents := SpeechPrompt text |} in
  exists v,
    result (generateSpeech generateContent text) s = Normal v /\
    (v = None <->
     (exists e, generateContent request = Throw e) \/
     (exists response, generateContent request = Normal response /\
                       forall d, ~ carries_audio response d)) /\
    (forall d, v = Some d <->
       exists response, generateContent request = Normal response /\
                        carries_audio response d).
Proof.
  intros request. run_service. cbn. fold request.
  destruct (generateContent request) as [response|e] eqn:Hg.
  - destruct (audio_of response) as [d|] eqn:Ha.
    + destruct (truthy d) eqn:Ht; cbn.
      * exists (Some d). split; [reflexivity|]. split.
        -- split; [discriminate|]. intros [[e He]|(r & Hr & Hn)]; [discriminate|].
           injection Hr as <-. exfalso. apply (Hn d). now apply audio_of_carries.
        -- intros d'. split.
           ++ intros [= <-]. exists response. split; [reflexivity|].
              now apply audio_of_carries.
           ++ intros (r & Hr & Hc). injection Hr as <-.
              apply audio_of_carries in Hc. destruct Hc as [Hc _]. congruence.
      * exists None. split; [reflexivity|]. split.
        -- split; [|reflexivity]. intros _. right. exists response.
           split; [reflexivity|]. intros d' Hc. apply audio_of_carries in Hc.
           destruct Hc as [Hc Hc']. congruence.
        -- intros d'. split; [discriminate|]. intros (r & Hr & Hc).
           injection Hr as <-. apply audio_of_carries in Hc.
           destruct Hc as [Hc Hc']. congruence.
    + cbn. exists None. split; [reflexivity|]. split.
      * split; [|reflexivity]. intros _. right. exists response.
        split; [reflexivity|]. intros d' Hc. apply audio_of_carries in Hc.
        destruct Hc as [Hc _]. congruence.
      * intros d'. split; [discriminate|]. intros (r & Hr & Hc).
        injection Hr as <-. apply audio_of_carries in Hc.
        destruct Hc as [Hc _]. congruence.
  - cbn. exists None. split; [reflexivity|]. split.
    + split; [|reflexivity]. intros _. left. now exists e.
    + intros d'. split; [discriminate|]. intros (r & Hr & _). discriminate.
Qed.

(** C10. [generateExam] and [gradeExam] never reject. When the remote call,
    the read of the response text or the parse fails, [generateExam] returns
    the one-question fallback exam and [gradeExam] returns score 0 with one
    feedback entry per question of the exam, in order, each with
    [isCorrect = false]. The prompt [gradeExam] sends holds one entry per
    question with the placeholder "No answer provided" wherever the question
    has no answer. *)
Theorem exam_service_fallbacks
    (difficulty : Z) (exam : Exam) (answers : gmap Z string) (s : Service) :
  (exists e, result (generateExam generateContent parse_exam difficulty) s = Normal e) /\
  (exists r, result (gradeExam generateContent parse_result exam answers) s = Normal r) /\
  (attempt_fails generateContent parse_exam (exam_request difficulty) ->
   result (generateExam generateContent parse_exam difficulty) s =
   Normal [{| id := 1;
              questionText := "Could not generate an exam. Please try again." |}]) /\
  (attempt_fails generateContent parse_result (grading_request exam answers) ->
   exists fb,
     result (gradeExam generateContent parse_result exam answers) s
     = Normal {| score := 0; feedback := fb |} /\
     map questionId fb = map id exam /\
     Forall (fun f => isCorrect f = false) fb) /\
  (exists formatted,
     sent (exec (gradeExam generateContent parse_result exam answers) s)
     = sent s ++ [{| model := "gemini-2.5-pro"; contents := GradingPrompt formatted |}] /\
     Forall2 (fun q a => question a = questionText q /\
                         prompt_answer answers q (answer a)) exam formatted).
Proof.
  split; [apply generateExam_total|]. split; [apply gradeExam_total|].
  split; [|split].
  - intros H. unfold result. now rewrite (generateExam_fallback _ _ H).
  - intros H. eexists. split; [now apply gradeExam_fallback|]. split.
    + rewrite map_map. reflexivity.
    + apply Forall_map. now apply Forall_forall.
  - eexists. split; [apply gradeExam_sends|].
    induction exam as [|q l IH]; cbn [map]; constructor.
    + split; [reflexivity | apply answer_or_default_spec].
    + exact IH.
Qed.

End Remote.

(** The service is unreachable: both wrappers fall back. *)
Example offline :
  let down := fun _ : Request => Throw (Error "offline") in
  let unused_exam := fun _ : string => @Throw Exam SyntaxError in
  let unused_result := fun _ : string => @Throw ExamResult SyntaxError in
  let exam := [{| id := 1; questionText := "2+2?" |};
               {| id := 2; questionText := "Capital of France?" |}] in
  let answers : gmap Z string := <[1 := "4"%string]> ∅ in
  let s := {| sent := []; console := [] |} in
  result (generateExam down unused_exam 3) s = Normal fallback_exam /\
  result (gradeExam down unused_result exam answers) s =
    Normal {| score := 0;
              feedback :=
                [{| questionId := 1; isCorrect := false;
                    explanation := "Sorry, there was an error grading this question." |};
                 {| questionId := 2; isCorrect := false;
                    explanation := "Sorry, there was an error grading this question." |}] |} /\
  sent (exec (gradeExam down unused_result exam answers) s) =
    [{| model := "gemini-2.5-pro";
        contents := GradingPrompt
          [{| question := "2+2?"; answer := "4" |};
           {| question := "Capital of France?"; answer := "No answer provided" |}] |}].
Proof. vm_compute. repeat split. Qed.

End GeminiServiceFacts.

(** ** [ExamPanel.tsx]: playing an explanation *)

Module ExamPanel.
Import JS JS.Notations Audio.

Definition handle : Type := nat.

(** What the component does to the audio objects, in order. *)
Inductive effect : Type :=
  | SourceStart (node : handle) (buffer : AudioBuffer)
  | SourceStop (node : handle)
  | SourceDisconnect (node : handle)
  | ContextClose (ctx : handle)
  | ConsoleError (label : string).

Record State : Type := {
  audioLoading : option Z;
  audioPlaying : option Z;
  audioContextRef : option handle;
  audioSourceRef : option handle;
  pendingSpeech : list Z;            (* calls waiting for generateSpeech, oldest first *)
  fresh : handle;
  sounding : list handle;            (* source nodes started, not stopped, not ended *)
  effects : list effect;
  service : GeminiService.Service
}.

(** The component as mounted. *)
Definition initial_state : State :=
  {| audioLoading := None; audioPlaying := None; audioContextRef := None;
     audioSourceRef := None; pendingSpeech := []; fresh := 0%nat; sounding := [];
     effects := [];
     service := {| GeminiService.sent := []; GeminiService.console := [] |} |}.

Definition set_audioLoading (v : option Z) (s : State) : State :=
  {| audioLoading := v; audioPlaying := audioPlaying s;
     audioContextRef := audioContextRef s; audioSourceRef := audioSourceRef s;
     pendingSpeech := pendingSpeech s; fresh := fresh s; sounding := sounding s;
     effects := effects s; service := service s |}.

Definition set_audioPlaying (v : option Z) (s : State) : State :=
  {| audioLoading := audioLoading s; audioPlaying := v;
     audioContextRef := audioContextRef s; audioSourceRef := audioSourceRef s;
     pendingSpeech := pendingSpeech s; fresh := fresh s; sounding := sounding s;
     effects := effects s; service := service s |}.

Definition set_audioContextRef (v : option handle) (s : State) : State :=
  {| audioLoading := audioLoading s; audioPlaying := audioPlaying s;
     audioContextRef := v; audioSourceRef := audioSourceRef s;
     pendingSpeech := pendingSpeech s; fresh := fresh s; sounding := sounding s;
     effects := effects s; service := service s |}.

Definition set_audioSourceRef (v : option handle) (s : State) : State :=
  {| audioLoading := audioLoading s; audioPlaying := audioPlaying s;
     audioContextRef := audioContextRef s; audioSourceRef := v;
     pendingSpeech := pendingSpeech s; fresh := fresh s; sounding := sounding s;
     effects := effects s; service := service s |}.

Definition set_pendingSpeech (v : list Z) (s : State) : State :=
  {| audioLoading := audioLoading s; audioPlaying := audioPlaying s;
     audioContextRef := audioContextRef s; audioSourceRef := audioSourceRef s;
     pendingSpeech := v; fresh := fresh s; sounding := sounding s;
     effects := effects s; service := service s |}.

Definition set_fresh (v : handle) (s : State) : State :=
  {| audioLoading := audioLoading s; audioPlaying := audioPlaying s;
     audioContextRef := audioContextRef s; audioSourceRef := audioSourceRef s;
     pendingSpeech := pendingSpeech s; fresh := v; sounding := sounding s;
     effects := effects s; service := service s |}.

Definition set_sounding (v : list handle) (s : State) : State :=
  {| audioLoading := audioLoading s; audioPlaying := audioPlaying s;
     audioContextRef := audioContextRef s; audioSourceRef := audioSourceRef s;
     pendingSpeech := pendingSpeech s; fresh := fresh s; sounding := v;
     effects := effects s; service := service s |}.

Definition set_effects (v : list effect) (s : State) : State :=
  {| audioLoading := audioLoading s; audioPlaying := audioPlaying s;
     audioContextRef := audioContextRef s; audioSourceRef := audioSourceRef s;
     pendingSpeech := pendingSpeech s; fresh := fresh s; sounding := sounding s;
     effects := v; service := service s |}.

Definition set_service (v : GeminiService.Service) (s : State) : State :=
  {| audioLoading := audioLoading s; audioPlaying := audioPlaying s;
     audioContextRef := audioContextRef s; audioSourceRef := audioSourceRef s;
     pendingSpeech := pendingSpeech s; fresh := fresh s; sounding := sounding s;
     effects := effects s; service := v |}.

Definition log (e : effect) (s : State) : State :=
  set_effects (effects s ++ [e]) s.

Definition perform (e : effect) : M State unit := modify (log e).

Definition alloc : M State handle :=
  fun s => (Normal (fresh s), set_fresh (S (fresh s)) s).

Definition silence (node : handle) (s : State) : State :=
  set_sounding (List.filter (fun n => negb (Nat.eqb n node)) (sounding s)) s.

(** [node.start()] and [node.stop()] *)
Definition source_start (node : handle) (buffer : AudioBuffer) : M State unit :=
  perform (SourceStart node buffer) ;;
  modify (fun s => set_sounding (sounding s ++ [node]) s).

Definition source_stop (node : handle) : M State unit :=
  perform (SourceStop node) ;; modify (silence node).

Definition effect_is_close (ctx : handle) (e : effect) : bool :=
  match e with
  | ContextClose c => Nat.eqb c ctx
  | _ => false
  end.

(** [ctx.state === 'closed'] *)
Definition context_closed (ctx : handle) (s : State) : bool :=
  existsb (effect_is_close ctx) (effects s).

(** A call into the service module, on its own state. *)
Definition in_service {A} (m : M GeminiService.Service A) : M State A :=
  fun s =>
    match m (service s) with
    | (c, sv) => (c, set_service sv s)
    end.

Definition stopCurrentAudio : M State unit :=
  current <- gets audioSourceRef ;;
  match current with
  | Some node =>
      source_stop node ;;
      perform (SourceDisconnect node) ;;
      modify (set_audioSourceRef None)
  | None => ret tt
  end ;;
  modify (set_audioPlaying None).

(** The [onended] handler of a source node. *)
Definition onended (sourceNode : handle) : M State unit :=
  current <- gets audioSourceRef ;;
  match current with
  | Some node =>
      if Nat.eqb node sourceNode
      then modify (set_audioPlaying None) ;; modify (set_audioSourceRef None)
      else ret tt
  | None => ret tt
  end.

(** *** [handlePlayExplanation], cut at [await generateSpeech(text)]

    [play_begin] returns [true] when the request has been made. *)
Definition play_begin (questionId : Z) : M State bool :=
  playing <- gets audioPlaying ;;
  match playing with
  | Some q =>
      if Z.eqb q questionId then stopCurrentAudio ;; ret false
      else stopCurrentAudio ;; modify (set_audioLoading (Some questionId)) ;; ret true
  | None =>
      stopCurrentAudio ;; modify (set_audioLoading (Some questionId)) ;; ret true
  end.

(** From the [await] on: the rest of the [try], the [catch], the [finally].
    [refusal] is the answer of [new AudioContext], should it be called. *)
Definition play_resume (questionId : Z) (audioData : option string)
    (refusal : option exn) : M State unit :=
  try_finally
    (try_catch
       (payload <- match audioData with
                   | Some a => if truthy a then ret a
                               else throw (Error "Failed to generate audio.")
                   | None => throw (Error "Failed to generate audio.")
                   end ;;
        current <- gets audioContextRef ;;
        reusable <- gets (fun s => match current with
                                   | Some ctx => negb (context_closed ctx s)
                                   | None => false
                                   end) ;;
        (if reusable then ret tt
         else
           match refusal with
           | Some e => throw e
           | None => ctx <- alloc ;; modify (set_audioContextRef (Some ctx))
           end) ;;
        decoded <- lift (decode payload) ;;
        audioBuffer <- lift (decodeAudioData decoded 24000 1) ;;
        sourceNode <- alloc ;;
        source_start sourceNode audioBuffer ;;
        modify (set_audioSourceRef (Some sourceNode)) ;;
        modify (set_audioPlaying (Some questionId)))
       (fun error => perform (ConsoleError "Error playing explanation:")))
    (modify (set_audioLoading None)).

Section Remote.
Variable generateContent : GeminiService.Request -> completion GeminiService.Response.

(** A call that nothing interleaves with. *)
Definition handlePlayExplanation (questionId : Z) (text : string)
    (refusal : option exn) : M State unit :=
  requested <- play_begin questionId ;;
  if requested then
    audioData <- in_service (GeminiService.generateSpeech generateContent text) ;;
    play_resume questionId audioData refusal
  else ret tt.

End Remote.

(** *** The event loop *)

Inductive event : Type :=
  | Play (questionId : Z)                  (* click on a speaker button *)
  | Speech (audioData : option string) (refusal : option exn)
                                           (* the oldest generateSpeech call returns *)
  | Ended (sourceNode : handle)            (* a source played to its end *)
  | NewExam                                (* handleGenerateExam *)
  | Unmount.

(** The button of a question is disabled while another question loads. *)
Definition play_enabled (questionId : Z) (s : State) : bool :=
  match audioLoading s with
  | Some q => Z.eqb q questionId
  | None => true
  end.

Definition handle_event (e : event) : M State unit :=
  match e with
  | Play questionId =>
      enabled <- gets (play_enabled questionId) ;;
      if enabled then
        requested <- play_begin questionId ;;
        if requested
        then modify (fun s => set_pendingSpeech (pendingSpeech s ++ [questionId]) s)
        else ret tt
      else ret tt
  | Speech audioData refusal =>
      pending <- gets pendingSpeech ;;
      match pending with
      | questionId :: rest =>
          modify (set_pendingSpeech rest) ;;
          play_resume questionId audioData refusal
      | [] => ret tt
      end
  | Ended sourceNode => modify (silence sourceNode) ;; onended sourceNode
  | NewExam => stopCurrentAudio
  | Unmount =>
      stopCurrentAudio ;;
      ctx <- gets audioContextRef ;;
      match ctx with
      | Some c =>
          closed <- gets (context_closed c) ;;
          if closed then ret tt else perform (ContextClose c)
      | None => ret tt
      end
  end.

Definition step (s : State) (e : event) : State := exec (handle_event e) s.

Definition run (events : list event) (s : State) : State := fold_left step events s.

End ExamPanel.

Module ExamPanelFacts.
Import JS JS.Notations Audio ExamPanel.

Ltac unfold_panel :=
  unfold exec, result, play_resume, play_begin, stopCurrentAudio, onended,
    source_start, source_stop, perform, alloc, in_service, try_finally, try_catch,
    bind, gets, modify, lift, ret, throw in *.

(** [stopCurrentAudio] never throws, nulls the reference and the playing
    state, and stops the node the reference held. *)
Lemma stopCurrentAudio_spec (s : State) :
  let s' := exec stopCurrentAudio s in
  result stopCurrentAudio s = Normal tt /\
  audioSourceRef s' = None /\ audioPlaying s' = None /\
  audioLoading s' = audioLoading s /\ audioContextRef s' = audioContextRef s /\
  pendingSpeech s' = pendingSpeech s /\ fresh s' = fresh s /\
  sounding s' =
    match audioSourceRef s with
    | Some node => List.filter (fun n => negb (Nat.eqb n node)) (sounding s)
    | None => sounding s
    end /\
  (forall node, audioSourceRef s = Some node ->
     effects s' = effects s ++ [SourceStop node; SourceDisconnect node]).
Proof.
  destruct s as [ld pl cx [node|] pd fr so ef sv]; unfold_panel; cbn.
  - repeat split. intros n [= <-]. now rewrite <- app_assoc.
  - repeat split. discriminate.
Qed.

(** What [play_resume] can leave: nothing new sounding, or exactly one new
    node, which the reference then holds. Either way nothing is thrown and
    the loading state is cleared. *)
Lemma play_resume_cases (questionId : Z) (audioData : option string)
    (refusal : option exn) (s : State) :
  let s' := exec (play_resume questionId audioData refusal) s in
  result (play_resume questionId audioData refusal) s = Normal tt /\
  audioLoading s' = None /\
  ((sounding s' = sounding s /\ audioSourceRef s' = audioSourceRef s /\
    audioPlaying s' = audioPlaying s /\
    effects s' = effects s ++ [ConsoleError "Error playing explanation:"]) \/
   (exists node buffer,
      sounding s' = sounding s ++ [node] /\ audioSourceRef s' = Some node /\
      audioPlaying s' = Some questionId /\
      effects s' = effects s ++ [SourceStart node buffer] /\
      exists payload, audioData = Some payload /\ truthy payload = true)).
Proof.
  destruct s as [ld pl cx sr pd fr so ef sv]. unfold_panel. unfold context_closed.
  cbn [effects audioContextRef].
  destruct audioData as [payload|]; [|cbn; auto 10].
  destruct (truthy payload) eqn:Ht; [|cbn; auto 10].
  destruct (decode payload) as [decoded|e] eqn:Hd;
    [destruct (decodeAudioData decoded 24000 1) as [buffer|e] eqn:Hb|];
    destruct cx as [ctx|]; cbn;
    try destruct (existsb (effect_is_close ctx) ef); cbn;
    try destruct refusal; cbn;
    rewrite ?Hd; cbn; rewrite ?Hb; cbn;
    (split; [reflexivity|]); (split; [reflexivity|]);
    first [ left; repeat split; reflexivity
          | right; eexists; eexists; repeat split; eauto ].
Qed.

(** *** One playback at a time, as long as calls do not overlap *)

(** Whatever sounds is the node the reference holds. *)
Definition exclusive (s : State) : Prop :=
  (forall m, In m (sounding s) -> audioSourceRef s = Some m) /\
  List.NoDup (sounding s).

Lemma exclusive_at_most_one (s : State) :
  exclusive s -> (length (sounding s) <= 1)%nat.
Proof.
  intros [Href Hnd]. destruct (sounding s) as [|a [|b l]]; cbn; try lia.
  assert (Ha : audioSourceRef s = Some a) by (apply Href; now left).
  assert (Hb : audioSourceRef s = Some b) by (apply Href; right; now left).
  assert (a = b) by congruence. subst b.
  apply List.NoDup_cons_iff in Hnd. destruct Hnd as [Hin _].
  exfalso. apply Hin. now left.
Qed.

Lemma quiet_exclusive (s : State) :
  sounding s = [] -> exclusive s.
Proof. intros H. unfold exclusive. rewrite H. split; [intros m []|constructor]. Qed.

Lemma filter_out_all (node : handle) (l : list handle) :
  (forall m, In m l -> m = node) ->
  List.filter (fun n => negb (Nat.eqb n node)) l = [].
Proof.
  induction l as [|a l IH]; intros Hall; [reflexivity|]. cbn.
  rewrite (Hall a (or_introl eq_refl)), Nat.eqb_refl. cbn.
  apply IH. intros m Hm. apply Hall. now right.
Qed.

Lemma stop_silences (s : State) :
  exclusive s ->
  sounding (exec stopCurrentAudio s) = [] /\
  audioSourceRef (exec stopCurrentAudio s) = None.
Proof.
  intros [Href _].
  destruct (stopCurrentAudio_spec s) as (_ & Hr & _ & _ & _ & _ & _ & Hs & _).
  split; [|exact Hr]. rewrite Hs.
  destruct (audioSourceRef s) as [node|] eqn:E.
  - apply filter_out_all. intros m Hm. apply Href in Hm. congruence.
  - destruct (sounding s) as [|a l]; [reflexivity|].
    discriminate (Href a (or_introl eq_refl)).
Qed.

Lemma play_begin_spec (questionId : Z) (s : State) :
  exists requested : bool,
    play_begin questionId s =
    (Normal requested,
     if requested then set_audioLoading (Some questionId) (exec stopCurrentAudio s)
     else exec stopCurrentAudio s).
Proof.
  destruct s as [ld pl cx [node|] pd fr so ef sv]; unfold_panel; cbn;
    destruct pl as [q|]; try destruct (Z.eqb q questionId); cbn;
    first [ exists true; reflexivity | exists false; reflexivity ].
Qed.

Section Remote.
Variable generateContent : GeminiService.Request -> completion GeminiService.Response.

(** A whole call, run without interleaving, keeps playback exclusive. *)
Lemma handlePlayExplanation_exclusive (questionId : Z) (text : string)
    (refusal : option exn) (s : State) :
  exclusive s ->
  exclusive (exec (handlePlayExplanation generateContent questionId text refusal) s).
Proof.
  intros Hex. destruct (stop_silences s Hex) as [Hs Hr].
  unfold exec at 1, handlePlayExplanation, bind.
  destruct (play_begin_spec questionId s) as [[|] Hb]; rewrite Hb.
  - set (s1 := set_audioLoading (Some questionId) (exec stopCurrentAudio s)).
    unfold in_service at 1.
    destruct (GeminiService.generateSpeech generateContent text (service s1))
      as [[audioData|e] sv] eqn:Hg.
    + set (s2 := set_service sv s1).
      destruct (play_resume_cases questionId audioData refusal s2)
        as (_ & _ & [(H1 & H2 & _)|(node & buffer & H1 & H2 & _)]);
        unfold exec in H1, H2.
      * apply quiet_exclusive. rewrite H1. exact Hs.
      * unfold exclusive. rewrite H1, H2.
        change (sounding s2) with (sounding (exec stopCurrentAudio s)).
        rewrite Hs. cbn. split.
        -- intros m [<-|[]]. reflexivity.
        -- repeat constructor. intros [].
    + cbn. apply quiet_exclusive. exact Hs.
  - cbn. apply quiet_exclusive. exact Hs.
Qed.

End Remote.

(** A node that plays to its end keeps playback exclusive. *)
Lemma ended_exclusive (sourceNode : handle) (s : State) :
  exclusive s -> exclusive (step s (Ended sourceNode)).
Proof.
  intros [Href Hnd].
  assert (Hf : forall m, In m (List.filter (fun n => negb (Nat.eqb n sourceNode))
                                           (sounding s)) ->
                         In m (sounding s) /\ m <> sourceNode).
  { intros m Hm. apply List.filter_In in Hm. destruct Hm as [Hm Hn].
    split; [exact Hm|]. intros ->. now rewrite Nat.eqb_refl in Hn. }
  destruct s as [ld pl cx sr pd fr so ef sv]. cbn in *.
  unfold step, handle_event. unfold_panel. unfold silence. cbn.
  destruct sr as [node|]; cbn.
  - destruct (Nat.eqb node sourceNode) eqn:E; cbn; unfold exclusive; cbn.
    + apply Nat.eqb_eq in E. subst node. split.
      * intros m Hm. apply Hf in Hm. destruct Hm as [Hm Hne].
        apply Href in Hm. congruence.
      * now apply List.NoDup_filter.
    + split.
      * intros m Hm. apply Hf in Hm. now apply Href.
      * now apply List.NoDup_filter.
  - unfold exclusive. cbn. split.
    + intros m Hm. apply Hf in Hm. now apply Href.
    + now apply List.NoDup_filter.
Qed.

(** C8, at the input where it fails. The speaker button of question 1 is
    clicked twice while the first request for speech is still loading (the
    button of the loading question is not disabled). Each call stops what is
    playing, which is nothing yet; when the two requests return, each starts a
    source node. The first node (handle 1) is never stopped: two playbacks
    sound together. *)
Theorem double_click_two_playbacks :
  let s := run [Play 1; Play 1; Speech (Some "AIA="%string) None;
                Speech (Some "AIA="%string) None] initial_state in
  sounding s = [1%nat; 2%nat] /\
  length (sounding s) = 2%nat /\
  audioSourceRef s = Some 2%nat /\
  effects s =
    [SourceStart 1%nat {| sampleRate := 24000; frames := 1;
                          channels := [[(-32768 # 32768)%Q]] |};
     SourceStart 2%nat {| sampleRate := 24000; frames := 1;
                          channels := [[(-32768 # 32768)%Q]] |}] /\
  ~ exclusive s.
Proof.
  vm_compute. repeat split.
  intros [H _]. specialize (H 1%nat (or_introl eq_refl)). discriminate H.
Qed.

(** C7. [generateSpeech] throws nothing, and returns [null] exactly when the
    remote call rejects or the response carries no audio payload (none, or an
    empty one). In [handlePlayExplanation] a [null] result throws nothing,
    logs one error, starts no source node, leaves what plays and the audio
    references as they were, and clears the loading state, so that every
    speaker button is enabled again. *)
Theorem speech_failure_degrades
    (generateContent : GeminiService.Request -> completion GeminiService.Response)
    (text : string) (sv : GeminiService.Service)
    (questionId : Z) (refusal : option exn) (s : State) :
  let request := {| GeminiService.model := "gemini-2.5-flash-preview-tts";
                    GeminiService.contents := GeminiService.SpeechPrompt text |} in
  (exists v,
     result (GeminiService.generateSpeech generateContent text) sv = Normal v /\
     (v = None <->
      (exists e, generateContent request = Throw e) \/
      (exists response, generateContent request = Normal response /\
                        forall d, ~ GeminiServiceFacts.carries_audio response d))) /\
  (let s' := exec (play_resume questionId None refusal) s in
   result (play_resume questionId None refusal) s = Normal tt /\
   audioLoading s' = None /\
   sounding s' = sounding s /\
   audioSourceRef s' = audioSourceRef s /\
   audioPlaying s' = audioPlaying s /\
   audioContextRef s' = audioContextRef s /\
   effects s' = effects s ++ [ConsoleError "Error playing explanation:"] /\
   forall q, play_enabled q s' = true).
Proof.
  intros request. split.
  - destruct (GeminiServiceFacts.generateSpeech_spec generateContent text sv)
      as (v & Hv & Hnone & _).
    exists v. split; [exact Hv | exact Hnone].
  - destruct s as [ld pl cx sr pd fr so ef sv']. cbn. repeat split.
Qed.

End ExamPanelFacts.

(** ** [App.tsx]: the difficulty level *)

Module App.
Import GeminiService.

Record State : Type := {
  difficultyLevel : Z;
  currentExam : option Exam;
  examResult : option ExamResult
}.

(** [useState(1)], [useState(null)], [useState(null)] *)
Definition initial_state : State :=
  {| difficultyLevel := 1; currentExam := None; examResult := None |}.

(** [result.score > 70] *)
Definition over_70 (result : ExamResult) : bool := negb (Qle_bool (score result) 70).

Definition handleExamComplete (result : ExamResult) (exam : Exam) (s : State) : State :=
  let s1 := {| difficultyLevel := difficultyLevel s; currentExam := currentExam s;
               examResult := Some result |} in
  let s2 := {| difficultyLevel := difficultyLevel s1; currentExam := Some exam;
               examResult := examResult s1 |} in
  if over_70 result then
    {| difficultyLevel := Z.min (difficultyLevel s2 + 1) 10;
       currentExam := currentExam s2; examResult := examResult s2 |}
  else s2.

Definition handleNewExam (s : State) : State :=
  {| difficultyLevel := difficultyLevel s; currentExam := None; examResult := None |}.

Inductive event : Type :=
  | ExamComplete (result : ExamResult) (exam : Exam)
  | NewExam.

Definition step (s : State) (e : event) : State :=
  match e with
  | ExamComplete result exam => handleExamComplete result exam s
  | NewExam => handleNewExam s
  end.

Definition run (events : list event) (s : State) : State := fold_left step events s.

End App.

Module AppFacts.
Import GeminiService App.

Lemma over_70_spec (result : ExamResult) :
  over_70 result = if Qlt_le_dec 70 (score result) then true else false.
Proof.
  unfold over_70. destruct (Qlt_le_dec 70 (score result)) as [H|H].
  - destruct (Qle_bool (score result) 70) eqn:E; [|reflexivity].
    apply Qle_bool_iff in E. exfalso. exact (Qlt_not_le _ _ H E).
  - apply Qle_bool_iff in H. now rewrite H.
Qed.

Lemma step_range (s : State) (e : event) :
  1 <= difficultyLevel s <= 10 -> 1 <= difficultyLevel (step s e) <= 10.
Proof.
  intros H. destruct e as [result exam|]; cbn; [|exact H].
  unfold handleExamComplete. destruct (over_70 result); cbn; lia.
Qed.

Lemma run_range (events : list event) (s : State) :
  1 <= difficultyLevel s <= 10 -> 1 <= difficultyLevel (run events s) <= 10.
Proof.
  revert s. induction events as [|e l IH]; intros s H; [exact H|].
  cbn. apply IH, step_range, H.
Qed.

(** C9. The difficulty level starts at 1 and stays between 1 and 10 whatever
    exams are completed or started. Completing an exam with a score strictly
    above 70 raises the level by exactly 1, or leaves it at 10; a score of 70
    or less leaves it unchanged. *)
Theorem difficulty_in_range
    (events : list event) (result : ExamResult) (exam : Exam) (s : State) :
  difficultyLevel initial_state = 1 /\
  1 <= difficultyLevel (run events initial_state) <= 10 /\
  difficultyLevel (handleExamComplete result exam s) =
    (if Qlt_le_dec 70 (score result)
     then (if difficultyLevel s <? 10 then difficultyLevel s + 1 else 10)
     else difficultyLevel s) /\
  difficultyLevel (handleNewExam s) = difficultyLevel s.
Proof.
  split; [reflexivity|]. split; [apply run_range; cbn; lia|].
  split; [|reflexivity].
  unfold handleExamComplete. rewrite over_70_spec.
  destruct (Qlt_le_dec 70 (score result)); cbn; [|reflexivity].
  destruct (Z.ltb_spec (difficultyLevel s) 10); lia.
Qed.

Example difficulty_ladder :
  let pass := {| score := 71; feedback := [] |} in
  let fail := {| score := 70; feedback := [] |} in
  let high := {| score := 705 # 10; feedback := [] |} in
  difficultyLevel (run [ExamComplete pass []; ExamComplete fail []; NewExam;
                        ExamComplete high []] initial_state) = 3 /\
  difficultyLevel (run (repeat (ExamComplete pass []) 12) initial_state) = 10.
Proof. split; reflexivity. Qed.

End AppFacts.

(** ** More on the audio helpers *)

Module AudioProperties.
Import JS Base64 Base64Facts Audio AudioFacts.

Lemma length_string_of_list_ascii (l : list ascii) :
  String.length (string_of_list_ascii l) = length l.
Proof. induction l as [|c l IH]; cbn; [reflexivity | now rewrite IH]. Qed.

Lemma padding_plus_3 (n : nat) : padding (S (S (S n))) = padding n.
Proof.
  unfold padding. replace (S (S (S n))) with (n + 1 * 3)%nat by lia.
  now rewrite Nat.Div0.mod_add.
Qed.

(** [btoa] gives four characters for every started group of three bytes. *)
Lemma length_btoa_chars (l : list ascii) :
  length (btoa_chars l) = (4 * ((length l + 2) / 3))%nat.
Proof.
  unfold btoa_chars. rewrite length_app, length_map.
  induction l as [|a|a b|a b c r IH] using list_ind3.
  - reflexivity.
  - destruct a. reflexivity.
  - destruct a, b. reflexivity.
  - destruct a, b, c. cbn [encode_sextets length]. rewrite padding_plus_3.
    replace (S (S (S (length r))) + 2)%nat with (length r + 2 + 1 * 3)%nat by lia.
    rewrite Nat.div_add by lia. lia.
Qed.

(** X1. [decode(encode(bytes))] is [bytes], and the encoded text has four
    characters for every started group of three bytes. *)
Theorem encode_decode_roundtrip (bytes : list Z) :
  Forall is_byte bytes ->
  decode (encode bytes) = Normal bytes /\
  String.length (encode bytes) = (4 * ((length bytes + 2) / 3))%nat.
Proof.
  intros Hb. split; [now apply decode_encode_bytes|].
  rewrite encode_btoa. unfold btoa, binary_of_bytes.
  rewrite length_string_of_list_ascii, list_ascii_of_string_of_list_ascii.
  now rewrite length_btoa_chars, length_map.
Qed.

Lemma encode_decode_roundtrip_witness :
  Forall is_byte [0; 128; 255; 7] /\
  decode (encode [0; 128; 255; 7]) = Normal [0; 128; 255; 7] /\
  String.length (encode [0; 128; 255; 7]) = 8%nat.
Proof.
  assert (H : Forall is_byte [0; 128; 255; 7])
    by (repeat constructor; unfold is_byte; lia).
  split; [exact H|]. exact (encode_decode_roundtrip [0; 128; 255; 7] H).
Defined.

Lemma bytes_of_binary_bytes (s : string) : Forall is_byte (bytes_of_binary s).
Proof.
  unfold bytes_of_binary. apply Forall_map, Forall_forall. intros c _.
  unfold is_byte. pose proof (N_ascii_bounded c). lia.
Qed.

Lemma binary_of_bytes_of_binary (s : string) :
  binary_of_bytes (bytes_of_binary s) = s.
Proof.
  unfold binary_of_bytes, bytes_of_binary. rewrite map_map.
  rewrite <- (string_of_list_ascii_of_string s) at 2. f_equal.
  induction (list_ascii_of_string s) as [|c l IH]; cbn; [reflexivity|].
  now rewrite fromCharCode_charCode, IH.
Qed.

(** X2. [decode] returns bytes only (0..255), one per character of the decoded
    binary string, and the only thing it throws is the
    [InvalidCharacterError] of [atob]. *)
Theorem decode_bytes_or_invalid (base64 : string) :
  match decode base64 with
  | Normal bytes =>
      Forall is_byte bytes /\ atob base64 = Some (binary_of_bytes bytes)
  | Throw e => e = InvalidCharacterError /\ atob base64 = None
  end.
Proof.
  rewrite decode_atob. destruct (atob base64) as [s|]; [|split; reflexivity].
  split; [apply bytes_of_binary_bytes | now rewrite binary_of_bytes_of_binary].
Qed.

Lemma nth_byte (bytes : list Z) (i : nat) :
  Forall is_byte bytes -> is_byte (nth i bytes 0).
Proof.
  intros H. destruct (nth_in_or_default i bytes 0) as [Hin | Hd].
  - rewrite Forall_forall in H. apply H. now apply list_elem_of_In.
  - rewrite Hd. unfold is_byte. lia.
Qed.

Lemma Int16Array_get_range (bytes : list Z) (i : nat) :
  Forall is_byte bytes -> -32768 <= Int16Array_get bytes i < 32768.
Proof.
  intros H. unfold Int16Array_get.
  pose proof (nth_byte bytes (2 * i) H) as H0.
  pose proof (nth_byte bytes (2 * i + 1) H) as H1. unfold is_byte in *.
  destruct (Z.leb_spec 32768 (nth (2 * i) bytes 0 + 256 * nth (2 * i + 1) bytes 0));
    lia.
Qed.

Lemma sample_range (k : Z) :
  -32768 <= k < 32768 ->
  (-1 <= inject_Z k / 32768)%Q /\ (inject_Z k / 32768 < 1)%Q.
Proof.
  intros H. unfold Qle, Qlt, Qdiv, Qmult, Qinv, inject_Z. cbn. lia.
Qed.

(** X3. [decodeAudioData] at one channel, on bytes: an odd byte count throws
    [RangeError], no bytes at all throws [NotSupportedError]; otherwise the
    buffer has one frame per two bytes, in one channel, at the rate asked for,
    and every sample lies in [-1, 1). *)
Theorem decodeAudioData_mono_buffer (bytes : list Z) (rate : Z) :
  Forall is_byte bytes ->
  match decodeAudioData bytes rate 1 with
  | Normal buffer =>
      Nat.even (length bytes) = true /\ bytes <> [] /\
      sampleRate buffer = rate /\ (2 * frames buffer = length bytes)%nat /\
      exists channel,
        channels buffer = [channel] /\ length channel = frames buffer /\
        Forall (fun x => (-1 <= x)%Q /\ (x < 1)%Q) channel
  | Throw e =>
      (e = RangeError /\ Nat.even (length bytes) = false) \/
      (e = NotSupportedError /\ bytes = [])
  end.
Proof.
  intros Hb. rewrite decodeAudioData_mono. unfold Int16Array_length.
  destruct (Nat.even (length bytes)) eqn:Hev; [|now left].
  apply Nat.even_spec in Hev. destruct Hev as [k Hk]. rewrite Hk.
  rewrite Nat.mul_comm, Nat.div_mul by lia.
  destruct k as [|k]; cbn [Nat.eqb].
  - right. split; [reflexivity|]. destruct bytes; [reflexivity | discriminate].
  - cbn [sampleRate frames channels].
    split; [reflexivity|]. split; [now destruct bytes|].
    split; [reflexivity|]. split; [lia|].
    exists (samples_of bytes). split; [reflexivity|].
    unfold samples_of, Int16Array_length. rewrite Hk.
    rewrite (Nat.mul_comm 2), Nat.div_mul by lia.
    split; [now rewrite length_map, length_seq|].
    apply Forall_map, Forall_forall. intros i _.
    apply sample_range, Int16Array_get_range, Hb.
Qed.

Lemma decodeAudioData_mono_buffer_witness :
  Forall is_byte [0; 128; 255; 127] /\
  match decodeAudioData [0; 128; 255; 127] 24000 1 with
  | Normal buffer =>
      Nat.even 4 = true /\ [0; 128; 255; 127] <> [] /\
      sampleRate buffer = 24000 /\ (2 * frames buffer = 4)%nat /\
      exists channel,
        channels buffer = [channel] /\ length channel = frames buffer /\
        Forall (fun x => (-1 <= x)%Q /\ (x < 1)%Q) channel
  | Throw e =>
      (e = RangeError /\ Nat.even 4 = false) \/
      (e = NotSupportedError /\ [0; 128; 255; 127] = [])
  end.
Proof.
  assert (H : Forall is_byte [0; 128; 255; 127])
    by (repeat constructor; unfold is_byte; lia).
  split; [exact H|]. exact (decodeAudioData_mono_buffer [0; 128; 255; 127] 24000 H).
Defined.

Lemma roundtrip_within_witness :
  [(1 # 2)%Q; (-1)%Q; (32767 # 32768)%Q] <> [] /\
  Forall (fun x => (-1 <= x)%Q /\ (x < 1)%Q) [(1 # 2)%Q; (-1)%Q; (32767 # 32768)%Q] /\
  exists buffer received,
    roundtrip [(1 # 2)%Q; (-1)%Q; (32767 # 32768)%Q] = Normal buffer /\
    frames buffer = 3%nat /\
    channels buffer = [received] /\
    Forall2 (fun x y => (Qabs (y - x) < 1 # 32768)%Q)
            [(1 # 2)%Q; (-1)%Q; (32767 # 32768)%Q] received.
Proof.
  assert (Hne : [(1 # 2)%Q; (-1)%Q; (32767 # 32768)%Q] <> []) by discriminate.
  assert (Hin : Forall (fun x => (-1 <= x)%Q /\ (x < 1)%Q)
                       [(1 # 2)%Q; (-1)%Q; (32767 # 32768)%Q]).
  { repeat constructor; unfold Qle, Qlt; cbn; lia. }
  split; [exact Hne|]. split; [exact Hin|].
  exact (roundtrip_within _ Hne Hin).
Defined.

(** A sample that came out of a decoded chunk is encoded to the very int16
    it was decoded from. *)
Lemma pcm16_quantize (x : Q) : pcm16 (quantize x) = pcm16 x.
Proof.
  unfold quantize. set (k := pcm16 x).
  assert (Hk : -32768 <= k < 32768) by apply ToInt16_range.
  unfold pcm16, ToInt16, Qdiv, Qmult, Qinv, inject_Z. cbn [Qnum Qden].
  replace (k * 1 * 32768) with (k * 32768) by lia.
  change (Z.pos (1 * 32768 * 1)) with 32768.
  rewrite Z.quot_mul by lia.
  destruct (Z.leb_spec 32768 (k mod 65536));
    Z.to_euclidean_division_equations; lia.
Qed.

(** X5. Re-encoding is lossless: the chunk made of the samples a chunk decodes
    to is that chunk again, for every frame, full-scale samples included. *)
Theorem createBlob_of_decoded (samples : list Q) :
  createBlob (map quantize samples) = createBlob samples /\
  roundtrip (map quantize samples) = roundtrip samples.
Proof.
  assert (Hpcm : pcm_s16le (map quantize samples) = pcm_s16le samples).
  { induction samples as [|x l IH]; [reflexivity|].
    cbn [map pcm_s16le flat_map]. unfold pcm_s16le in IH.
    now rewrite pcm16_quantize, IH. }
  assert (Hblob : createBlob (map quantize samples) = createBlob samples).
  { pose proof (createBlob_data (map quantize samples)) as H1.
    pose proof (createBlob_data samples) as H2. rewrite Hpcm in H1.
    destruct (createBlob (map quantize samples)) as [d1 m1] eqn:E1.
    destruct (createBlob samples) as [d2 m2] eqn:E2.
    assert (Hm1 : m1 = "audio/pcm;rate=16000"%string)
      by (now apply (f_equal mimeType) in E1).
    assert (Hm2 : m2 = "audio/pcm;rate=16000"%string)
      by (now apply (f_equal mimeType) in E2).
    cbn [data] in H1, H2. congruence. }
  split; [exact Hblob|]. unfold roundtrip. now rewrite Hblob.
Qed.

End AudioProperties.

(** ** More on the live conversation *)

Module LiveSessionProperties.
Import JS JS.Notations Double DoubleFacts Audio AudioFacts TutorPanel TutorPanelFacts.

(** *** Outbound audio *)

(** The wait list with more entries at its end. *)
Definition queue (ws : list (handle * waiter)) (s : State) : State :=
  set_world (set_waiters (waiters (world s) ++ ws) (world s)) s.

Lemma queue_nil (s : State) : queue [] s = s.
Proof.
  destruct s as [rec err ts sp ms refs tr cl [fr st br ws eff]].
  unfold queue. cbn. now rewrite app_nil_r.
Qed.

Lemma queue_queue (a b : list (handle * waiter)) (s : State) :
  queue b (queue a s) = queue (a ++ b) s.
Proof. unfold queue. cbn. now rewrite app_assoc. Qed.

Lemma step_audioprocess_fulfilled (s : State) (p session : handle) (frame : list Q) :
  sessionPromiseRef s = Some p ->
  settled (world s) !! p = Some (Fulfilled session) ->
  step s (AudioProcess frame) = log (SendRealtimeInput session (createBlob frame)) s.
Proof.
  intros Hp Hs. unfold step, handle_event, exec, spawn, try_catch, onaudioprocess,
    bind, gets, perform, modify.
  cbn [fst snd]. now rewrite Hp, Hs.
Qed.

Lemma step_audioprocess_pending (s : State) (p : handle) (frame : list Q) :
  sessionPromiseRef s = Some p ->
  settled (world s) !! p = None ->
  step s (AudioProcess frame) = queue [(p, ThenSend (createBlob frame))] s.
Proof.
  intros Hp Hs. unfold step, handle_event, exec, spawn, try_catch, onaudioprocess,
    bind, gets, perform, modify.
  cbn [fst snd]. now rewrite Hp, Hs.
Qed.

Lemma step_audioprocess_idle (s : State) (frame : list Q) :
  sessionPromiseRef s = None -> step s (AudioProcess frame) = s.
Proof.
  intros Hp. unfold step, handle_event, exec, spawn, try_catch, onaudioprocess,
    bind, gets.
  cbn [fst snd]. now rewrite Hp.
Qed.

Definition captured (frames : list (list Q)) : list event := map AudioProcess frames.

(** X6. While the session is open, every captured frame is sent, encoded by
    [createBlob], in the order of capture, and nothing else happens. *)
Theorem frames_sent_in_capture_order
    (s : State) (p session : handle) (frames : list (list Q)) :
  sessionPromiseRef s = Some p ->
  settled (world s) !! p = Some (Fulfilled session) ->
  effects (world (run (captured frames) s))
  = effects (world s)
    ++ map (fun frame => SendRealtimeInput session (createBlob frame)) frames.
Proof.
  revert s. induction frames as [|frame frames IH]; intros s Hp Hs.
  - cbn. now rewrite app_nil_r.
  - cbn [captured map run fold_left].
    rewrite (step_audioprocess_fulfilled s p session frame Hp Hs).
    fold (run (captured frames) (log (SendRealtimeInput session (createBlob frame)) s)).
    rewrite IH by assumption. cbn. now rewrite <- app_assoc.
Qed.

Lemma frames_sent_in_capture_order_witness :
  let s := run [Toggle None;
                MediaAnswer {| getUserMedia := None; newInputContext := None;
                               newOutputContext := None |};
                Open; Settle 3%nat (Fulfilled 100%nat)] initial_state in
  sessionPromiseRef s = Some 3%nat /\
  settled (world s) !! 3%nat = Some (Fulfilled 100%nat) /\
  effects (world (run (captured [[0%Q]; [1 # 2]]) s))
  = effects (world s)
    ++ map (fun frame => SendRealtimeInput 100%nat (createBlob frame))
           [[0%Q]; [1 # 2]].
Proof.
  intros s.
  assert (Hp : sessionPromiseRef s = Some 3%nat) by (vm_compute; reflexivity).
  assert (Hs : settled (world s) !! 3%nat = Some (Fulfilled 100%nat))
    by (vm_compute; reflexivity).
  split; [exact Hp|]. split; [exact Hs|].
  exact (frames_sent_in_capture_order s 3%nat 100%nat [[0%Q]; [1 # 2]] Hp Hs).
Defined.

Lemma run_captured_pending (s : State) (p : handle) (frames : list (list Q)) :
  sessionPromiseRef s = Some p ->
  settled (world s) !! p = None ->
  run (captured frames) s
  = queue (map (fun frame => (p, ThenSend (createBlob frame))) frames) s.
Proof.
  revert s. induction frames as [|frame frames IH]; intros s Hp Hs.
  - cbn. now rewrite queue_nil.
  - cbn [captured map run fold_left].
    rewrite (step_audioprocess_pending s p frame Hp Hs).
    fold (run (captured frames) (queue [(p, ThenSend (createBlob frame))] s)).
    rewrite IH by assumption. now rewrite queue_queue.
Qed.

(** What the [then] callbacks of queued frames do once the promise settles. *)
Definition flushed (o : outcome) (frame : list Q) : effect :=
  match o with
  | Fulfilled session => SendRealtimeInput session (createBlob frame)
  | Rejected reason => UnhandledRejection reason
  end.

Lemma run_waiters_sends (o : outcome) (frames : list (list Q)) (s : State) :
  run_waiters o (map (fun frame => ThenSend (createBlob frame)) frames) s
  = (Normal tt,
     set_world (set_effects (effects (world s) ++ map (flushed o) frames) (world s)) s).
Proof.
  revert s. induction frames as [|frame frames IH]; intros s.
  - cbn. destruct s as [rec err ts sp ms refs tr cl [fr st br ws eff]].
    cbn. now rewrite app_nil_r.
  - cbn [map run_waiters]. unfold bind.
    assert (H : run_waiter o (ThenSend (createBlob frame)) s
                = (Normal tt, log (flushed o frame) s)) by (destruct o; reflexivity).
    rewrite H, IH. cbn. now rewrite <- app_assoc.
Qed.

(** X7. Frames captured while the session is still opening are kept, and sent
    in the order of capture when it opens; when the opening fails none is
    sent, and each leaves a rejection nobody handles. *)
Theorem frames_queued_until_open
    (s : State) (p : handle) (o : outcome) (frames : list (list Q)) :
  sessionPromiseRef s = Some p ->
  settled (world s) !! p = None ->
  waiters (world s) = [] ->
  let s' := run (captured frames ++ [Settle p o]) s in
  effects (world s') = effects (world s) ++ map (flushed o) frames /\
  waiters (world s') = [] /\
  settled (world s') !! p = Some o.
Proof.
  intros Hp Hs Hw. cbv zeta. unfold run. rewrite fold_left_app.
  fold (run (captured frames) s). rewrite (run_captured_pending s p frames Hp Hs).
  cbn [fold_left]. unfold step, handle_event.
  set (q := queue _ s).
  assert (Hq : waiters (world q)
               = map (fun frame => (p, ThenSend (createBlob frame))) frames).
  { subst q. cbn. now rewrite Hw. }
  assert (Hk : settled (world q) !! p = None) by exact Hs.
  assert (Hall : forall l : list (list Q),
             List.filter (fun pw : handle * waiter => Nat.eqb (fst pw) p)
               (map (fun frame => (p, ThenSend (createBlob frame))) l)
             = map (fun frame => (p, ThenSend (createBlob frame))) l).
  { induction l as [|x l IH]; [reflexivity|]. cbn. now rewrite Nat.eqb_refl, IH. }
  assert (Hnone : forall l : list (list Q),
             List.filter (fun pw : handle * waiter => negb (Nat.eqb (fst pw) p))
               (map (fun frame => (p, ThenSend (createBlob frame))) l) = []).
  { induction l as [|x l IH]; [reflexivity|]. cbn. now rewrite Nat.eqb_refl. }
  assert (Hsettle : settle p o q
            = run_waiters o (map (fun frame => ThenSend (createBlob frame)) frames)
                (set_world (set_waiters []
                   (set_settled (<[p := o]> (settled (world q))) (world q))) q)).
  { unfold settle, bind, gets, modify. rewrite Hk. cbn [fst snd].
    rewrite Hq, Hall, Hnone, map_map. reflexivity. }
  unfold exec, spawn, try_catch. rewrite Hsettle, run_waiters_sends. cbn.
  repeat split. apply lookup_insert_eq.
Qed.

Lemma frames_queued_until_open_witness :
  let s := run [Toggle None;
                MediaAnswer {| getUserMedia := None; newInputContext := None;
                               newOutputContext := None |}; Open] initial_state in
  sessionPromiseRef s = Some 3%nat /\
  settled (world s) !! 3%nat = None /\
  waiters (world s) = [] /\
  effects (world (run (captured [[0%Q]; [1 # 2]] ++ [Settle 3%nat (Fulfilled 100%nat)]) s))
  = effects (world s) ++ map (flushed (Fulfilled 100%nat)) [[0%Q]; [1 # 2]].
Proof.
  intros s.
  assert (Hp : sessionPromiseRef s = Some 3%nat) by (vm_compute; reflexivity).
  assert (Hs : settled (world s) !! 3%nat = None) by (vm_compute; reflexivity).
  assert (Hw : waiters (world s) = []) by (vm_compute; reflexivity).
  split; [exact Hp|]. split; [exact Hs|]. split; [exact Hw|].
  exact (proj1 (frames_queued_until_open s 3%nat (Fulfilled 100%nat)
                  [[0%Q]; [1 # 2]] Hp Hs Hw)).
Defined.

Lemma step_unmount_known (s : State) :
  promise_known s ->
  exists o, step s Unmount = stopped o s /\
            sessionPromiseRef (stopped o s) = None.
Proof.
  intros Hk. destruct (stopConversation_known s Hk) as (o & Heq & Ho).
  exists o. unfold step, handle_event, exec.
  rewrite (spawn_normal _ _ _ Heq). split; [reflexivity|].
  destruct (stopped_refs o s) as (_ & _ & _ & H). rewrite H.
  destruct o; [reflexivity | exact Ho].
Qed.

(** X8. Once [stopConversation] has run through, frames that are still captured
    are not sent and change nothing. *)
Theorem no_frame_sent_after_stop (s : State) (frames : list (list Q)) :
  promise_known s ->
  run (Unmount :: captured frames) s = step s Unmount.
Proof.
  intros Hk. destruct (step_unmount_known s Hk) as (o & Heq & Hnone).
  cbn [run fold_left]. fold (run (captured frames) (step s Unmount)).
  rewrite Heq. clear Heq. induction frames as [|frame frames IH]; [reflexivity|].
  cbn [captured map run fold_left].
  rewrite (step_audioprocess_idle _ frame Hnone). exact IH.
Qed.

Lemma no_frame_sent_after_stop_witness :
  let s := run [Toggle None;
                MediaAnswer {| getUserMedia := None; newInputContext := None;
                               newOutputContext := None |};
                Open; Settle 3%nat (Fulfilled 100%nat)] initial_state in
  promise_known s /\
  run (Unmount :: captured [[0%Q]; [1 # 2]]) s = step s Unmount.
Proof.
  intros s.
  assert (Hk : promise_known s) by (vm_compute; eexists; reflexivity).
  split; [exact Hk|]. exact (no_frame_sent_after_stop s [[0%Q]; [1 # 2]] Hk).
Defined.

(** *** Stopping while the session is still opening *)

(** X9. [stopConversation] is called while the promise of [ai.live.connect] is
    pending; the session then opens ([onopen] builds the source and the
    script processor) and the promise settles. The suspended call then runs
    through and releases everything, the two nodes built by [onopen]
    included. *)
Theorem stop_during_opening
    (s : State) (p ms : handle) (o : outcome) :
  sessionPromiseRef s = Some p ->
  settled (world s) !! p = None ->
  waiters (world s) = [] ->
  mediaStreamRef s = Some ms ->
  let s' := run [Unmount; Open; Settle p o] s in
  released s' /\ isRecording s' = false /\
  In (TrackStop ms) (effects (world s')) /\
  In (Disconnect (fresh (world s))) (effects (world s')) /\
  In (Disconnect (S (fresh (world s)))) (effects (world s')) /\
  In (DetachAudioProcess (S (fresh (world s)))) (effects (world s')) /\
  (forall ctx, input (audioContextRefs s) = Some ctx -> context_closed ctx s' = true) /\
  (forall ctx, output (audioContextRefs s) = Some ctx -> context_closed ctx s' = true) /\
  (forall e, In (UnhandledRejection e) (effects (world s')) ->
             In (UnhandledRejection e) (effects (world s))).
Proof.
  intros Hp Hs Hw Hms. cbv zeta. unfold run. cbn [fold_left].
  assert (H1 : step s Unmount = suspended p s).
  { unfold step, handle_event, exec. erewrite spawn_normal; [reflexivity|].
    now rewrite stopConversation_eq, Hp, Hs. }
  rewrite H1.
  set (f := fresh (world s)).
  set (opened :=
         set_audioContextRefs
           {| input := input (audioContextRefs s);
              output := output (audioContextRefs s);
              scriptProcessor := Some (S f); source := Some f |}
           (set_world (set_fresh (S (S f)) (world (suspended p s))) (suspended p s))).
  assert (H2 : step (suspended p s) Open = opened).
  { unfold step, handle_event, exec, spawn, try_catch, onopen, bind, gets, alloc,
      modify. cbn [fst snd mediaStreamRef suspended set_world set_isRecording].
    rewrite Hms. reflexivity. }
  rewrite H2.
  set (ready := set_world (set_waiters []
                  (set_settled (<[p := o]> (settled (world opened))) (world opened)))
                  opened).
  assert (H3 : step opened (Settle p o)
               = release (set_sessionPromiseRef None (closing o ready))).
  { unfold step, handle_event, exec. erewrite spawn_normal; [reflexivity|].
    unfold settle, bind, gets, modify.
    change (settled (world opened) !! p) with (settled (world s) !! p). rewrite Hs.
    cbn [fst snd].
    change (waiters (world opened)) with (waiters (world s) ++ [(p, AwaitInStop)]).
    rewrite Hw. cbn [app List.filter fst negb map snd]. rewrite Nat.eqb_refl.
    cbn [negb map snd run_waiters run_waiter]. unfold bind.
    rewrite (spawn_normal _ _ _ (stop_resume_eq o _)). reflexivity. }
  rewrite H3.
  set (x := set_sessionPromiseRef None (closing o ready)).
  destruct (closing_refs o ready) as (_ & C2 & C3 & C4).
  assert (Xms : mediaStreamRef x = Some ms) by (subst x; cbn; rewrite C2; exact Hms).
  assert (Xrefs : audioContextRefs x
                  = {| input := input (audioContextRefs s);
                       output := output (audioContextRefs s);
                       scriptProcessor := Some (S f); source := Some f |})
    by (subst x; cbn; rewrite C3; reflexivity).
  destruct (release_refs x) as (R1 & R2 & R3 & R4).
  destruct (release_let_go x) as (L1 & L2 & L3 & L4 & L5).
  split; [unfold released; now rewrite R1, R2, R3|].
  split; [rewrite R4; subst x; cbn; now rewrite C4|].
  split; [now apply L1|].
  split; [apply L5; now rewrite Xrefs|].
  split; [apply (L4 (S f)); now rewrite Xrefs|].
  split; [apply (L4 (S f)); now rewrite Xrefs|].
  split; [intros ctx Hc; apply L2; now rewrite Xrefs|].
  split; [intros ctx Hc; apply L3; now rewrite Xrefs|].
  intros e He.
  assert (G : grows ready (release x)).
  { eapply grows_trans; [apply closing_grows|].
    eapply grows_trans; [apply grows_set_sessionPromiseRef | apply release_grows]. }
  destruct G as [(added & Hadd & Hq) _]. rewrite Hadd in He.
  apply in_app_or in He. destruct He as [He|He]; [exact He|].
  rewrite Forall_forall in Hq. apply list_elem_of_In in He.
  destruct (Hq _ He).
Qed.

Lemma stop_during_opening_witness :
  let s := run [Toggle None;
                MediaAnswer {| getUserMedia := None; newInputContext := None;
                               newOutputContext := None |}] initial_state in
  sessionPromiseRef s = Some 3%nat /\
  settled (world s) !! 3%nat = None /\
  waiters (world s) = [] /\
  mediaStreamRef s = Some 0%nat /\
  released (run [Unmount; Open; Settle 3%nat (Fulfilled 100%nat)] s).
Proof.
  intros s.
  assert (Hp : sessionPromiseRef s = Some 3%nat) by (vm_compute; reflexivity).
  assert (Hs : settled (world s) !! 3%nat = None) by (vm_compute; reflexivity).
  assert (Hw : waiters (world s) = []) by (vm_compute; reflexivity).
  assert (Hms : mediaStreamRef s = Some 0%nat) by (vm_compute; reflexivity).
  split; [exact Hp|]. split; [exact Hs|]. split; [exact Hw|]. split; [exact Hms|].
  exact (proj1 (stop_during_opening s 3%nat 0%nat (Fulfilled 100%nat) Hp Hs Hw Hms)).
Defined.

(** *** Transcript fragments and the transcript log *)

Lemma append_assoc (a b c : string) : ((a ++ b) ++ c)%string = (a ++ (b ++ c))%string.
Proof.
  induction a as [|x a IH]; [reflexivity|].
  change (String x ((a ++ b) ++ c)%string = String x (a ++ (b ++ c))%string).
  now rewrite IH.
Qed.

(** Fragments in the order received, joined. *)
Fixpoint joined (fragments : list string) : string :=
  match fragments with
  | [] => ""
  | f :: rest => (f ++ joined rest)%string
  end.

Definition inputs (ms : list (MessageEnv * LiveServerMessage)) : list string :=
  map (fun em => fragment_in (snd em)) ms.

Definition outputs (ms : list (MessageEnv * LiveServerMessage)) : list string :=
  map (fun em => fragment_out (snd em)) ms.

(** What a message leaves in the transcript state, audio lines and task
    wrapper included. *)
Lemma step_message_transcripts env message s :
  transcripts (step s (Message env message))
  = transcripts (exec (onmessage_transcripts env message) s) /\
  transcriptRefs (step s (Message env message))
  = transcriptRefs (exec (onmessage_transcripts env message) s).
Proof.
  unfold step, handle_event.
  destruct (spawn_frame (onmessage env message) s) as (_ & _ & Ht & Hr).
  rewrite Ht, Hr, exec_onmessage.
  destruct (onmessage_audio_step env message
              (exec (onmessage_transcripts env message) s)) as (_ & Ht' & Hr').
  now rewrite Ht', Hr'.
Qed.

Lemma run_fragments (ms : list (MessageEnv * LiveServerMessage)) (s : State) :
  Forall (fun em => turn_complete (snd em) = false) ms ->
  transcripts (run (messages ms) s) = transcripts s /\
  transcriptRefs (run (messages ms) s)
  = {| currentInput := (currentInput (transcriptRefs s) ++ joined (inputs ms))%string;
       currentOutput := (currentOutput (transcriptRefs s) ++ joined (outputs ms))%string |}.
Proof.
  intros H. revert s. induction H as [|[env m] ms Hm _ IH]; intros s.
  - cbn. rewrite !append_empty_r. split; [reflexivity | now destruct (transcriptRefs s)].
  - cbn [messages map run fold_left fst snd].
    fold (messages ms). fold (run (messages ms) (step s (Message env m))).
    destruct (IH (step s (Message env m))) as [Ht Hr]. rewrite Ht, Hr.
    destruct (step_message_transcripts env m s) as [Ht' Hr']. rewrite Ht', Hr'.
    unfold exec. rewrite onmessage_transcripts_spec. cbn in Hm. rewrite Hm.
    cbn [snd transcripts transcriptRefs set_transcriptRefs currentInput currentOutput
         inputs outputs map joined].
    now rewrite !append_assoc.
Qed.

(** X10. The entries of a turn carry every fragment received since the buffers
    were last emptied, each direction joined in the order of receipt: after
    any messages without the turn-complete signal and then one with it, the
    log has grown by the user entry (when the joined input is not empty) and
    the tutor entry (when the joined output is not empty), and both buffers
    are empty. *)
Theorem turn_collects_fragments
    (ms : list (MessageEnv * LiveServerMessage)) (env : MessageEnv)
    (last : LiveServerMessage) (s : State) :
  Forall (fun em => turn_complete (snd em) = false) ms ->
  turn_complete last = true ->
  let s' := run (messages (ms ++ [(env, last)])) s in
  let fullInput := (currentInput (transcriptRefs s)
                    ++ joined (inputs (ms ++ [(env, last)])))%string in
  let fullOutput := (currentOutput (transcriptRefs s)
                     ++ joined (outputs (ms ++ [(env, last)])))%string in
  exists added,
    transcripts s' = transcripts s ++ added /\
    map (fun t => (speaker t, text t, image t)) added =
      (if (fullInput =? "")%string then [] else [(user, fullInput, None)])
      ++ (if (fullOutput =? "")%string then [] else [(tutor, fullOutput, None)]) /\
    transcriptRefs s' = empty_transcriptRefs.
Proof.
  intros Hms Hlast. cbv zeta.
  unfold messages. rewrite map_app. cbn [map fst snd]. rewrite run_snoc.
  fold (messages ms).
  destruct (run_fragments ms s Hms) as [Ht Hr].
  destruct (step_message_transcripts env last (run (messages ms) s)) as [Ht' Hr'].
  rewrite Ht', Hr'. unfold exec. rewrite onmessage_transcripts_spec, Hlast.
  cbn [snd transcripts transcriptRefs set_transcriptRefs set_transcripts].
  rewrite Ht, Hr. cbn [currentInput currentOutput].
  assert (Hj : forall l x, joined (l ++ [x]) = (joined l ++ x)%string).
  { induction l as [|y l IH]; intros x; cbn [app joined].
    - now rewrite append_empty_r.
    - now rewrite IH, append_assoc. }
  unfold inputs, outputs. rewrite !map_app. cbn [map snd]. rewrite !Hj.
  fold (inputs ms). fold (outputs ms). rewrite <- !append_assoc.
  eexists. split; [reflexivity|]. split; [|reflexivity].
  unfold turn_entries. rewrite !truthy_eqb, map_app.
  destruct (_ =? "")%string, (_ =? "")%string; reflexivity.
Qed.

Definition heard (direction : bool) (fragment : string) : MessageEnv * LiveServerMessage :=
  ({| Date_now := 0; currentTime := 0 |},
   {| serverContent :=
        Some {| outputTranscription :=
                  if direction then None
                  else Some {| transcription_text := Some fragment |};
                inputTranscription :=
                  if direction then Some {| transcription_text := Some fragment |}
                  else None;
                turnComplete := false; modelTurn := None |} |}).

Lemma turn_collects_fragments_witness :
  let ms := [heard true "Hel"; heard false "Hi "; heard true "lo"; heard false "there"] in
  let last := {| serverContent :=
                   Some {| outputTranscription := None; inputTranscription := None;
                           turnComplete := true; modelTurn := None |} |} in
  let env := {| Date_now := 5; currentTime := 0 |} in
  Forall (fun em => turn_complete (snd em) = false) ms /\
  turn_complete last = true /\
  exists added,
    transcripts (run (messages (ms ++ [(env, last)])) initial_state) = [] ++ added /\
    map (fun t => (speaker t, text t, image t)) added =
      [(user, "Hello"%string, None); (tutor, "Hi there"%string, None)] /\
    transcriptRefs (run (messages (ms ++ [(env, last)])) initial_state)
    = empty_transcriptRefs.
Proof.
  intros ms last env.
  assert (H1 : Forall (fun em => turn_complete (snd em) = false) ms)
    by (repeat constructor).
  assert (H2 : turn_complete last = true) by reflexivity.
  split; [exact H1|]. split; [exact H2|].
  exact (turn_collects_fragments ms env last initial_state H1 H2).
Defined.

(** What an event adds to the transcript log. *)
Definition logged (e : event) (s : State) : list Transcript :=
  match e with
  | Message env message =>
      if turn_complete message then
        turn_entries (Date_now env)
          (currentInput (transcriptRefs s) ++ fragment_in message)%string
          (currentOutput (transcriptRefs s) ++ fragment_out message)%string
      else []
  | _ => []
  end.

Lemma spawn_stop_transcripts (s : State) :
  transcripts (exec (spawn stopConversation) s) = transcripts s.
Proof.
  unfold exec. erewrite spawn_normal by apply stopConversation_eq. cbn [snd].
  destruct (sessionPromiseRef s) as [p|]; [destruct (settled (world s) !! p)|];
    try apply stopped_grows; reflexivity.
Qed.

Lemma start_catch_transcripts (err : exn) (s : State) :
  transcripts (exec (start_catch err) s) = transcripts s.
Proof.
  unfold start_catch, bind, modify. unfold exec at 1. cbn [fst snd].
  set (s0 := set_error _ s).
  change (transcripts (exec (spawn stopConversation) s0) = transcripts s0).
  apply spawn_stop_transcripts.
Qed.

Lemma start_begin_transcripts (genai : option exn) (s : State) :
  transcripts (exec (start_begin genai) s) = transcripts s.
Proof.
  unfold start_begin, bind, modify, ret. unfold exec at 1. cbn [fst snd].
  destruct genai as [e|]; [|reflexivity].
  set (s0 := set_transcriptRefs _ _).
  pose proof (start_catch_transcripts e s0) as H. unfold exec in H.
  destruct (start_catch e s0) as [[[]|x] s1]; exact H.
Qed.

Lemma start_resume_transcripts (env : StartEnv) (s : State) :
  transcripts (exec (start_resume env) s) = transcripts s.
Proof.
  destruct env as [[e1|] [e2|] [e3|]];
    unfold start_resume, try_catch, bind, construct, alloc, modify, throw;
    unfold exec at 1;
    cbn [fst snd getUserMedia newInputContext newOutputContext];
    try reflexivity;
    match goal with
    | |- transcripts (snd (start_catch ?e ?x)) = _ =>
        exact (start_catch_transcripts e x)
    end.
Qed.

Lemma run_waiters_transcripts (o : outcome) (ws : list waiter) (s : State) :
  transcripts (exec (run_waiters o ws) s) = transcripts s.
Proof.
  revert s. induction ws as [|w ws IH]; intros s; [reflexivity|].
  rewrite exec_run_waiters_cons, IH. unfold exec.
  destruct w as [|media]; cbn [run_waiter].
  - rewrite (spawn_normal _ _ _ (stop_resume_eq o s)). cbn [snd].
    assert (G : grows s (release (set_sessionPromiseRef None (closing o s)))).
    { eapply grows_trans; [apply closing_grows|].
      eapply grows_trans; [apply grows_set_sessionPromiseRef | apply release_grows]. }
    apply G.
  - destruct o; reflexivity.
Qed.

Lemma settle_transcripts (p : handle) (o : outcome) (s : State) :
  transcripts (exec (settle p o) s) = transcripts s.
Proof.
  unfold settle, bind, gets, modify. unfold exec at 1. cbn [fst snd].
  destruct (settled (world s) !! p); [reflexivity|].
  match goal with
  | |- transcripts (snd (run_waiters ?o ?ws ?x)) = _ =>
      exact (run_waiters_transcripts o ws x)
  end.
Qed.

Lemma spawn_transcripts (task : M State unit) (s : State) :
  transcripts (exec (spawn task) s) = transcripts (exec task s).
Proof. apply spawn_frame. Qed.

Lemma step_logged (s : State) (e : event) :
  transcripts (step s e) = transcripts s ++ logged e s.
Proof.
  destruct e as [genai|env|p o| |frame|env message|node| | |]; cbn [logged];
    rewrite ?app_nil_r.
  - unfold step, handle_event. rewrite spawn_transcripts.
    unfold handleToggleRecording, bind, gets, ret. unfold exec at 1. cbn [fst snd].
    destruct (isRecording s).
    + pose proof (spawn_stop_transcripts s) as H. unfold exec in H.
      destruct (spawn stopConversation s) as [[[]|x] s1]; exact H.
    + pose proof (start_begin_transcripts genai s) as H. unfold exec in H.
      destruct (start_begin genai s) as [[b|x] s1]; exact H.
  - unfold step, handle_event. rewrite spawn_transcripts.
    apply start_resume_transcripts.
  - unfold step, handle_event. rewrite spawn_transcripts. apply settle_transcripts.
  - unfold step, handle_event. rewrite spawn_transcripts.
    unfold exec, onopen, bind, gets, alloc, modify, throw. cbn [fst snd].
    destruct (mediaStreamRef s); reflexivity.
  - unfold step, handle_event. rewrite spawn_transcripts.
    unfold exec, onaudioprocess, bind, gets, perform, modify. cbn [fst snd].
    destruct (sessionPromiseRef s) as [p|]; [|reflexivity].
    destruct (settled (world s) !! p) as [[session|reason]|]; reflexivity.
  - destruct (step_message_transcripts env message s) as [Ht _]. rewrite Ht.
    unfold exec. rewrite onmessage_transcripts_spec.
    destruct (turn_complete message); cbn; [reflexivity | now rewrite app_nil_r].
  - reflexivity.
  - unfold step, handle_event. rewrite spawn_transcripts.
    unfold onerror, bind, modify. unfold exec at 1. cbn [fst snd].
    set (s0 := set_error _ s).
    change (transcripts (exec (spawn stopConversation) s0) = transcripts s0).
    apply spawn_stop_transcripts.
  - reflexivity.
  - unfold step, handle_event. rewrite spawn_transcripts.
    pose proof (spawn_stop_transcripts s) as H.
    unfold exec in *. unfold spawn, try_catch in H.
    destruct (stopConversation s) as [[[]|x] s1]; exact H.
Qed.

(** X11. The transcript log of the live conversation is append-only: over every
    sequence of events (clicks, answers of the platform, callbacks of the
    session, unmount) the log afterwards is the log before with entries added
    at its end; and only messages with the turn-complete signal add any. *)
Theorem transcript_log_append_only (events : list event) (s : State) :
  exists added,
    transcripts (run events s) = transcripts s ++ added /\
    (Forall (fun e => match e with
                      | Message _ message => turn_complete message = false
                      | _ => True
                      end) events -> added = []).
Proof.
  revert s. induction events as [|e events IH]; intros s.
  - exists []. split; [now rewrite app_nil_r | reflexivity].
  - cbn [run fold_left]. fold (run events (step s e)).
    destruct (IH (step s e)) as (added & Ha & Hnone).
    exists (logged e s ++ added). rewrite Ha, step_logged, app_assoc.
    split; [reflexivity|].
    intros Hall. inversion Hall as [|? ? He Hrest]; subst.
    rewrite (Hnone Hrest), app_nil_r.
    destruct e; try reflexivity. cbn [logged]. now rewrite He.
Qed.

(** *** Witnesses for the teardown and scheduling lemmas *)

Definition session_open : State :=
  run [Toggle None;
       MediaAnswer {| getUserMedia := None; newInputContext := None;
                      newOutputContext := None |};
       Open; Settle 3%nat (Fulfilled 100%nat)] initial_state.

Definition session_opening : State :=
  run [Toggle None;
       MediaAnswer {| getUserMedia := None; newInputContext := None;
                      newOutputContext := None |}] initial_state.

Lemma onerror_teardown_witness :
  promise_known session_open /\
  error (exec onerror session_open)
  = Some "An error occurred during the session."%string /\
  released (exec onerror session_open).
Proof.
  assert (Hk : promise_known session_open) by (vm_compute; eexists; reflexivity).
  split; [exact Hk|].
  pose proof (onerror_teardown session_open Hk) as H. cbv zeta in H.
  split; apply H.
Defined.

Lemma stop_twice_pending_witness :
  sessionPromiseRef session_opening = Some 3%nat /\
  settled (world session_opening) !! 3%nat = None /\
  released (run [Unmount; Unmount; Settle 3%nat (Rejected (Error "refused"))]
                session_opening) /\
  rejections (run [Unmount; Unmount; Settle 3%nat (Rejected (Error "refused"))]
                  session_opening) = [].
Proof.
  assert (Hp : sessionPromiseRef session_opening = Some 3%nat)
    by (vm_compute; reflexivity).
  assert (Hs : settled (world session_opening) !! 3%nat = None)
    by (vm_compute; reflexivity).
  split; [exact Hp|]. split; [exact Hs|].
  pose proof (stop_twice_pending session_opening 3%nat
                (Rejected (Error "refused")) Hp Hs) as H.
  cbv zeta in H. destruct H as (_ & Hr & _ & Hj).
  split; [exact Hr|]. rewrite Hj. vm_compute. reflexivity.
Defined.

Definition one_frame : AudioBuffer :=
  {| sampleRate := 24000; frames := 1; channels := [[0%Q]] |}.

Definition two_invocations : list segment :=
  [Bump 1; Bump (1 # 2); Start one_frame; Start one_frame].

Lemma segments_chain_witness :
  is_double (clock initial_state) /\
  Forall segment_ok two_invocations /\
  exists added,
    scheduled (fold_left run_segment two_invocations initial_state)
    = scheduled initial_state ++ added /\
    rounded_chain (clock initial_state) added
      (clock (fold_left run_segment two_invocations initial_state)) /\
    spaced added /\
    (clock initial_state
     <= clock (fold_left run_segment two_invocations initial_state))%Q /\
    is_double (clock (fold_left run_segment two_invocations initial_state)).
Proof.
  assert (H0 : is_double (clock initial_state)) by reflexivity.
  assert (H : Forall segment_ok two_invocations).
  { repeat (constructor 2; [vm_compute; first [reflexivity | discriminate]|]).
    constructor 1. }
  split; [exact H0|]. split; [exact H|].
  exact (segments_chain two_invocations initial_state H0 H).
Defined.

(** *** A refusal before the session is asked for *)

(** The microphone or the input context is refused with [err]. *)
Definition refused_early (env : StartEnv) (err : exn) : Prop :=
  getUserMedia env = Some err \/
  (getUserMedia env = None /\ newInputContext env = Some err).

(** X15. When the microphone, or the input context after it, is refused while
    no connect promise of an earlier start is still pending (the session
    promise is absent or settled, so the [await] of the teardown returns):
    the call still returns, the message of the error is shown (a fixed text
    for a thrown value that is not an [Error]), the recording flag is down,
    every lifecycle reference is null, and the stream acquired on the way, if
    any, has been stopped. *)
Theorem early_refusal_releases (env : StartEnv) (err : exn) (s : State) :
  refused_early env err ->
  promise_known s ->
  let s' := exec (start_resume env) s in
  result (start_resume env) s = Normal tt /\
  error s' = Some (if instanceof_Error err then message_of err
                   else "An unknown error occurred."%string) /\
  released s' /\ isRecording s' = false /\
  (fresh (world s') <= S (fresh (world s)))%nat /\
  (forall h, (fresh (world s) <= h < fresh (world s'))%nat ->
             In (TrackStop h) (effects (world s'))).
Proof.
  intros Href Hk. cbv zeta.
  destruct env as [gum nic noc]. unfold refused_early in Href. cbn in Href.
  destruct Href as [->|[-> ->]].
  - assert (Heq : start_resume {| getUserMedia := Some err; newInputContext := nic;
                                  newOutputContext := noc |} s = start_catch err s)
      by reflexivity.
    unfold exec, result. rewrite Heq.
    destruct (start_catch_teardown err s Hk) as (H1 & H2 & H3 & H4 & H5).
    unfold exec, result in *.
    assert (Hf : fresh (world (snd (start_catch err s))) = fresh (world s)).
    { unfold start_catch, bind, modify. cbn [fst snd].
      set (s0 := set_error _ s).
      destruct (stopConversation_known s0 Hk) as (o & Hs & _).
      rewrite (spawn_normal _ _ _ Hs). cbn [fst snd].
      destruct (stopped_grows o s0) as (_ & _ & _ & _ & _ & Hfr & _).
      exact Hfr. }
    repeat split; try assumption; try apply H3.
    + rewrite Hf. lia.
    + intros h Hh. rewrite Hf in Hh. lia.
  - set (f := fresh (world s)).
    set (s1 := set_mediaStreamRef (Some f)
                 (set_world (set_fresh (S f) (world s)) s)).
    assert (Heq : start_resume {| getUserMedia := None; newInputContext := Some err;
                                  newOutputContext := noc |} s = start_catch err s1)
      by reflexivity.
    unfold exec, result. rewrite Heq.
    assert (Hk1 : promise_known s1) by exact Hk.
    destruct (start_catch_teardown err s1 Hk1) as (H1 & H2 & H3 & H4 & H5).
    unfold exec, result in *.
    assert (Hf : fresh (world (snd (start_catch err s1))) = S f).
    { unfold start_catch, bind, modify. cbn [fst snd].
      set (s0 := set_error _ s1).
      destruct (stopConversation_known s0 Hk1) as (o & Hs & _).
      rewrite (spawn_normal _ _ _ Hs). cbn [fst snd].
      destruct (stopped_grows o s0) as (_ & _ & _ & _ & _ & Hfr & _).
      rewrite Hfr. reflexivity. }
    destruct H5 as (L1 & _).
    repeat split; try assumption; try apply H3.
    + rewrite Hf. lia.
    + intros h Hh. rewrite Hf in Hh. assert (h = f) by lia. subst h.
      apply L1. reflexivity.
Qed.

Lemma early_refusal_releases_witness :
  let env := {| getUserMedia := None;
                newInputContext := Some (Error "no audio device");
                newOutputContext := None |} in
  let s' := exec (start_resume env) initial_state in
  error s' = Some "no audio device"%string /\
  released s' /\ In (TrackStop 0%nat) (effects (world s')).
Proof.
  cbv zeta.
  assert (Hr : refused_early {| getUserMedia := None;
                newInputContext := Some (Error "no audio device");
                newOutputContext := None |} (Error "no audio device"))
    by (right; split; reflexivity).
  assert (Hk : promise_known initial_state) by exact I.
  pose proof (early_refusal_releases _ _ initial_state Hr Hk) as H.
  cbv zeta in H. destruct H as (_ & H2 & H3 & _ & _ & H6).
  split; [exact H2|]. split; [exact H3|].
  apply H6. vm_compute. lia.
Defined.

End LiveSessionProperties.

Module ServiceProperties.
Import JS JS.Notations GeminiService GeminiServiceFacts.

(** The attempt goes through: the remote answers, the response has a text
    and the text parses to [v]. *)
Inductive attempt_gives {A : Type} (generateContent : Request -> completion Response)
    (parse : string -> completion A) (r : Request) (v : A) : Prop :=
  | attempt_parsed (response : Response) (t : string) :
      generateContent r = Normal response -> text response = Some t ->
      parse t = Normal v -> attempt_gives generateContent parse r v.

Definition speech_request (text : string) : Request :=
  {| model := "gemini-2.5-flash-preview-tts"; contents := SpeechPrompt text |}.

Section Remote.
Variable generateContent : Request -> completion Response.
Variable parse_exam : string -> completion Exam.
Variable parse_result : string -> completion ExamResult.

Ltac run_service :=
  unfold result, exec, generateExam, gradeExam, generateSpeech, call, send,
    console_error, text_of, try_catch, bind, lift, modify, ret, throw,
    EXAM_GENERATION_MODEL, EXAM_GRADING_MODEL.

Lemma generateExam_sends (difficulty : Z) (s : Service) :
  sent (exec (generateExam generateContent parse_exam difficulty) s)
  = sent s ++ [exam_request difficulty].
Proof.
  run_service. cbn. fold (exam_request difficulty).
  destruct (generateContent _) as [response|e]; [|reflexivity].
  destruct (text response) as [t|]; [|reflexivity].
  destruct (parse_exam t); reflexivity.
Qed.

(** X19. A call of [generateExam] sends one request, for the level asked. Either
    the attempt goes through, the parsed exam is returned as it is and nothing
    is logged; or the attempt fails, the fallback is returned and one line is
    logged. *)
Theorem generateExam_outcomes (difficulty : Z) (s : Service) :
  let c := generateExam generateContent parse_exam difficulty in
  sent (exec c s) = sent s ++ [exam_request difficulty] /\
  ((exists exam,
      attempt_gives generateContent parse_exam (exam_request difficulty) exam /\
      result c s = Normal exam /\ console (exec c s) = console s) \/
   (attempt_fails generateContent parse_exam (exam_request difficulty) /\
    result c s = Normal fallback_exam /\
    console (exec c s) = console s ++ ["Error generating exam:"%string])).
Proof.
  cbv zeta. run_service. cbn. fold (exam_request difficulty).
  destruct (generateContent (exam_request difficulty)) as [response|e] eqn:Hg.
  - destruct (text response) as [t|] eqn:Ht.
    + destruct (parse_exam t) as [exam|e] eqn:Hp; cbn.
      * split; [reflexivity|]. left. exists exam. split; [|split; reflexivity].
        now apply (attempt_parsed _ _ _ _ response t).
      * split; [reflexivity|]. right. split; [|split; reflexivity].
        now apply (parse_throws _ _ _ response t e).
    + cbn. split; [reflexivity|]. right. split; [|split; reflexivity].
      now apply (text_missing _ _ _ response).
  - cbn. split; [reflexivity|]. right. split; [|split; reflexivity].
    now apply (remote_rejects _ _ _ e).
Qed.

(** X20. The same for [gradeExam]: one request, holding the questions with the
    answers given; the parsed result as it is, or score 0 with the apology
    for every question and one line logged. *)
Theorem gradeExam_outcomes (exam : Exam) (answers : gmap Z string) (s : Service) :
  let c := gradeExam generateContent parse_result exam answers in
  sent (exec c s) = sent s ++ [grading_request exam answers] /\
  ((exists r,
      attempt_gives generateContent parse_result (grading_request exam answers) r /\
      result c s = Normal r /\ console (exec c s) = console s) \/
   (attempt_fails generateContent parse_result (grading_request exam answers) /\
    result c s =
      Normal {| score := 0;
                feedback :=
                  map (fun q => {| questionId := id q; isCorrect := false;
                                   explanation :=
                                     "Sorry, there was an error grading this question." |})
                      exam |} /\
    console (exec c s) = console s ++ ["Error grading exam:"%string])).
Proof.
  cbv zeta. run_service. cbn. fold (grading_request exam answers).
  destruct (generateContent (grading_request exam answers)) as [response|e] eqn:Hg.
  - destruct (text response) as [t|] eqn:Ht.
    + destruct (parse_result t) as [r|e] eqn:Hp; cbn.
      * split; [reflexivity|]. left. exists r. split; [|split; reflexivity].
        now apply (attempt_parsed _ _ _ _ response t).
      * split; [reflexivity|]. right. split; [|split; reflexivity].
        now apply (parse_throws _ _ _ response t e).
    + cbn. split; [reflexivity|]. right. split; [|split; reflexivity].
      now apply (text_missing _ _ _ response).
  - cbn. split; [reflexivity|]. right. split; [|split; reflexivity].
    now apply (remote_rejects _ _ _ e).
Qed.

(** [generateSpeech] sends one request for the text, whatever comes back,
    and logs one line exactly when it returns [null]. *)
Lemma generateSpeech_sends (text : string) (s : Service) :
  let c := generateSpeech generateContent text in
  sent (exec c s) = sent s ++ [speech_request text] /\
  exists v, result c s = Normal v /\
    console (exec c s) =
      match v with
      | Some _ => console s
      | None => console s ++ ["Error generating speech:"%string]
      end.
Proof.
  cbv zeta. run_service. cbn. fold (speech_request text).
  destruct (generateContent (speech_request text)) as [response|e]; cbn.
  - destruct (audio_of response) as [d|]; cbn; [destruct (truthy d); cbn|]; eauto.
  - eauto.
Qed.

End Remote.

End ServiceProperties.

Module PlaybackProperties.
Import JS JS.Notations Audio ExamPanel ExamPanelFacts ServiceProperties.

(** No speaker button is clicked while a request for speech is loading. *)
Fixpoint unhurried (events : list event) (s : State) : Prop :=
  match events with
  | [] => True
  | e :: rest =>
      match e with
      | Play _ => audioLoading s = None
      | _ => True
      end /\ unhurried rest (step s e)
  end.

(** Playback is exclusive, and a request for speech that is waiting is the
    only one, with nothing sounding. *)
Definition orderly (s : State) : Prop :=
  exclusive s /\
  (pendingSpeech s = [] \/
   exists q, pendingSpeech s = [q] /\ audioLoading s = Some q /\ sounding s = []).

Lemma stop_orderly (s : State) :
  orderly s -> orderly (exec stopCurrentAudio s).
Proof.
  intros [Hex Hp]. destruct (stop_silences s Hex) as [Hs Hr].
  destruct (stopCurrentAudio_spec s) as (_ & _ & _ & Hl & _ & Hpd & _).
  cbv zeta in Hl, Hpd.
  split; [now apply quiet_exclusive|]. rewrite Hpd, Hl, Hs.
  destruct Hp as [Hp|(q & Hq & Hlq & _)]; [now left|right; eauto].
Qed.

Lemma play_resume_pending (questionId : Z) (audioData : option string)
    (refusal : option exn) (s : State) :
  pendingSpeech (exec (play_resume questionId audioData refusal) s) = pendingSpeech s.
Proof.
  destruct s as [ld pl cx sr pd fr so ef sv]. unfold_panel. unfold context_closed.
  cbn [effects audioContextRef].
  destruct audioData as [payload|]; [|reflexivity].
  destruct (truthy payload) eqn:Ht; [|reflexivity].
  destruct (decode payload) as [decoded|e] eqn:Hd;
    [destruct (decodeAudioData decoded 24000 1) as [buffer|e] eqn:Hb|];
    destruct cx as [ctx|]; cbn;
    try destruct (existsb (effect_is_close ctx) ef); cbn;
    try destruct refusal; cbn;
    rewrite ?Hd; cbn; rewrite ?Hb; cbn; reflexivity.
Qed.

Lemma step_orderly (s : State) (e : event) :
  orderly s ->
  match e with
  | Play _ => audioLoading s = None
  | _ => True
  end ->
  orderly (step s e).
Proof.
  intros Ho He. pose proof Ho as [Hex Hp].
  destruct e as [questionId|audioData refusal|sourceNode| |].
  - assert (Hpd : pendingSpeech s = []).
    { destruct Hp as [Hp|(q & _ & Hq & _)]; [exact Hp | congruence]. }
    destruct (stop_silences s Hex) as [Hs Hr].
    destruct (stopCurrentAudio_spec s) as (_ & _ & _ & Hl & _ & Hpd' & _).
    cbv zeta in Hl, Hpd'.
    unfold step, exec, handle_event, bind, gets, play_enabled. rewrite He.
    cbn [fst snd].
    destruct (play_begin_spec questionId s) as [[|] Hb]; rewrite Hb; cbn [fst snd].
    + unfold modify. cbn [fst snd]. split.
      * apply quiet_exclusive. exact Hs.
      * right. exists questionId. cbn. rewrite Hpd', Hpd. repeat split. exact Hs.
    + unfold ret. cbn [fst snd]. apply stop_orderly, Ho.
  - unfold step, exec, handle_event, bind, gets. cbn [fst snd].
    destruct (pendingSpeech s) as [|questionId rest] eqn:Hpd.
    + exact Ho.
    + unfold modify at 1. cbn [fst snd].
      set (s1 := set_pendingSpeech rest s).
      assert (Hq : rest = [] /\ sounding s = []).
      { destruct Hp as [Hp|(q & Hq & _ & Hs)]; [discriminate|].
        injection Hq as _ <-. now split. }
      destruct Hq as [-> Hs].
      pose proof (play_resume_pending questionId audioData refusal s1) as Hpd1.
      unfold exec in Hpd1. change (pendingSpeech s1) with (@nil Z) in Hpd1.
      destruct (play_resume_cases questionId audioData refusal s1)
        as (_ & _ & [(H1 & H2 & _)|(node & buffer & H1 & H2 & _)]);
        unfold exec in H1, H2.
      * split; [|left; exact Hpd1]. apply quiet_exclusive. rewrite H1. exact Hs.
      * split; [|left; exact Hpd1]. unfold exclusive. rewrite H1, H2.
        change (sounding s1) with (sounding s). rewrite Hs. cbn. split.
        -- intros m [<-|[]]. reflexivity.
        -- repeat constructor. intros [].
  - split; [now apply ended_exclusive|].
    destruct s as [ld pl cx sr pd fr so ef sv]. cbn in Hp.
    unfold step, handle_event. unfold_panel. unfold silence. cbn.
    assert (Hf : so = [] -> List.filter (fun n => negb (Nat.eqb n sourceNode)) so = [])
      by (intros ->; reflexivity).
    destruct sr as [node|]; cbn; [destruct (Nat.eqb node sourceNode); cbn|];
      (destruct Hp as [Hp|(q & Hq & Hl & Hs)]; [now left|right; eauto]).
  - apply stop_orderly, Ho.
  - apply stop_orderly in Ho.
    unfold step, exec, handle_event, bind. 
    destruct (stopCurrentAudio s) as [[[]|e] s1] eqn:Hs1.
    + unfold exec in Ho. rewrite Hs1 in Ho. cbn [fst snd] in *.
      unfold gets. cbn [fst snd].
      destruct (audioContextRef s1) as [c|]; [|exact Ho].
      cbn [fst snd]. destruct (context_closed c s1); [exact Ho|].
      destruct s1; exact Ho.
    + pose proof (stopCurrentAudio_spec s) as (Hn & _). unfold result in Hn.
      rewrite Hs1 in Hn. discriminate.
Qed.

Lemma run_orderly (events : list event) (s : State) :
  orderly s -> unhurried events s -> orderly (run events s).
Proof.
  revert s. induction events as [|e l IH]; intros s Ho Hu; [exact Ho|].
  destruct Hu as [He Hu]. cbn. apply IH; [|exact Hu]. now apply step_orderly.
Qed.

Lemma unhurried_take (n : nat) (events : list event) (s : State) :
  unhurried events s -> unhurried (take n events) s.
Proof.
  revert n s. induction events as [|e l IH]; intros [|n] s Hu; try exact I.
  destruct Hu as [He Hu]. split; [exact He|]. now apply IH.
Qed.

(** X16. As long as no speaker button is clicked while a request for speech is
    loading, at most one explanation sounds at every point of the run, and
    what sounds is the node the panel holds. *)
Theorem unhurried_playback_exclusive (events : list event) (n : nat) :
  unhurried events initial_state ->
  let s := run (take n events) initial_state in
  (length (sounding s) <= 1)%nat /\
  (forall node, In node (sounding s) -> audioSourceRef s = Some node).
Proof.
  intros Hu. cbv zeta.
  assert (Ho : orderly (run (take n events) initial_state)).
  { apply run_orderly; [|now apply unhurried_take].
    split; [now apply quiet_exclusive | now left]. }
  destruct Ho as [Hex _]. split; [now apply exclusive_at_most_one | apply Hex].
Qed.

Definition tone : string := "AIA=".

Lemma unhurried_playback_exclusive_witness :
  unhurried [Play 1; Speech (Some tone) None; Play 2; Speech (Some tone) None]
            initial_state /\
  sounding (run [Play 1; Speech (Some tone) None; Play 2; Speech (Some tone) None]
                initial_state) = [2%nat] /\
  (length (sounding (run (take 4 [Play 1; Speech (Some tone) None; Play 2;
                                  Speech (Some tone) None]) initial_state)) <= 1)%nat.
Proof.
  assert (Hu : unhurried [Play 1; Speech (Some tone) None; Play 2;
                          Speech (Some tone) None] initial_state).
  { vm_compute. tauto. }
  split; [exact Hu|]. split; [vm_compute; reflexivity|].
  exact (proj1 (unhurried_playback_exclusive _ 4%nat Hu)).
Defined.

(** *** One call of [handlePlayExplanation] *)

Lemma play_resume_service (questionId : Z) (audioData : option string)
    (refusal : option exn) (s : State) :
  service (exec (play_resume questionId audioData refusal) s) = service s.
Proof.
  destruct s as [ld pl cx sr pd fr so ef sv]. unfold_panel. unfold context_closed.
  cbn [effects audioContextRef].
  destruct audioData as [payload|]; [|reflexivity].
  destruct (truthy payload) eqn:Ht; [|reflexivity].
  destruct (decode payload) as [decoded|e] eqn:Hd;
    [destruct (decodeAudioData decoded 24000 1) as [buffer|e] eqn:Hb|];
    destruct cx as [ctx|]; cbn;
    try destruct (existsb (effect_is_close ctx) ef); cbn;
    try destruct refusal; cbn;
    rewrite ?Hd; cbn; rewrite ?Hb; cbn; reflexivity.
Qed.

Section Remote.
Variable generateContent : GeminiService.Request -> completion GeminiService.Response.

(** X17. Of a call that nothing interleaves with, the speech service
    answering before the panel handles any other event: a call for the
    question that is playing stops it and asks the service for nothing; any
    other call stops what the panel holds, sends exactly one request for
    speech, and ends with the loading state cleared and with either nothing
    marked as playing or the question asked for. No such call throws. *)
Theorem explanation_call_requests (questionId : Z) (text : string)
    (refusal : option exn) (s : State) :
  let c := handlePlayExplanation generateContent questionId text refusal in
  let s' := exec c s in
  result c s = Normal tt /\
  (forall node, audioSourceRef s = Some node ->
     exists later,
       effects s' = effects s ++ SourceStop node :: SourceDisconnect node :: later) /\
  (audioPlaying s = Some questionId ->
     service s' = service s /\ audioPlaying s' = None /\ audioSourceRef s' = None /\
     audioLoading s' = audioLoading s) /\
  (audioPlaying s <> Some questionId ->
     GeminiService.sent (service s')
       = GeminiService.sent (service s) ++ [speech_request text] /\
     audioLoading s' = None /\
     (audioPlaying s' = None \/ audioPlaying s' = Some questionId)).
Proof.
  cbv zeta.
  destruct (stopCurrentAudio_spec s)
    as (_ & Hr0 & Hp0 & Hl0 & _ & _ & _ & _ & He0). cbv zeta in *.
  assert (Hsv0 : service (exec stopCurrentAudio s) = service s).
  { destruct s as [ld pl cx [node|] pd fr so ef sv]; reflexivity. }
  assert (Hbegin : play_begin questionId s =
            if match audioPlaying s with
               | Some q => Z.eqb q questionId
               | None => false
               end
            then (Normal false, exec stopCurrentAudio s)
            else (Normal true,
                  set_audioLoading (Some questionId) (exec stopCurrentAudio s))).
  { destruct s as [ld [q|] cx [node|] pd fr so ef sv]; unfold_panel; cbn;
      try destruct (Z.eqb q questionId); reflexivity. }
  destruct (match audioPlaying s with
            | Some q => Z.eqb q questionId
            | None => false
            end) eqn:Hq.
  - assert (Hrun : handlePlayExplanation generateContent questionId text refusal s
                   = (Normal tt, exec stopCurrentAudio s)).
    { unfold handlePlayExplanation, bind. rewrite Hbegin. reflexivity. }
    unfold exec at 1 2 3 4 5 6 7 8 9, result. rewrite Hrun. cbn [fst snd].
    split; [reflexivity|]. split; [|split].
    + intros node Hn. exists []. now apply He0.
    + intros _. now repeat split.
    + intros Hne. exfalso. apply Hne.
      destruct (audioPlaying s) as [q|]; [|discriminate].
      apply Z.eqb_eq in Hq. now subst q.
  - set (s1 := set_audioLoading (Some questionId) (exec stopCurrentAudio s)) in *.
    destruct (generateSpeech_sends generateContent text (service s1))
      as (Hsent & v & Hv & _). cbv zeta in Hsent. unfold exec, result in Hsent, Hv.
    destruct (GeminiService.generateSpeech generateContent text (service s1))
      as [c sv] eqn:Hg. cbn [fst snd] in Hsent, Hv. subst c.
    set (s2 := set_service sv s1).
    assert (Hrun : handlePlayExplanation generateContent questionId text refusal s
                   = play_resume questionId v refusal s2).
    { unfold handlePlayExplanation, bind. rewrite Hbegin. unfold in_service.
      rewrite Hg. reflexivity. }
    unfold exec at 1 2 3 4 5 6 7 8 9, result. rewrite Hrun.
    destruct (play_resume_cases questionId v refusal s2) as (Hres & Hld & Hcases).
    pose proof (play_resume_service questionId v refusal s2) as Hsv.
    unfold exec, result in Hres, Hld, Hcases, Hsv.
    split; [exact Hres|]. split; [|split].
    + intros node Hn.
      assert (Hef : effects s2 = effects s ++ [SourceStop node; SourceDisconnect node])
        by (now apply He0).
      destruct Hcases as [(_ & _ & _ & H4)|(n & buffer & _ & _ & _ & H4 & _)];
        rewrite H4, Hef, <- app_assoc; cbn; eauto.
    + intros Hpl. rewrite Hpl, Z.eqb_refl in Hq. discriminate.
    + intros _. split; [|split; [exact Hld|]].
      * rewrite Hsv. cbn. rewrite Hsent.
        change (service s1) with (service (exec stopCurrentAudio s)).
        now rewrite Hsv0.
      * destruct Hcases as [(_ & _ & H3 & _)|(n & buffer & _ & _ & H3 & _)];
          rewrite H3; [left; exact Hp0 | right; reflexivity].
Qed.

End Remote.

(** *** Unmounting *)

(** X18. The cleanup on unmount stops and drops the node the panel holds, and
    leaves the audio context it holds closed, closing it only when it was
    still open. *)
Theorem unmount_releases (s : State) :
  let s' := step s Unmount in
  audioSourceRef s' = None /\ audioPlaying s' = None /\
  audioContextRef s' = audioContextRef s /\
  (exclusive s -> sounding s' = []) /\
  exists stopped closed,
    effects s' = effects s ++ stopped ++ closed /\
    stopped = match audioSourceRef s with
              | Some node => [SourceStop node; SourceDisconnect node]
              | None => []
              end /\
    closed = match audioContextRef s with
             | Some c => if context_closed c s then [] else [ContextClose c]
             | None => []
             end /\
    (forall c, audioContextRef s = Some c -> context_closed c s' = true).
Proof.
  cbv zeta.
  assert (Hsound : sounding (step s Unmount) = sounding (exec stopCurrentAudio s)).
  { destruct s as [ld pl [c|] [node|] pd fr so ef sv]; unfold step, handle_event;
      unfold_panel; unfold context_closed; cbn;
      try destruct (existsb (effect_is_close c) _); reflexivity. }
  split; [|split; [|split; [|split]]].
  - destruct s as [ld pl [c|] [node|] pd fr so ef sv]; unfold step, handle_event;
      unfold_panel; unfold context_closed; cbn;
      try destruct (existsb (effect_is_close c) _); reflexivity.
  - destruct s as [ld pl [c|] [node|] pd fr so ef sv]; unfold step, handle_event;
      unfold_panel; unfold context_closed; cbn;
      try destruct (existsb (effect_is_close c) _); reflexivity.
  - destruct s as [ld pl [c|] [node|] pd fr so ef sv]; unfold step, handle_event;
      unfold_panel; unfold context_closed; cbn;
      try destruct (existsb (effect_is_close c) _); reflexivity.
  - intros Hex. rewrite Hsound. now apply stop_silences.
  - eexists. eexists. split; [|split; [reflexivity|split; [reflexivity|]]].
    + destruct s as [ld pl [c|] [node|] pd fr so ef sv]; unfold step, handle_event;
        unfold_panel; unfold context_closed; cbn;
        rewrite ?existsb_app; cbn; rewrite ?orb_false_r;
        try destruct (existsb (effect_is_close c) ef); cbn;
        rewrite <- ?app_assoc, ?app_nil_r; reflexivity.
    + intros c Hc.
      destruct s as [ld pl [c'|] [node|] pd fr so ef sv]; try discriminate;
        injection Hc as ->; unfold step, handle_event;
        unfold_panel; unfold context_closed; cbn;
        rewrite ?existsb_app; cbn; rewrite ?orb_false_r;
        destruct (existsb (effect_is_close c) ef) eqn:E; cbn;
        rewrite ?existsb_app, ?E; cbn; rewrite ?Nat.eqb_refl, ?orb_true_r; reflexivity.
Qed.

End PlaybackProperties.

(** ** More on the difficulty level *)

Module AppProperties.
Import GeminiService App AppFacts.

(** The exams completed with a score above 70. *)
Definition passes (events : list event) : Z :=
  Z.of_nat (length (List.filter (fun e => match e with
                                          | ExamComplete result _ => over_70 result
                                          | NewExam => false
                                          end) events)).

Lemma run_level (events : list event) (s : State) :
  difficultyLevel s <= 10 ->
  difficultyLevel (run events s) = Z.min 10 (difficultyLevel s + passes events).
Proof.
  revert s. induction events as [|e l IH]; intros s Hs.
  - unfold passes. cbn. lia.
  - change (run (e :: l) s) with (run l (step s e)).
    destruct e as [result exam|].
    + unfold step, handleExamComplete, passes.
      cbn [List.filter]. destruct (over_70 result).
      * rewrite IH by (cbn; lia). unfold passes. cbn [difficultyLevel length].
        lia.
      * rewrite IH by exact Hs. unfold passes. reflexivity.
    + rewrite IH by exact Hs. unfold passes. reflexivity.
Qed.

(** X21. The level shown is one more than the number of exams completed so far
    with a score above 70, capped at 10; so it never goes down. *)
Theorem level_counts_passes (events later : list event) :
  difficultyLevel (run events initial_state) = Z.min 10 (1 + passes events) /\
  difficultyLevel (run events initial_state)
  <= difficultyLevel (run (events ++ later) initial_state).
Proof.
  assert (H1 : forall l, difficultyLevel (run l initial_state) = Z.min 10 (1 + passes l)).
  { intros l. apply (run_level l initial_state). cbn. lia. }
  split; [apply H1|]. rewrite !H1. unfold passes.
  rewrite List.filter_app, length_app. lia.
Qed.

(** What the last event left: a completed exam is held together with its
    result; a new exam clears both. *)
Theorem result_with_exam (events : list event) :
  let s := run events initial_state in
  match last events with
  | Some (ExamComplete result exam) =>
      examResult s = Some result /\ currentExam s = Some exam
  | Some NewExam | None => examResult s = None /\ currentExam s = None
  end.
Proof.
  cbv zeta. induction events as [|e l IH] using rev_ind; [now split|].
  rewrite last_snoc. unfold run. rewrite fold_left_app. cbn [fold_left].
  destruct e as [result exam|]; [|now split].
  unfold step at 1 3. unfold handleExamComplete.
  destruct (over_70 result); split; reflexivity.
Qed.

End AppProperties.

(** ** [ExamPanel.tsx]: generating, answering, submitting

    The panel with what [App] passes down to it. [handleGenerateExam] and
    [handleSubmit] are cut at their [await]; the calls of the service that
    are waiting are kept with what their closures captured. *)

Module ExamFlow.
Import JS JS.Notations GeminiService.

Record State : Type := {
  app : App.State;                        (* difficultyLevel, currentExam, examResult *)
  localExam : option Exam;
  answers : gmap Z string;
  isLoading : bool;
  panel : ExamPanel.State;                (* the audio side, and the service *)
  generating : list Z;                    (* generateExam calls waiting: the level asked *)
  grading : list (Exam * gmap Z string)   (* gradeExam calls waiting: exam and answers *)
}.

(** [App] and the panel as mounted. *)
Definition initial_state : State :=
  {| app := App.initial_state; localExam := None; answers := ∅; isLoading := false;
     panel := ExamPanel.initial_state; generating := []; grading := [] |}.

Definition set_app (v : App.State) (s : State) : State :=
  {| app := v; localExam := localExam s; answers := answers s;
     isLoading := isLoading s; panel := panel s; generating := generating s;
     grading := grading s |}.

Definition set_localExam (v : option Exam) (s : State) : State :=
  {| app := app s; localExam := v; answers := answers s;
     isLoading := isLoading s; panel := panel s; generating := generating s;
     grading := grading s |}.

Definition set_answers (v : gmap Z string) (s : State) : State :=
  {| app := app s; localExam := localExam s; answers := v;
     isLoading := isLoading s; panel := panel s; generating := generating s;
     grading := grading s |}.

Definition set_isLoading (v : bool) (s : State) : State :=
  {| app := app s; localExam := localExam s; answers := answers s;
     isLoading := v; panel := panel s; generating := generating s;
     grading := grading s |}.

Definition set_panel (v : ExamPanel.State) (s : State) : State :=
  {| app := app s; localExam := localExam s; answers := answers s;
     isLoading := isLoading s; panel := v; generating := generating s;
     grading := grading s |}.

Definition set_generating (v : list Z) (s : State) : State :=
  {| app := app s; localExam := localExam s; answers := answers s;
     isLoading := isLoading s; panel := panel s; generating := v;
     grading := grading s |}.

Definition set_grading (v : list (Exam * gmap Z string)) (s : State) : State :=
  {| app := app s; localExam := localExam s; answers := answers s;
     isLoading := isLoading s; panel := panel s; generating := generating s;
     grading := v |}.

(** A handler of the audio side, on its part of the state. *)
Definition in_panel {A} (m : M ExamPanel.State A) : M State A :=
  fun s =>
    match m (panel s) with
    | (c, p) => (c, set_panel p s)
    end.

Definition question_eqb (a b : Question) : bool :=
  Z.eqb (id a) (id b) && String.eqb (questionText a) (questionText b).

Fixpoint exam_eqb (a b : Exam) : bool :=
  match a, b with
  | [], [] => true
  | x :: a', y :: b' => question_eqb x y && exam_eqb a' b'
  | _, _ => false
  end.

(** Whether the prop [currentExam] is what it was. *)
Definition same_exam (a b : option Exam) : bool :=
  match a, b with
  | None, None => true
  | Some x, Some y => exam_eqb x y
  | _, _ => false
  end.

(** A callback of [App], followed by the effect of the panel that copies
    [currentExam] into [localExam] when [currentExam] has changed:
    [useEffect(() => { setLocalExam(currentExam) }, [currentExam])]. *)
Definition in_app (f : App.State -> App.State) : M State unit :=
  modify (fun s =>
            let s1 := set_app (f (app s)) s in
            if same_exam (App.currentExam (app s1)) (App.currentExam (app s))
            then s1
            else set_localExam (App.currentExam (app s1)) s1).

(** *** [handleGenerateExam], cut at [await generateExam(difficultyLevel)] *)

Definition generate_begin : M State Z :=
  difficultyLevel <- gets (fun s => App.difficultyLevel (app s)) ;;
  modify (set_isLoading true) ;;
  in_panel ExamPanel.stopCurrentAudio ;;
  in_app App.handleNewExam ;;
  modify (set_answers ∅) ;;
  ret difficultyLevel.

Definition generate_resume (newExam : Exam) : M State unit :=
  modify (set_localExam (Some newExam)) ;;
  modify (set_isLoading false).

(** *** [handleSubmit], cut at [await gradeExam(localExam, answers)]

    [submit_begin] returns what the call of [gradeExam] is made with, or
    nothing when there is no exam. *)
Definition submit_begin : M State (option (Exam * gmap Z string)) :=
  exam <- gets localExam ;;
  given <- gets answers ;;
  match exam with
  | None => ret None
  | Some e => modify (set_isLoading true) ;; ret (Some (e, given))
  end.

Definition submit_resume (exam : Exam) (result : ExamResult) : M State unit :=
  in_app (App.handleExamComplete result exam) ;;
  modify (set_isLoading false).

(** [setAnswers(prev => ({ ...prev, [questionId]: value }))] *)
Definition handleAnswerChange (questionId : Z) (value : string) : M State unit :=
  modify (fun s => set_answers (<[questionId := value]> (answers s)) s).

(** [examResult?.feedback.find(f => f.questionId === questionId)] *)
Definition getFeedbackForQuestion (questionId : Z) (s : State) : option Feedback :=
  match App.examResult (app s) with
  | Some result =>
      List.find (fun f => Z.eqb (GeminiService.questionId f) questionId)
                (feedback result)
  | None => None
  end.

(** *** What [renderContent] shows *)

Inductive view : Type :=
  | Spinner
  | Results (result : ExamResult) (exam : Exam)
  | Form (exam : Exam)
  | Welcome.

Definition renderContent (s : State) : view :=
  if isLoading s then Spinner
  else
    match App.examResult (app s), localExam s with
    | Some result, Some exam => Results result exam
    | None, Some exam => Form exam
    | _, None => Welcome
    end.

Definition asks (questionId : Z) (exam : Exam) : bool :=
  existsb (fun q => Z.eqb (id q) questionId) exam.

Section Remote.
Variable generateContent : Request -> completion Response.
Variable parse_exam : string -> completion Exam.
Variable parse_result : string -> completion ExamResult.

Definition in_service {A} (m : M Service A) : M State A :=
  in_panel (ExamPanel.in_service m).

(** The two handlers as calls that nothing interleaves with. *)
Definition handleGenerateExam : M State unit :=
  difficultyLevel <- generate_begin ;;
  newExam <- in_service (generateExam generateContent parse_exam difficultyLevel) ;;
  generate_resume newExam.

Definition handleSubmit : M State unit :=
  call <- submit_begin ;;
  match call with
  | Some (exam, given) =>
      result <- in_service (gradeExam generateContent parse_result exam given) ;;
      submit_resume exam result
  | None => ret tt
  end.

End Remote.

(** *** The event loop

    A control answers only in the view that shows it. *)

Inductive event : Type :=
  | ClickGenerate                               (* either button that starts an exam *)
  | ExamReady (newExam : Exam)                  (* the oldest generateExam call returns *)
  | TypeAnswer (questionId : Z) (value : string)
  | Submit
  | Graded (result : ExamResult)                (* the oldest gradeExam call returns *)
  | ClickSpeaker (questionId : Z)
  | Speech (audioData : option string) (refusal : option exn)
  | Ended (sourceNode : ExamPanel.handle).

Definition handle_event (e : event) : M State unit :=
  match e with
  | ClickGenerate =>
      shown <- gets renderContent ;;
      match shown with
      | Results _ _ | Welcome =>
          difficultyLevel <- generate_begin ;;
          modify (fun s => set_generating (generating s ++ [difficultyLevel]) s)
      | _ => ret tt
      end
  | ExamReady newExam =>
      pending <- gets generating ;;
      match pending with
      | _ :: rest => modify (set_generating rest) ;; generate_resume newExam
      | [] => ret tt
      end
  | TypeAnswer questionId value =>
      shown <- gets renderContent ;;
      match shown with
      | Form exam =>
          if asks questionId exam then handleAnswerChange questionId value else ret tt
      | _ => ret tt
      end
  | Submit =>
      shown <- gets renderContent ;;
      match shown with
      | Form _ =>
          call <- submit_begin ;;
          match call with
          | Some c => modify (fun s => set_grading (grading s ++ [c]) s)
          | None => ret tt
          end
      | _ => ret tt
      end
  | Graded result =>
      pending <- gets grading ;;
      match pending with
      | (exam, _) :: rest => modify (set_grading rest) ;; submit_resume exam result
      | [] => ret tt
      end
  | ClickSpeaker questionId =>
      shown <- gets renderContent ;;
      match shown with
      | Results _ exam =>
          fb <- gets (getFeedbackForQuestion questionId) ;;
          match fb with
          | Some f =>
              if asks questionId exam && truthy (explanation f)
              then in_panel (ExamPanel.handle_event (ExamPanel.Play questionId))
              else ret tt
          | None => ret tt
          end
      | _ => ret tt
      end
  | Speech audioData refusal =>
      in_panel (ExamPanel.handle_event (ExamPanel.Speech audioData refusal))
  | Ended sourceNode =>
      in_panel (ExamPanel.handle_event (ExamPanel.Ended sourceNode))
  end.

Definition step (s : State) (e : event) : State := exec (handle_event e) s.

Definition run (events : list event) (s : State) : State := fold_left step events s.

End ExamFlow.

Module ExamFlowFacts.
Import JS JS.Notations GeminiService GeminiServiceFacts ExamFlow.

Lemma exam_eqb_eq (a b : Exam) : exam_eqb a b = true -> a = b.
Proof.
  revert b. induction a as [|x a IH]; intros [|y b] H; try discriminate; [reflexivity|].
  cbn in H. apply andb_true_iff in H. destruct H as [Hq H].
  unfold question_eqb in Hq. apply andb_true_iff in Hq. destruct Hq as [Hi Ht].
  apply Z.eqb_eq in Hi. apply String.eqb_eq in Ht.
  destruct x, y. cbn in *. subst. f_equal. now apply IH.
Qed.

Lemma exam_eqb_refl (a : Exam) : exam_eqb a a = true.
Proof.
  induction a as [|x a IH]; [reflexivity|]. cbn. unfold question_eqb.
  now rewrite Z.eqb_refl, String.eqb_refl, IH.
Qed.

(** The state [generate_begin] leaves. *)
Definition begun (s : State) : State :=
  {| app := App.handleNewExam (app s);
     localExam := match App.currentExam (app s) with
                  | Some _ => None
                  | None => localExam s
                  end;
     answers := ∅; isLoading := true;
     panel := exec ExamPanel.stopCurrentAudio (panel s);
     generating := generating s; grading := grading s |}.

Lemma generate_begin_eq (s : State) :
  generate_begin s = (Normal (App.difficultyLevel (app s)), begun s).
Proof.
  unfold generate_begin, in_panel, in_app. unfold bind, gets, modify, ret.
  cbn [fst snd panel set_isLoading].
  pose proof (ExamPanelFacts.stopCurrentAudio_spec (panel s)) as (Hn & _).
  unfold result, exec in Hn. unfold begun, exec.
  destruct (ExamPanel.stopCurrentAudio (panel s)) as [[[]|e] p] eqn:E; [|discriminate].
  cbn. destruct (App.currentExam (app s)); reflexivity.
Qed.

(** The state [submit_resume] leaves. *)
Definition completed (exam : Exam) (result : ExamResult) (s : State) : State :=
  {| app := App.handleExamComplete result exam (app s);
     localExam := if same_exam (Some exam) (App.currentExam (app s))
                  then localExam s else Some exam;
     answers := answers s; isLoading := false; panel := panel s;
     generating := generating s; grading := grading s |}.

Lemma handleExamComplete_fields (result : ExamResult) (exam : Exam) (a : App.State) :
  App.currentExam (App.handleExamComplete result exam a) = Some exam /\
  App.examResult (App.handleExamComplete result exam a) = Some result /\
  App.difficultyLevel (App.handleExamComplete result exam a)
  = if App.over_70 result then Z.min (App.difficultyLevel a + 1) 10
    else App.difficultyLevel a.
Proof. unfold App.handleExamComplete. destruct (App.over_70 result); now repeat split. Qed.

Lemma submit_resume_eq (exam : Exam) (result : ExamResult) (s : State) :
  submit_resume exam result s = (Normal tt, completed exam result s).
Proof.
  unfold submit_resume, in_app. unfold bind, modify. cbn [fst snd].
  destruct (handleExamComplete_fields result exam (app s)) as (Hc & _).
  unfold completed. cbv zeta.
  change (app (set_app (App.handleExamComplete result exam (app s)) s))
    with (App.handleExamComplete result exam (app s)).
  rewrite Hc.
  destruct (same_exam (Some exam) (App.currentExam (app s))); reflexivity.
Qed.

Section Remote.
Variable generateContent : Request -> completion Response.
Variable parse_exam : string -> completion Exam.
Variable parse_result : string -> completion ExamResult.

(** [handleSubmit] on a panel that holds an exam. *)
Lemma handleSubmit_eq (exam : Exam) (s : State) :
  localExam s = Some exam ->
  exists r sv,
    gradeExam generateContent parse_result exam (answers s)
              (ExamPanel.service (panel s)) = (Normal r, sv) /\
    handleSubmit generateContent parse_result s
    = (Normal tt,
       completed exam r
         (set_panel (ExamPanel.set_service sv (panel s)) (set_isLoading true s))).
Proof.
  intros He.
  destruct (gradeExam_total generateContent parse_result exam (answers s)
              (ExamPanel.service (panel s))) as [r Hr].
  unfold result in Hr.
  destruct (gradeExam generateContent parse_result exam (answers s)
              (ExamPanel.service (panel s))) as [c sv] eqn:Hg.
  cbn in Hr. subst c. exists r, sv. split; [reflexivity|].
  unfold handleSubmit, submit_begin, bind, gets, modify, ret. cbn [fst snd].
  rewrite He. cbn [fst snd].
  unfold in_service, in_panel, ExamPanel.in_service. cbn [panel set_isLoading answers].
  rewrite Hg. apply submit_resume_eq.
Qed.

Lemma handleGenerateExam_eq (s : State) :
  exists newExam sv,
    generateExam generateContent parse_exam (App.difficultyLevel (app s))
                 (ExamPanel.service (panel s)) = (Normal newExam, sv) /\
    handleGenerateExam generateContent parse_exam s
    = (Normal tt,
       set_isLoading false
         (set_localExam (Some newExam)
            (set_panel (ExamPanel.set_service sv (panel (begun s))) (begun s)))).
Proof.
  destruct (generateExam_total generateContent parse_exam (App.difficultyLevel (app s))
              (ExamPanel.service (panel s))) as [newExam Hr].
  unfold result in Hr.
  destruct (generateExam generateContent parse_exam (App.difficultyLevel (app s))
              (ExamPanel.service (panel s))) as [c sv] eqn:Hg.
  cbn in Hr. subst c. exists newExam, sv. split; [reflexivity|].
  unfold handleGenerateExam, bind. rewrite generate_begin_eq.
  unfold in_service, in_panel, ExamPanel.in_service.
  assert (Hsv : ExamPanel.service (panel (begun s)) = ExamPanel.service (panel s)).
  { cbn. destruct (panel s) as [ld pl cx [node|] pd fr so ef sv']; reflexivity. }
  rewrite Hsv, Hg. reflexivity.
Qed.

(** *** From the answers typed to the prompt sent *)

(** Changes of the answer fields, in the order they are made. *)
Fixpoint typing (changes : list (Z * string)) : M State unit :=
  match changes with
  | [] => ret tt
  | (questionId, value) :: rest => handleAnswerChange questionId value ;; typing rest
  end.

(** The value typed last for a question, if any was. *)
Definition last_typed (changes : list (Z * string)) (questionId : Z) : option string :=
  fold_left (fun found change => if Z.eqb (fst change) questionId
                                 then Some (snd change) else found)
            changes None.

Lemma last_typed_snoc (changes : list (Z * string)) (k : Z) (v : string) (q : Z) :
  last_typed (changes ++ [(k, v)]) q
  = if Z.eqb k q then Some v else last_typed changes q.
Proof. unfold last_typed. rewrite fold_left_app. reflexivity. Qed.

Lemma typing_eq (changes : list (Z * string)) (s : State) :
  typing changes s
  = (Normal tt,
     set_answers (fold_left (fun m change => <[fst change := snd change]> m)
                            changes (answers s)) s).
Proof.
  revert s. induction changes as [|[k v] l IH]; intros s.
  - destruct s; reflexivity.
  - cbn [typing]. unfold bind, handleAnswerChange at 1, modify. cbn [fst snd].
    rewrite IH. destruct s; reflexivity.
Qed.

Lemma typed_lookup (changes : list (Z * string)) (m : gmap Z string) (q : Z) :
  fold_left (fun m change => <[fst change := snd change]> m) changes m !! q
  = match last_typed changes q with
    | Some v => Some v
    | None => m !! q
    end.
Proof.
  induction changes as [|[k v] l IH] using rev_ind; [reflexivity|].
  rewrite fold_left_app, last_typed_snoc. cbn [fold_left fst snd].
  destruct (Z.eqb_spec k q) as [->|Hne].
  - now rewrite lookup_insert_eq.
  - rewrite lookup_insert_ne by exact Hne. exact IH.
Qed.

(** The answer the grading prompt holds for a question after [changes]:
    the value typed last when it is not empty, the placeholder when the
    field was emptied, and otherwise what the panel held before. *)
Definition answer_sent (changes : list (Z * string)) (before : gmap Z string)
    (q : Question) : string :=
  match last_typed changes (id q) with
  | Some v => if truthy v then v else "No answer provided"
  | None => answer_or_default before q
  end.

(** X22. Whatever is typed into the answer fields, in whatever order, a submit
    sends one grading request, which holds for every question of the exam
    its text and the value typed last for its id. *)
Theorem typed_answers_graded (changes : list (Z * string)) (exam : Exam) (s : State) :
  localExam s = Some exam ->
  let s' := exec (typing changes ;; handleSubmit generateContent parse_result) s in
  sent (ExamPanel.service (panel s'))
  = sent (ExamPanel.service (panel s)) ++
    [{| model := "gemini-2.5-pro";
        contents :=
          GradingPrompt
            (map (fun q => {| question := questionText q;
                              answer := answer_sent changes (answers s) q |}) exam) |}].
Proof.
  intros He. cbv zeta. unfold exec, bind. rewrite typing_eq.
  set (typed := fold_left _ changes (answers s)).
  set (s1 := set_answers typed s).
  destruct (handleSubmit_eq exam s1 He) as (r & sv & Hg & Hs).
  rewrite Hs. cbn [fst snd completed panel set_panel ExamPanel.service
                   ExamPanel.set_service].
  pose proof (gradeExam_sends generateContent parse_result exam (answers s1)
                (ExamPanel.service (panel s1))) as Hsent.
  unfold exec in Hsent. rewrite Hg in Hsent. cbn [snd] in Hsent.
  rewrite Hsent. unfold grading_request. do 4 f_equal.
  apply map_ext. intros q. f_equal.
  unfold answer_sent, answer_or_default. cbn [answers s1 set_answers].
  unfold typed. rewrite typed_lookup.
  destruct (last_typed changes (id q)); reflexivity.
Qed.

(** *** A grading that fails *)

Definition grading_apology (q : Question) : Feedback :=
  {| questionId := id q; isCorrect := false;
     explanation := "Sorry, there was an error grading this question." |}.

Lemma find_apology (exam : Exam) (q : Question) :
  In q exam ->
  List.find (fun f => Z.eqb (questionId f) (id q)) (map grading_apology exam)
  = Some (grading_apology q).
Proof.
  induction exam as [|x l IH]; intros Hin; [destruct Hin|].
  cbn [map List.find grading_apology questionId].
  destruct (Z.eqb_spec (id x) (id q)) as [Heq|Hne].
  - unfold grading_apology. now rewrite Heq.
  - destruct Hin as [->|Hin]; [congruence|]. now apply IH.
Qed.

(** X23. When the grading of a submitted exam fails (the service rejects, answers
    without text or with text that does not parse), the panel leaves the
    spinner and shows the results view with score 0, every question of the
    exam marked wrong with the apology, and the level does not move. *)
Theorem grading_failure_shown (exam : Exam) (s : State) :
  localExam s = Some exam ->
  attempt_fails generateContent parse_result (grading_request exam (answers s)) ->
  let s' := exec (handleSubmit generateContent parse_result) s in
  renderContent s'
  = Results {| score := 0; feedback := map grading_apology exam |} exam /\
  App.difficultyLevel (app s') = App.difficultyLevel (app s) /\
  answers s' = answers s /\
  forall q, In q exam -> getFeedbackForQuestion (id q) s' = Some (grading_apology q).
Proof.
  intros He Hf. cbv zeta.
  destruct (handleSubmit_eq exam s He) as (r & sv & Hg & Hs).
  pose proof (gradeExam_fallback generateContent parse_result exam (answers s)
                (ExamPanel.service (panel s)) Hf) as Hr.
  unfold result in Hr. rewrite Hg in Hr. cbn [fst] in Hr. injection Hr as ->.
  unfold exec. rewrite Hs. cbn [snd].
  set (graded := {| score := 0; feedback := _ |}).
  set (s1 := set_panel _ _).
  destruct (handleExamComplete_fields graded exam (app s1)) as (Hc & Hx & Hl).
  assert (Hlocal : localExam (completed exam graded s1) = Some exam).
  { unfold completed. cbn [localExam].
    destruct (same_exam (Some exam) (App.currentExam (app s1)));
      [exact He | reflexivity]. }
  split; [|split; [|split]].
  - unfold renderContent. rewrite Hlocal.
    change (isLoading (completed exam graded s1)) with false.
    change (app (completed exam graded s1))
      with (App.handleExamComplete graded exam (app s1)).
    rewrite Hx. reflexivity.
  - change (app (completed exam graded s1))
      with (App.handleExamComplete graded exam (app s1)).
    rewrite Hl. reflexivity.
  - reflexivity.
  - intros q Hin. unfold getFeedbackForQuestion.
    change (app (completed exam graded s1))
      with (App.handleExamComplete graded exam (app s1)).
    rewrite Hx. now apply find_apology.
Qed.

(** *** The level the next exam is asked at *)

(** X24. A submit followed by the start of a new exam sends two requests: the
    grading of the exam with the answers held, then an exam at the level the
    grading left, which is one more (at most 10) when the score is above 70
    and the same otherwise. The new exam starts with no answers and no
    result, and is held when the call returns. *)
Theorem next_exam_level (exam : Exam) (s : State) :
  localExam s = Some exam ->
  let s1 := exec (handleSubmit generateContent parse_result) s in
  let s2 := exec (handleGenerateExam generateContent parse_exam) s1 in
  exists (r : ExamResult) (newExam : Exam) (level : Z),
    result (gradeExam generateContent parse_result exam (answers s))
           (ExamPanel.service (panel s)) = Normal r /\
    App.examResult (app s1) = Some r /\ App.currentExam (app s1) = Some exam /\
    level = (if App.over_70 r then Z.min (App.difficultyLevel (app s) + 1) 10
             else App.difficultyLevel (app s)) /\
    App.difficultyLevel (app s1) = level /\
    sent (ExamPanel.service (panel s2))
    = sent (ExamPanel.service (panel s)) ++
      [grading_request exam (answers s); exam_request level] /\
    localExam s2 = Some newExam /\ answers s2 = ∅ /\ isLoading s2 = false /\
    App.examResult (app s2) = None /\ App.currentExam (app s2) = None /\
    App.difficultyLevel (app s2) = level.
Proof.
  intros He. cbv zeta.
  destruct (handleSubmit_eq exam s He) as (r & sv & Hg & Hs).
  set (s0 := set_panel _ _) in Hs.
  assert (E1 : exec (handleSubmit generateContent parse_result) s = completed exam r s0)
    by (unfold exec; now rewrite Hs).
  rewrite E1.
  destruct (handleExamComplete_fields r exam (app s0)) as (Hc & Hx & Hl).
  destruct (handleGenerateExam_eq (completed exam r s0)) as (newExam & sv' & Hg' & Hs').
  set (s2 := set_isLoading false _) in Hs'.
  assert (E2 : exec (handleGenerateExam generateContent parse_exam) (completed exam r s0)
               = s2) by (unfold exec; now rewrite Hs').
  rewrite E2.
  change (app (completed exam r s0)) with (App.handleExamComplete r exam (app s0)) in *.
  exists r, newExam, (App.difficultyLevel (App.handleExamComplete r exam (app s0))).
  split; [unfold result; now rewrite Hg|].
  split; [exact Hx|]. split; [exact Hc|]. split; [exact Hl|]. split; [reflexivity|].
  split; [|now repeat split].
  unfold s2.
  cbn [panel set_isLoading set_localExam set_panel ExamPanel.service
       ExamPanel.set_service].
  pose proof (gradeExam_sends generateContent parse_result exam (answers s)
                (ExamPanel.service (panel s))) as H1.
  unfold exec in H1. rewrite Hg in H1. cbn [snd] in H1.
  pose proof (ServiceProperties.generateExam_sends generateContent parse_exam
                (App.difficultyLevel (App.handleExamComplete r exam (app s0)))
                (ExamPanel.service (panel (completed exam r s0)))) as H2.
  unfold exec in H2. rewrite Hg' in H2. cbn [snd] in H2.
  rewrite H2. cbn [completed panel s0 set_panel ExamPanel.service ExamPanel.set_service].
  rewrite H1, <- app_assoc. reflexivity.
Qed.

End Remote.

(** *** One call of the service at a time *)

(** The calls of [generateExam] and [gradeExam] that are waiting. *)
Definition in_flight (s : State) : nat :=
  (length (generating s) + length (grading s))%nat.

Definition consistent (s : State) : Prop :=
  (in_flight s <= 1)%nat /\
  (isLoading s = true <-> in_flight s = 1%nat) /\
  (App.examResult (app s) = None <-> App.currentExam (app s) = None) /\
  (forall exam, App.currentExam (app s) = Some exam -> localExam s = Some exam) /\
  (generating s <> [] -> App.currentExam (app s) = None) /\
  (forall exam given rest, grading s = (exam, given) :: rest ->
     localExam s = Some exam /\ answers s = given /\ App.currentExam (app s) = None).

Lemma in_panel_frame {A} (m : M ExamPanel.State A) (s : State) :
  exec (in_panel m) s = set_panel (exec m (panel s)) s.
Proof. unfold exec, in_panel. now destruct (m (panel s)). Qed.

Lemma set_panel_consistent (p : ExamPanel.State) (s : State) :
  consistent s -> consistent (set_panel p s).
Proof. intros H. exact H. Qed.

Lemma idle_of_view (s : State) :
  consistent s -> renderContent s <> Spinner ->
  isLoading s = false /\ generating s = [] /\ grading s = [].
Proof.
  intros (H1 & H2 & _) Hv. unfold renderContent in Hv.
  destruct (isLoading s) eqn:Hl; [congruence|]. split; [reflexivity|].
  unfold in_flight in *.
  destruct (generating s) as [|g gs], (grading s) as [|c cs]; cbn in *; try now split.
  all: exfalso; assert (false = true) by (apply H2; lia); discriminate.
Qed.

Lemma step_consistent (s : State) (e : event) :
  consistent s -> consistent (step s e).
Proof.
  intros Hc. pose proof Hc as (H1 & H2 & H3 & H4 & H5 & H6).
  unfold step. destruct e as [|newExam|questionId value| |result|questionId|a r|node];
    cbn [handle_event].
  - (* ClickGenerate *)
    unfold exec, bind, gets. cbn [fst snd].
    destruct (renderContent s) as [|result exam|exam|] eqn:Hv; try exact Hc.
    all: assert (Hi : renderContent s <> Spinner) by congruence;
      destruct (idle_of_view s Hc Hi) as (Hl & Hg & Hgr);
      rewrite generate_begin_eq; unfold modify; cbn [fst snd];
      unfold consistent, in_flight; cbn; rewrite Hg, Hgr; cbn;
      repeat split; try lia; try reflexivity; try discriminate.
  - (* ExamReady *)
    unfold exec, bind, gets. cbn [fst snd].
    destruct (generating s) as [|level rest] eqn:Hg; [exact Hc|].
    unfold in_flight in *. rewrite Hg in *. cbn [length] in *.
    assert (Hrest : rest = []) by (destruct rest; [reflexivity|cbn in H1; lia]).
    assert (Hgr : grading s = []) by (destruct (grading s); [reflexivity|cbn in H1; lia]).
    subst rest. unfold generate_resume, bind, modify. cbn [fst snd].
    assert (Hcur : App.currentExam (app s) = None) by (apply H5; discriminate).
    unfold consistent, in_flight. cbn. rewrite Hgr. cbn.
    repeat split; try lia; try discriminate; try apply H3; try assumption.
    + intros exam Hx. congruence.
    + intros _. exact Hcur.
  - (* TypeAnswer *)
    unfold exec, bind, gets. cbn [fst snd].
    destruct (renderContent s) as [|result exam|exam|] eqn:Hv; try exact Hc.
    destruct (asks questionId exam); [|exact Hc].
    assert (Hi : renderContent s <> Spinner) by congruence.
    destruct (idle_of_view s Hc Hi) as (Hl & Hg & Hgr).
    unfold handleAnswerChange, modify. cbn [fst snd].
    unfold consistent, in_flight. cbn. repeat split; try assumption; try apply H2;
      try apply H3.
    all: congruence.
  - (* Submit *)
    unfold exec, bind, gets. cbn [fst snd].
    destruct (renderContent s) as [|result exam|exam|] eqn:Hv; try exact Hc.
    assert (Hi : renderContent s <> Spinner) by congruence.
    destruct (idle_of_view s Hc Hi) as (Hl & Hg & Hgr).
    unfold renderContent in Hv. rewrite Hl in Hv.
    destruct (App.examResult (app s)) as [r|] eqn:Hres;
      destruct (localExam s) as [e|] eqn:Hloc; try discriminate.
    injection Hv as ->.
    assert (Hcur : App.currentExam (app s) = None) by (now apply H3).
    unfold submit_begin, bind, gets, modify, ret. cbn [fst snd]. rewrite Hloc.
    cbn [fst snd].
    unfold consistent, in_flight. cbn. rewrite Hg, Hgr, Hres, Hcur, Hloc. cbn.
    repeat split; try lia; try reflexivity; try discriminate.
    all: intros; congruence.
  - (* Graded *)
    unfold exec, bind, gets. cbn [fst snd].
    destruct (grading s) as [|[exam given] rest] eqn:Hgr; [exact Hc|].
    unfold in_flight in *. rewrite Hgr in *. cbn [length] in *.
    assert (Hrest : rest = []) by (destruct rest; [reflexivity|cbn in H1; lia]).
    assert (Hg : generating s = [])
      by (destruct (generating s); [reflexivity|cbn in H1; lia]).
    subst rest. unfold modify at 1. cbn [fst snd].
    rewrite submit_resume_eq. cbn [fst snd].
    destruct (H6 exam given [] eq_refl) as (Hloc & Hans & Hcur).
    destruct (handleExamComplete_fields result exam (app s)) as (Fc & Fx & _).
    unfold consistent, in_flight, completed.
    cbn [app localExam answers isLoading generating grading set_grading length].
    rewrite Hg, Fc, Fx, Hcur. cbn.
    repeat split; try lia; try discriminate.
    + intros exam' Hx. exact Hx.
    + intros Hx. now contradiction Hx.
  - (* ClickSpeaker *)
    unfold exec, bind, gets. cbn [fst snd].
    destruct (renderContent s) as [|result exam|exam|]; try exact Hc.
    destruct (getFeedbackForQuestion questionId s) as [f|]; [|exact Hc].
    destruct (asks questionId exam && truthy (explanation f)); [|exact Hc].
    change (consistent (exec (in_panel (ExamPanel.handle_event
                                          (ExamPanel.Play questionId))) s)).
    rewrite in_panel_frame. exact Hc.
  - (* Speech *)
    rewrite in_panel_frame. exact Hc.
  - (* Ended *)
    rewrite in_panel_frame. exact Hc.
Qed.

Lemma run_consistent (events : list event) (s : State) :
  consistent s -> consistent (run events s).
Proof.
  revert s. induction events as [|e l IH]; intros s H; [exact H|].
  cbn. apply IH, step_consistent, H.
Qed.

(** *** What a new exam shows *)

(** The views with a button that starts an exam. *)
Definition offers_exam (s : State) : bool :=
  match renderContent s with
  | Results _ _ | Welcome => true
  | _ => false
  end.

Definition is_ready (e : event) : bool :=
  match e with
  | ExamReady _ => true
  | _ => false
  end.

(** The call of [generateExam] made from [s0] is waiting. *)
Definition exam_awaited (s0 s : State) : Prop :=
  isLoading s = true /\ generating s = [App.difficultyLevel (app s0)] /\
  grading s = [] /\ answers s = ∅ /\ app s = App.handleNewExam (app s0).

Lemma click_awaited (s : State) :
  consistent s -> offers_exam s = true -> exam_awaited s (step s ClickGenerate).
Proof.
  intros Hc Ho. unfold offers_exam in Ho.
  assert (Hi : renderContent s <> Spinner) by (intros E; now rewrite E in Ho).
  destruct (idle_of_view s Hc Hi) as (Hl & Hg & Hgr).
  unfold step, exec. cbn [handle_event]. unfold bind, gets. cbn [fst snd].
  destruct (renderContent s) as [|result exam|exam|]; try discriminate.
  all: rewrite generate_begin_eq; unfold modify; cbn [fst snd];
    unfold exam_awaited; cbn; rewrite Hg; now repeat split.
Qed.

Lemma step_awaited (s0 s : State) (e : event) :
  exam_awaited s0 s -> is_ready e = false -> exam_awaited s0 (step s e).
Proof.
  intros Ha He. pose proof Ha as (Hl & Hg & Hgr & Hans & Happ).
  assert (Hv : renderContent s = Spinner) by (unfold renderContent; now rewrite Hl).
  unfold step.
  destruct e as [|newExam|questionId value| |result|questionId|a r|node];
    cbn [handle_event]; try discriminate.
  - unfold exec, bind, gets. cbn [fst snd]. rewrite Hv. exact Ha.
  - unfold exec, bind, gets. cbn [fst snd]. rewrite Hv. exact Ha.
  - unfold exec, bind, gets. cbn [fst snd]. rewrite Hv. exact Ha.
  - unfold exec, bind, gets. cbn [fst snd]. rewrite Hgr. exact Ha.
  - unfold exec, bind, gets. cbn [fst snd]. rewrite Hv. exact Ha.
  - rewrite in_panel_frame. exact Ha.
  - rewrite in_panel_frame. exact Ha.
Qed.

Lemma run_awaited (s0 : State) (events : list event) (s : State) :
  exam_awaited s0 s -> forallb (fun e => negb (is_ready e)) events = true ->
  exam_awaited s0 (run events s).
Proof.
  revert s. induction events as [|e l IH]; intros s Ha Hl; [exact Ha|].
  cbn [forallb] in Hl. apply andb_prop in Hl. destruct Hl as [He Hl].
  apply negb_true_iff in He. cbn. apply IH; [|exact Hl].
  now apply step_awaited.
Qed.

(** X25. After whatever events, a click where the view offers a new exam
    (welcome or results) makes one call of [generateExam], at the level held.
    Whatever the panel handles before that call returns, when it returns the
    panel shows the form of exactly the exam returned, with no answers, no
    result, no exam of the parent, the level as it was and no call
    waiting. *)
Theorem new_exam_shown (before between : list event) (newExam : Exam) :
  offers_exam (run before initial_state) = true ->
  forallb (fun e => negb (is_ready e)) between = true ->
  let s := run before initial_state in
  let s' := run (ClickGenerate :: between ++ [ExamReady newExam]) s in
  generating (step s ClickGenerate) = [App.difficultyLevel (app s)] /\
  renderContent s' = Form newExam /\ answers s' = ∅ /\
  App.examResult (app s') = None /\ App.currentExam (app s') = None /\
  App.difficultyLevel (app s') = App.difficultyLevel (app s) /\
  generating s' = [] /\ grading s' = [].
Proof.
  intros Ho Hb. cbv zeta.
  set (s := run before initial_state) in *.
  assert (Hc : consistent s).
  { apply run_consistent. unfold consistent, in_flight. cbn.
    repeat split; try lia; try discriminate; try reflexivity; intros; discriminate. }
  pose proof (click_awaited s Hc Ho) as Ha.
  pose proof (run_awaited s _ _ Ha Hb) as Hw.
  split; [apply Ha|].
  change (run (ClickGenerate :: between ++ [ExamReady newExam]) s)
    with (run (between ++ [ExamReady newExam]) (step s ClickGenerate)).
  unfold run at 1 2 3 4 5 6 7. rewrite fold_left_app.
  fold (run between (step s ClickGenerate)).
  set (w := run between (step s ClickGenerate)) in *.
  destruct Hw as (Hl & Hg & Hgr & Hans & Happ).
  cbn [fold_left]. unfold step at 1 2 3 4 5 6 7, exec. cbn [handle_event].
  unfold bind, gets. cbn [fst snd]. rewrite Hg.
  unfold generate_resume, bind, modify. cbn [fst snd].
  unfold renderContent. cbn. rewrite Happ, Hans, Hgr. cbn.
  now repeat split.
Qed.

(** X26. Whatever is clicked, typed and answered, in whatever order: at most one
    call of [generateExam] or [gradeExam] is waiting, the spinner shows
    exactly while one is, a grading that is waiting is for the exam and the
    answers the panel still holds, and a result is shown only with the exam
    it grades. *)
Theorem one_call_in_flight (events : list event) :
  let s := run events initial_state in
  (length (generating s) + length (grading s) <= 1)%nat /\
  (renderContent s = Spinner <->
   (length (generating s) + length (grading s) = 1)%nat) /\
  (forall exam given, In (exam, given) (grading s) ->
     localExam s = Some exam /\ answers s = given) /\
  (forall result exam, renderContent s = Results result exam ->
     App.examResult (app s) = Some result /\ App.currentExam (app s) = Some exam).
Proof.
  cbv zeta.
  assert (Hc : consistent (run events initial_state)).
  { apply run_consistent. unfold consistent, in_flight. cbn.
    repeat split; try lia; try discriminate; try reflexivity; intros; discriminate. }
  set (s := run events initial_state) in *.
  destruct Hc as (H1 & H2 & H3 & H4 & H5 & H6). unfold in_flight in *.
  split; [exact H1|]. split; [|split].
  - unfold renderContent. split.
    + intros Hv. apply H2. destruct (isLoading s); [reflexivity|].
      destruct (App.examResult (app s)), (localExam s); discriminate.
    + intros Hn. apply H2 in Hn. now rewrite Hn.
  - intros exam given Hin.
    destruct (grading s) as [|[e g] rest] eqn:Hgr; [destruct Hin|].
    assert (rest = []) by (destruct rest; [reflexivity|cbn in H1; lia]). subst rest.
    destruct Hin as [[= <- <-]|[]].
    destruct (H6 e g [] eq_refl) as (Ha & Hb & _). now split.
  - intros result exam Hv. unfold renderContent in Hv.
    destruct (isLoading s); [discriminate|].
    destruct (App.examResult (app s)) as [r|] eqn:Hr;
      destruct (localExam s) as [e|] eqn:Hl; try discriminate.
    injection Hv as -> ->. split; [reflexivity|].
    destruct (App.currentExam (app s)) as [c|] eqn:Hcur.
    + specialize (H4 c eq_refl). congruence.
    + destruct H3 as [_ Hx]. discriminate (Hx eq_refl).
Qed.

(** *** Instances *)

Definition two_sums : Exam :=
  [{| id := 1; questionText := "2+2?" |}; {| id := 2; questionText := "3+3?" |}].

(** The panel holding [two_sums], at level 1. *)
Definition sitting : State := set_localExam (Some two_sums) initial_state.

Definition unreachable : Request -> completion Response :=
  fun _ => Throw (Error "offline").

Definition answering : Request -> completion Response :=
  fun _ => Normal {| text := Some "{}"%string; candidates := None |}.

Definition passing : string -> completion ExamResult :=
  fun _ => Normal {| score := 80; feedback := [] |}.

Definition unparsed : string -> completion ExamResult :=
  fun _ => Throw SyntaxError.

Lemma typed_answers_graded_witness :
  localExam sitting = Some two_sums /\
  sent (ExamPanel.service
          (panel (exec (typing [(1, "4"); (2, "5"); (2, ""); (1, "5")]%string ;;
                        handleSubmit unreachable unparsed) sitting)))
  = sent (ExamPanel.service (panel sitting)) ++
    [{| model := "gemini-2.5-pro";
        contents :=
          GradingPrompt
            (map (fun q => {| question := questionText q;
                              answer := answer_sent
                                          [(1, "4"); (2, "5"); (2, ""); (1, "5")]%string
                                          (answers sitting) q |}) two_sums) |}].
Proof.
  split; [reflexivity|].
  exact (typed_answers_graded unreachable unparsed
           [(1, "4"); (2, "5"); (2, ""); (1, "5")]%string two_sums sitting eq_refl).
Defined.

Lemma grading_failure_shown_witness :
  localExam sitting = Some two_sums /\
  attempt_fails unreachable unparsed (grading_request two_sums (answers sitting)) /\
  renderContent (exec (handleSubmit unreachable unparsed) sitting)
  = Results {| score := 0; feedback := map grading_apology two_sums |} two_sums /\
  App.difficultyLevel (app (exec (handleSubmit unreachable unparsed) sitting)) = 1.
Proof.
  assert (Hf : attempt_fails unreachable unparsed
                 (grading_request two_sums (answers sitting)))
    by (now apply (remote_rejects _ _ _ (Error "offline"))).
  split; [reflexivity|]. split; [exact Hf|].
  pose proof (grading_failure_shown unreachable unparsed two_sums sitting eq_refl Hf) as H.
  cbv zeta in H. destruct H as (H1 & H2 & _). split; [exact H1 | exact H2].
Defined.

Lemma next_exam_level_witness :
  localExam sitting = Some two_sums /\
  exists (r : ExamResult) (newExam : Exam) (level : Z),
    result (gradeExam answering passing two_sums (answers sitting))
           (ExamPanel.service (panel sitting)) = Normal r /\
    level = (if App.over_70 r then Z.min (App.difficultyLevel (app sitting) + 1) 10
             else App.difficultyLevel (app sitting)) /\
    sent (ExamPanel.service
            (panel (exec (handleGenerateExam answering (fun _ => Normal two_sums))
                         (exec (handleSubmit answering passing) sitting))))
    = sent (ExamPanel.service (panel sitting)) ++
      [grading_request two_sums (answers sitting); exam_request level].
Proof.
  split; [reflexivity|].
  destruct (next_exam_level answering (fun _ => Normal two_sums) passing
              two_sums sitting eq_refl)
    as (r & newExam & level & H1 & _ & _ & H4 & _ & H6 & _).
  exists r, newExam, level. split; [exact H1|]. split; [exact H4 | exact H6].
Defined.

(** An exam sat and passed, and the explanation of its first question asked
    for. *)
Definition passed_and_listening : list event :=
  [ClickGenerate; ExamReady two_sums; Submit;
   Graded {| score := 100;
             feedback := [{| questionId := 1; isCorrect := true;
                             explanation := "Two and two make four." |}] |};
   ClickSpeaker 1].

Lemma new_exam_shown_witness :
  offers_exam (run passed_and_listening initial_state) = true /\
  forallb (fun e => negb (is_ready e))
          [Speech (Some "AAA="%string) None; TypeAnswer 1 "4"; Submit] = true /\
  renderContent
    (run (ClickGenerate
          :: [Speech (Some "AAA="%string) None; TypeAnswer 1 "4"; Submit]
             ++ [ExamReady two_sums])
         (run passed_and_listening initial_state))
  = Form two_sums /\
  App.difficultyLevel
    (app (run (ClickGenerate
               :: [Speech (Some "AAA="%string) None; TypeAnswer 1 "4"; Submit]
                  ++ [ExamReady two_sums])
              (run passed_and_listening initial_state)))
  = App.difficultyLevel (app (run passed_and_listening initial_state)).
Proof.
  assert (Ho : offers_exam (run passed_and_listening initial_state) = true)
    by (vm_compute; reflexivity).
  assert (Hb : forallb (fun e => negb (is_ready e))
                 [Speech (Some "AAA="%string) None; TypeAnswer 1 "4"; Submit] = true)
    by reflexivity.
  split; [exact Ho|]. split; [exact Hb|].
  pose proof (new_exam_shown passed_and_listening _ two_sums Ho Hb) as H.
  cbv zeta in H. destruct H as (_ & H2 & _ & _ & _ & H6 & _).
  split; [exact H2 | exact H6].
Defined.

Example exam_after_a_pass :
  let s := run [ClickGenerate; ExamReady two_sums; TypeAnswer 1 "4"; TypeAnswer 3 "x";
                TypeAnswer 2 "6"; Submit; TypeAnswer 1 "5";
                Graded {| score := 100; feedback := [] |}; ClickGenerate]
               initial_state in
  renderContent s = Spinner /\ generating s = [2] /\
  answers s = ∅ /\ App.difficultyLevel (app s) = 2.
Proof. vm_compute. repeat split. Qed.

End ExamFlowFacts.

(** ** [TutorPanel.tsx]: the typed chat

    The chat state of the panel beside its voice state. [handleSendMessage]
    is cut at [await fileToGenerativePart(fileToSend)] and at
    [await chatRef.current.sendMessage(...)]; what the file readers and the
    chat service answer are inputs. *)

Module TutorChat.
Import JS JS.Notations TutorPanel.

(** *** String methods *)

(** White space and line terminators among the code units below 256. *)
Definition is_space (c : ascii) : bool :=
  let n := nat_of_ascii c in
  Nat.eqb n 9 || Nat.eqb n 10 || Nat.eqb n 11 || Nat.eqb n 12 || Nat.eqb n 13 ||
  Nat.eqb n 32 || Nat.eqb n 160.

Fixpoint trimStart (s : string) : string :=
  match s with
  | String c rest => if is_space c then trimStart rest else s
  | EmptyString => EmptyString
  end.

Definition reverse (s : string) : string :=
  string_of_list_ascii (rev (list_ascii_of_string s)).

Definition trimEnd (s : string) : string := reverse (trimStart (reverse s)).

(** [s.trim()] *)
Definition trim (s : string) : string := trimEnd (trimStart s).

(** [s.startsWith(p)] *)
Definition startsWith (p s : string) : bool := String.prefix p s.

(** [s.split(',')], which has at least one element. *)
Fixpoint split_comma (s : string) : string * list string :=
  match s with
  | EmptyString => (EmptyString, [])
  | String c rest =>
      let (first, others) := split_comma rest in
      if Ascii.eqb c ","%char then (EmptyString, first :: others)
      else (String c first, others)
  end.

(** [s.split(',')[1]], [undefined] when there is no comma. *)
Definition after_first_comma (s : string) : option string :=
  head (snd (split_comma s)).

(** *** State *)

(** A [File]: the handlers read its [type]. *)
Record File : Type := { type : string }.

(** A [Part] of a chat message. *)
Inductive ChatPart : Type :=
  | TextPart (text : string)
  | InlinePart (data : option string) (mimeType : string).

(** Where a call of [handleSendMessage] waits. *)
Inductive stage : Type :=
  | Reading (parts : list ChatPart) (fileToSend : File)
                                       (* await fileToGenerativePart(fileToSend) *)
  | Replying                           (* await chatRef.current.sendMessage(...) *)
  | Stalled.                           (* on a promise that nothing will settle *)

Record State : Type := {
  voice : TutorPanel.State;            (* isRecording, error, transcripts, the session *)
  inputText : string;
  file : option File;
  filePreview : option string;
  isSending : bool;
  chatRef : bool;                      (* chatRef.current holds a Chat *)
  fileInput : option File;             (* what the file input element has selected *)
  previewing : nat;                    (* readers of handleFileChange still reading *)
  sending : list stage;                (* calls of handleSendMessage waiting, oldest first *)
  requests : list (list ChatPart);     (* messages given to chat.sendMessage *)
  uncaught : list exn                  (* errors thrown out of event handlers *)
}.

Definition set_voice (v : TutorPanel.State) (s : State) : State :=
  {| voice := v; inputText := inputText s; file := file s;
     filePreview := filePreview s; isSending := isSending s; chatRef := chatRef s;
     fileInput := fileInput s; previewing := previewing s; sending := sending s;
     requests := requests s; uncaught := uncaught s |}.

Definition set_inputText (v : string) (s : State) : State :=
  {| voice := voice s; inputText := v; file := file s;
     filePreview := filePreview s; isSending := isSending s; chatRef := chatRef s;
     fileInput := fileInput s; previewing := previewing s; sending := sending s;
     requests := requests s; uncaught := uncaught s |}.

Definition set_file (v : option File) (s : State) : State :=
  {| voice := voice s; inputText := inputText s; file := v;
     filePreview := filePreview s; isSending := isSending s; chatRef := chatRef s;
     fileInput := fileInput s; previewing := previewing s; sending := sending s;
     requests := requests s; uncaught := uncaught s |}.

Definition set_filePreview (v : option string) (s : State) : State :=
  {| voice := voice s; inputText := inputText s; file := file s;
     filePreview := v; isSending := isSending s; chatRef := chatRef s;
     fileInput := fileInput s; previewing := previewing s; sending := sending s;
     requests := requests s; uncaught := uncaught s |}.

Definition set_isSending (v : bool) (s : State) : State :=
  {| voice := voice s; inputText := inputText s; file := file s;
     filePreview := filePreview s; isSending := v; chatRef := chatRef s;
     fileInput := fileInput s; previewing := previewing s; sending := sending s;
     requests := requests s; uncaught := uncaught s |}.

Definition set_fileInput (v : option File) (s : State) : State :=
  {| voice := voice s; inputText := inputText s; file := file s;
     filePreview := filePreview s; isSending := isSending s; chatRef := chatRef s;
     fileInput := v; previewing := previewing s; sending := sending s;
     requests := requests s; uncaught := uncaught s |}.

Definition set_previewing (v : nat) (s : State) : State :=
  {| voice := voice s; inputText := inputText s; file := file s;
     filePreview := filePreview s; isSending := isSending s; chatRef := chatRef s;
     fileInput := fileInput s; previewing := v; sending := sending s;
     requests := requests s; uncaught := uncaught s |}.

Definition set_sending (v : list stage) (s : State) : State :=
  {| voice := voice s; inputText := inputText s; file := file s;
     filePreview := filePreview s; isSending := isSending s; chatRef := chatRef s;
     fileInput := fileInput s; previewing := previewing s; sending := v;
     requests := requests s; uncaught := uncaught s |}.

Definition set_requests (v : list (list ChatPart)) (s : State) : State :=
  {| voice := voice s; inputText := inputText s; file := file s;
     filePreview := filePreview s; isSending := isSending s; chatRef := chatRef s;
     fileInput := fileInput s; previewing := previewing s; sending := sending s;
     requests := v; uncaught := uncaught s |}.

Definition set_uncaught (v : list exn) (s : State) : State :=
  {| voice := voice s; inputText := inputText s; file := file s;
     filePreview := filePreview s; isSending := isSending s; chatRef := chatRef s;
     fileInput := fileInput s; previewing := previewing s; sending := sending s;
     requests := requests s; uncaught := v |}.

(** A handler of the voice side, on its part of the state. *)
Definition in_voice {A} (m : M TutorPanel.State A) : M State A :=
  fun s =>
    match m (voice s) with
    | (c, v) => (c, set_voice v s)
    end.

Definition setError (v : option string) : M State unit :=
  in_voice (modify (set_error v)).

(** [setTranscripts(prev => [...prev, entry])] *)
Definition addTranscript (entry : Transcript) : M State unit :=
  in_voice (modify (fun v => set_transcripts (transcripts v ++ [entry]) v)).

(** The panel as mounted, by the effect that reads [process.env.API_KEY]. *)
Definition mount (API_KEY : option string) : State :=
  let keyed := match API_KEY with
               | Some k => truthy k
               | None => false
               end in
  {| voice := if keyed then TutorPanel.initial_state
              else set_error (Some "API key not found."%string) TutorPanel.initial_state;
     inputText := ""; file := None; filePreview := None; isSending := false;
     chatRef := keyed; fileInput := None; previewing := 0%nat; sending := [];
     requests := []; uncaught := [] |}.

(** *** The file handlers *)

(** [handleFileChange], up to [reader.readAsDataURL(selectedFile)]. *)
Definition handleFileChange (selectedFile : option File) : M State unit :=
  match selectedFile with
  | Some f =>
      if startsWith "image/" (type f) then
        modify (set_file (Some f)) ;;
        modify (fun s => set_previewing (S (previewing s)) s)
      else modify (set_file None) ;; modify (set_filePreview None)
  | None => modify (set_file None) ;; modify (set_filePreview None)
  end.

(** The [onloadend] of a reader started by [handleFileChange]; [result] is
    [reader.result], [null] when the read failed. *)
Definition preview_loaded (result : option string) : M State unit :=
  waiting <- gets previewing ;;
  match waiting with
  | S n => modify (set_previewing n) ;; modify (set_filePreview result)
  | O => ret tt
  end.

Definition removeFile : M State unit :=
  modify (set_file None) ;;
  modify (set_filePreview None) ;;
  modify (set_fileInput None).

(** *** [handleSendMessage] *)

Definition apology : string := "Sorry, I couldn't get a response. Please try again.".

(** [chatRef.current.sendMessage({ message: parts })], up to its promise. *)
Definition sendMessage (parts : list ChatPart) : M State unit :=
  modify (fun s => set_requests (requests s ++ [parts]) s).

Definition wait (st : stage) : M State unit :=
  modify (fun s => set_sending (sending s ++ [st]) s).

(** Up to the first [await]. [now] is [Date.now()]. *)
Definition send_begin (now : Z) : M State unit :=
  textToSend <- gets inputText ;;
  fileToSend <- gets file ;;
  busy <- gets isSending ;;
  recording <- gets (fun s => isRecording (voice s)) ;;
  chat <- gets chatRef ;;
  if (negb (truthy (trim textToSend)) &&
      match fileToSend with Some _ => false | None => true end)
     || busy || recording || negb chat
  then ret tt
  else
    modify (set_isSending true) ;;
    setError None ;;
    preview <- gets filePreview ;;
    addTranscript {| id := now; speaker := user; text := textToSend;
                     image := preview |} ;;
    modify (set_inputText "") ;;
    removeFile ;;
    let parts := if truthy (trim textToSend) then [TextPart (trim textToSend)]
                 else [] in
    match fileToSend with
    | Some f => wait (Reading parts f)
    | None => sendMessage parts ;; wait Replying
    end.

(** The first call in [waiting] that is at a stage [pick] accepts, replaced
    by what [pick] gives for it. *)
Fixpoint advance {A} (pick : stage -> option (A * list stage)) (waiting : list stage)
    : option (A * list stage) :=
  match waiting with
  | [] => None
  | st :: rest =>
      match pick st with
      | Some (a, now) => Some (a, now ++ rest)
      | None =>
          match advance pick rest with
          | Some (a, rest') => Some (a, st :: rest')
          | None => None
          end
      end
  end.

(** The [onloadend] of the reader of [fileToGenerativePart], and the call up
    to its second [await]. With a [null] result the handler throws before it
    resolves the promise the call awaits. *)
Definition read_done (result : option string) : M State unit :=
  waiting <- gets sending ;;
  match result with
  | Some url =>
      match advance (fun st => match st with
                               | Reading parts f => Some ((parts, f), [Replying])
                               | _ => None
                               end) waiting with
      | Some ((parts, f), waiting') =>
          modify (set_sending waiting') ;;
          sendMessage (parts ++ [InlinePart (after_first_comma url) (type f)])
      | None => ret tt
      end
  | None =>
      match advance (fun st => match st with
                               | Reading _ _ => Some (tt, [Stalled])
                               | _ => None
                               end) waiting with
      | Some (_, waiting') =>
          modify (set_sending waiting') ;;
          modify (fun s => set_uncaught (uncaught s ++ [TypeError]) s)
      | None => ret tt
      end
  end.

(** From the second [await] on: the rest of the [try], the [catch], the
    [finally]. [reply] is [response.text], or the rejection. *)
Definition reply_done (reply : completion string) (now : Z) : M State unit :=
  waiting <- gets sending ;;
  match advance (fun st => match st with
                           | Replying => Some (tt, [])
                           | _ => None
                           end) waiting with
  | Some (_, waiting') =>
      modify (set_sending waiting') ;;
      match reply with
      | Normal answer =>
          addTranscript {| id := now + 1; speaker := tutor; text := answer;
                           image := None |}
      | Throw _ =>
          setError (Some apology) ;;
          addTranscript {| id := now + 1; speaker := tutor; text := apology;
                           image := None |}
      end ;;
      modify (set_isSending false)
  | None => ret tt
  end.

(** *** The event loop

    A control answers only while it is shown and enabled. *)

Inductive event : Type :=
  | Typed (value : string)                         (* the text area changes *)
  | Attach (selectedFile : option File)            (* the file input changes *)
  | PreviewLoaded (result : option string)
  | RemoveClick
  | Send (now : Z)                                 (* Enter, or the send button *)
  | ReadDone (result : option string)
  | Reply (reply : completion string) (now : Z)
  | Voice (e : TutorPanel.event).

Definition idle (s : State) : bool := negb (isRecording (voice s) || isSending s).

Definition handle_event (e : event) : M State unit :=
  match e with
  | Typed value =>
      enabled <- gets idle ;;
      if enabled then modify (set_inputText value) else ret tt
  | Attach selectedFile =>
      enabled <- gets idle ;;
      if enabled
      then modify (set_fileInput selectedFile) ;; handleFileChange selectedFile
      else ret tt
  | PreviewLoaded result => preview_loaded result
  | RemoveClick =>
      preview <- gets filePreview ;;
      match preview with
      | Some p => if truthy p then removeFile else ret tt
      | None => ret tt
      end
  | Send now => send_begin now
  | ReadDone result => read_done result
  | Reply reply now => reply_done reply now
  | Voice (Toggle genai) =>
      busy <- gets isSending ;;
      if busy then ret tt else in_voice (TutorPanel.handle_event (Toggle genai))
  | Voice e' => in_voice (TutorPanel.handle_event e')
  end.

Definition step (s : State) (e : event) : State := exec (handle_event e) s.

Definition run (events : list event) (s : State) : State := fold_left step events s.

End TutorChat.

Module TutorChatFacts.
Import JS JS.Notations Audio TutorPanel TutorPanelFacts TutorChat.

(** *** The voice side never starts recording by itself *)

Lemma spawn_isRecording (task : M TutorPanel.State unit) (s : TutorPanel.State) :
  isRecording (exec (spawn task) s) = isRecording (exec task s).
Proof. unfold exec, spawn, try_catch. now destruct (task s) as [[[]|e] s']. Qed.

Lemma spawn_stop_isRecording (s : TutorPanel.State) :
  isRecording (exec (spawn stopConversation) s) = false.
Proof.
  unfold exec. erewrite spawn_normal by apply stopConversation_eq. cbn [snd].
  destruct (sessionPromiseRef s) as [p|]; [destruct (settled (world s) !! p)|];
    try apply stopped_refs; reflexivity.
Qed.

Lemma start_catch_isRecording (err : exn) (s : TutorPanel.State) :
  isRecording (exec (start_catch err) s) = false.
Proof.
  unfold start_catch, bind, modify. unfold exec at 1. cbn [fst snd].
  set (s0 := set_error _ s).
  change (isRecording (exec (spawn stopConversation) s0) = false).
  apply spawn_stop_isRecording.
Qed.

Lemma start_resume_isRecording (env : StartEnv) (s : TutorPanel.State) :
  isRecording s = false -> isRecording (exec (start_resume env) s) = false.
Proof.
  intros Hs.
  destruct env as [[e1|] [e2|] [e3|]];
    unfold start_resume, try_catch, bind, construct, alloc, modify, throw;
    unfold exec at 1;
    cbn [fst snd getUserMedia newInputContext newOutputContext];
    try exact Hs;
    match goal with
    | |- isRecording (snd (start_catch ?e ?x)) = _ =>
        exact (start_catch_isRecording e x)
    end.
Qed.

Lemma onmessage_isRecording env message (s : TutorPanel.State) :
  isRecording (exec (onmessage env message) s) = isRecording s.
Proof.
  rewrite exec_onmessage.
  set (s1 := exec (onmessage_transcripts env message) s).
  assert (H1 : isRecording s1 = isRecording s).
  { unfold s1, exec. rewrite onmessage_transcripts_spec. cbn [snd].
    now destruct (turn_complete message). }
  rewrite <- H1. clearbody s1. clear H1.
  unfold exec, onmessage_audio, bind, lift, gets, modify, alloc, perform, ret.
  destruct (audioData_of message) as [[payload|]|e]; cbn [fst snd]; try reflexivity.
  destruct (truthy payload); cbn [fst snd]; [|reflexivity].
  destruct (decode payload) as [bytes|e]; cbn [fst snd]; [|reflexivity].
  destruct (decodeAudioData bytes 24000 1) as [buffer|e]; reflexivity.
Qed.

(** No event of the voice side but a click on the microphone raises the
    recording flag. *)
Lemma voice_step_calm (e : TutorPanel.event) (s : TutorPanel.State) :
  (forall genai, e <> Toggle genai) ->
  isRecording s = false -> isRecording (TutorPanel.step s e) = false.
Proof.
  intros Hne Hs. unfold TutorPanel.step, TutorPanel.handle_event.
  rewrite spawn_isRecording.
  destruct e as [genai|env|p o| |frame|env message|node| | |].
  - now contradiction (Hne genai).
  - now apply start_resume_isRecording.
  - unfold settle, bind, gets, modify. unfold exec at 1. cbn [fst snd].
    destruct (settled (world s) !! p); [exact Hs|].
    match goal with
    | |- isRecording (snd (run_waiters ?o ?ws ?x)) = _ =>
        exact (eq_trans (run_waiters_isRecording o ws x) Hs)
    end.
  - unfold exec, onopen, bind, gets, alloc, modify, throw. cbn [fst snd].
    destruct (mediaStreamRef s); exact Hs.
  - unfold exec, onaudioprocess, bind, gets, perform, modify. cbn [fst snd].
    destruct (sessionPromiseRef s) as [p|]; [|exact Hs].
    destruct (settled (world s) !! p) as [[session|reason]|]; exact Hs.
  - now rewrite onmessage_isRecording.
  - exact Hs.
  - unfold onerror, bind, modify. unfold exec at 1. cbn [fst snd].
    set (s0 := set_error _ s).
    change (isRecording (exec (spawn stopConversation) s0) = false).
    apply spawn_stop_isRecording.
  - exact Hs.
  - pose proof (spawn_stop_isRecording s) as H.
    unfold exec in *. unfold spawn, try_catch in H.
    destruct (stopConversation s) as [[[]|x] s1]; exact H.
Qed.

(** *** One message at a time, and never while recording *)

Definition chat_orderly (s : State) : Prop :=
  (isSending s = true <-> sending s <> []) /\
  (length (sending s) <= 1)%nat /\
  (isSending s = true -> isRecording (voice s) = false).

Lemma in_voice_frame {A} (m : M TutorPanel.State A) (s : State) :
  exec (in_voice m) s = set_voice (exec m (voice s)) s.
Proof. unfold exec, in_voice. now destruct (m (voice s)). Qed.

Lemma quiet_sending (s : State) :
  chat_orderly s -> isSending s = false -> sending s = [].
Proof.
  intros (H1 & _) Hs. destruct (sending s) as [|st l]; [reflexivity|].
  assert (isSending s = true) by (apply H1; discriminate). congruence.
Qed.

Lemma one_sending (s : State) :
  chat_orderly s -> sending s = [] \/ exists st, sending s = [st] /\ isSending s = true.
Proof.
  intros (H1 & H2 & _). destruct (sending s) as [|st [|st' l]] eqn:E.
  - now left.
  - right. exists st. split; [reflexivity|]. apply H1. discriminate.
  - cbn in H2. lia.
Qed.

(** What a step does to the requests: nothing, or one more, and then from
    a state that does not record. *)
Lemma chat_step_orderly (s : State) (e : event) :
  chat_orderly s ->
  chat_orderly (step s e) /\
  (requests (step s e) = requests s \/
   (isRecording (voice s) = false /\ isRecording (voice (step s e)) = false /\
    exists parts, requests (step s e) = requests s ++ [parts])).
Proof.
  intros Ho. pose proof Ho as (H1 & H2 & H3).
  destruct e as [value|selectedFile|result| |now|result|reply now|e'].
  - (* Typed *)
    unfold step, exec, handle_event, bind, gets, modify. cbn [fst snd].
    destruct (idle s); cbn [fst snd]; split; try exact Ho; now left.
  - (* Attach *)
    unfold step, exec, handle_event, handleFileChange, bind, gets, modify.
    cbn [fst snd].
    destruct (idle s); cbn [fst snd]; [|split; [exact Ho | now left]].
    destruct selectedFile as [f|]; [destruct (startsWith "image/" (type f))|];
      cbn [fst snd]; (split; [exact Ho | now left]).
  - (* PreviewLoaded *)
    unfold step, exec, handle_event, preview_loaded, bind, gets, modify, ret.
    cbn [fst snd].
    destruct (previewing s); cbn [fst snd]; (split; [exact Ho | now left]).
  - (* RemoveClick *)
    unfold step, exec, handle_event, removeFile, bind, gets, modify, ret.
    cbn [fst snd].
    destruct (filePreview s) as [p|]; [destruct (truthy p)|]; cbn [fst snd];
      (split; [exact Ho | now left]).
  - (* Send *)
    unfold step, exec, handle_event, send_begin, bind, gets. cbn [fst snd].
    destruct ((negb (truthy (trim (inputText s))) &&
               match file s with Some _ => false | None => true end)
              || isSending s || isRecording (voice s) || negb (chatRef s)) eqn:G.
    { cbn [fst snd ret]. split; [exact Ho | now left]. }
    apply orb_false_iff in G. destruct G as [G _].
    apply orb_false_iff in G. destruct G as [G Hrec].
    apply orb_false_iff in G. destruct G as [_ Hbusy].
    pose proof (quiet_sending s Ho Hbusy) as Hq.
    unfold setError, addTranscript, removeFile, sendMessage, wait, in_voice,
      bind, gets, modify. cbn [fst snd].
    destruct (file s) as [f|]; cbn [fst snd].
    + split; [|now left]. unfold chat_orderly. cbn. rewrite Hq. cbn.
      repeat split; try lia; try discriminate; try (intros _; exact Hrec).
    + split.
      * unfold chat_orderly. cbn. rewrite Hq. cbn.
        repeat split; try lia; try discriminate; try (intros _; exact Hrec).
      * right. cbn. split; [exact Hrec|]. split; [exact Hrec|]. eauto.
  - (* ReadDone *)
    unfold step, exec, handle_event, read_done, bind, gets. cbn [fst snd].
    destruct (one_sending s Ho) as [Hq|(st & Hq & Hb)]; rewrite Hq.
    + destruct result; cbn [advance fst snd ret]; (split; [exact Ho | now left]).
    + destruct result as [url|], st as [parts f| |]; cbn [advance fst snd ret];
        try (split; [exact Ho | now left]).
      * unfold sendMessage, modify. cbn [fst snd]. split.
        -- unfold chat_orderly. cbn. rewrite Hb.
           repeat split; try lia; try discriminate; try (intros _; apply H3, Hb).
        -- right. cbn. specialize (H3 Hb). split; [exact H3|]. split; [exact H3|].
           eauto.
      * unfold modify. cbn [fst snd]. split; [|now left].
        unfold chat_orderly. cbn. rewrite Hb.
        repeat split; try lia; try discriminate; try (intros _; apply H3, Hb).
  - (* Reply *)
    unfold step, exec, handle_event, reply_done, bind, gets. cbn [fst snd].
    destruct (one_sending s Ho) as [Hq|(st & Hq & Hb)]; rewrite Hq.
    + cbn [advance fst snd ret]. split; [exact Ho | now left].
    + destruct st as [parts f| |]; cbn [advance fst snd ret];
        try (split; [exact Ho | now left]).
      unfold setError, addTranscript, in_voice, bind, modify. cbn [fst snd].
      destruct reply as [answer|err]; cbn [fst snd]; (split; [|now left]);
        unfold chat_orderly; cbn; repeat split; try lia; try discriminate;
        try (intros; congruence).
  - (* Voice *)
    assert (Hframe : forall v, isSending (set_voice v s) = isSending s /\
                               sending (set_voice v s) = sending s /\
                               requests (set_voice v s) = requests s)
      by (intros v; now repeat split).
    destruct e' as [genai|env|p o| |frame|env message|node| | |];
      unfold step; cbn [handle_event].
    1: { unfold exec, bind, gets. cbn [fst snd].
         destruct (isSending s) eqn:Hb; cbn [fst snd ret];
           [split; [exact Ho | now left]|].
         fold (exec (in_voice (TutorPanel.handle_event (Toggle genai))) s).
         rewrite in_voice_frame. split; [|now left].
         unfold chat_orderly. cbn. rewrite Hb. repeat split; try assumption;
           try apply H1; try discriminate. }
    all: rewrite in_voice_frame; split; try (now left).
    all: unfold chat_orderly; cbn; repeat split; try assumption; try apply H1.
    all: intros Hb; apply voice_step_calm; try discriminate; now apply H3.
Qed.

Lemma mount_orderly (API_KEY : option string) : chat_orderly (mount API_KEY).
Proof. unfold chat_orderly. cbn. repeat split; try lia; try discriminate; congruence. Qed.

Lemma chat_run_orderly (events : list event) (s : State) :
  chat_orderly s -> chat_orderly (run events s).
Proof.
  revert s. induction events as [|e l IH]; intros s H; [exact H|].
  cbn. apply IH. now apply chat_step_orderly.
Qed.

(** X27. Whatever happens in the panel, in whatever order: at most one typed
    message is on its way, [isSending] is true exactly while one is, nothing
    is being sent while the voice session records, and every message given to
    the chat service is given from a state that does not record. *)
Theorem one_message_never_while_recording
    (API_KEY : option string) (events : list event) (e : event) :
  let s := run events (mount API_KEY) in
  (length (sending s) <= 1)%nat /\
  (isSending s = true <-> sending s <> []) /\
  (isSending s = true -> isRecording (voice s) = false) /\
  (requests (step s e) = requests s \/
   (isRecording (voice s) = false /\ isRecording (voice (step s e)) = false /\
    exists parts, requests (step s e) = requests s ++ [parts])).
Proof.
  cbv zeta.
  assert (Ho : chat_orderly (run events (mount API_KEY)))
    by (apply chat_run_orderly, mount_orderly).
  destruct (chat_step_orderly _ e Ho) as [_ Hr].
  destruct Ho as (H1 & H2 & H3). repeat split; try assumption; apply H1.
Qed.

(** *** One exchange *)

(** The parts made of the text typed. *)
Definition text_parts (typed : string) : list ChatPart :=
  if truthy (trim typed) then [TextPart (trim typed)] else [].

(** The entry that answers a message. *)
Definition answer_entry (reply : completion string) (now : Z) : Transcript :=
  {| id := now + 1; speaker := tutor;
     text := match reply with
             | Normal answer => answer
             | Throw _ => apology
             end;
     image := None |}.

(** X28. A message sent from a panel that is neither sending nor recording, with
    some text or an image attached, read and answered: the log grows by the
    user's entry, with the text as typed and the preview shown, and by one
    entry of the tutor, the answer or the apology; the chat service is given
    one message, the trimmed text if there is any and then the image; the
    input is cleared, and the error shown is the apology exactly when the
    service rejected. *)
Theorem message_exchange (s : State) (now later : Z) (url : string)
    (reply : completion string) :
  isSending s = false -> sending s = [] ->
  isRecording (voice s) = false -> chatRef s = true ->
  truthy (trim (inputText s)) = true \/ file s <> None ->
  let events := Send now ::
                match file s with
                | Some _ => [ReadDone (Some url)]
                | None => []
                end ++ [Reply reply later] in
  let s' := run events s in
  transcripts (voice s')
  = transcripts (voice s) ++
    [{| id := now; speaker := user; text := inputText s; image := filePreview s |};
     answer_entry reply later] /\
  requests s'
  = requests s ++
    [text_parts (inputText s) ++
     match file s with
     | Some f => [InlinePart (after_first_comma url) (type f)]
     | None => []
     end] /\
  error (voice s') = match reply with
                     | Normal _ => None
                     | Throw _ => Some apology
                     end /\
  inputText s' = ""%string /\ file s' = None /\ filePreview s' = None /\
  fileInput s' = None /\ isSending s' = false /\ sending s' = [].
Proof.
  intros Hbusy Hq Hrec Hchat Hcontent. cbv zeta.
  destruct s as [v typed fl pv busy chat fi pw sd rq uc].
  cbn [isSending sending voice chatRef inputText file filePreview requests] in *.
  subst. unfold text_parts, answer_entry.
  set (trimmed := trim typed) in *.
  assert (G : (negb (truthy trimmed) &&
               match fl with Some _ => false | None => true end) = false).
  { destruct Hcontent as [Ht|Hf]; [now rewrite Ht|].
    destruct fl; [apply andb_false_r | congruence]. }
  destruct fl as [f|]; cbn [app run fold_left];
    unfold step, exec, handle_event, send_begin, read_done, reply_done,
      setError, addTranscript, removeFile, sendMessage, wait, in_voice;
    unfold bind, gets, modify, ret;
    cbn [fst snd inputText file isSending chatRef voice filePreview sending];
    fold trimmed; rewrite G, Hrec; cbn [orb negb fst snd advance app];
    destruct (truthy trimmed), reply as [answer|err]; cbn;
    rewrite <- ?app_assoc; repeat split.
Qed.

(** *** A read that fails *)

(** The call of [handleSendMessage] that is left waits for nothing that
    will come. *)
Definition stuck (s : State) : Prop :=
  isSending s = true /\ sending s = [Stalled] /\ isRecording (voice s) = false.

Lemma step_stuck (s : State) (e : event) :
  stuck s ->
  stuck (step s e) /\ requests (step s e) = requests s /\
  inputText (step s e) = inputText s.
Proof.
  intros (Hb & Hq & Hrec).
  assert (Hidle : idle s = false) by (unfold idle; now rewrite Hb, orb_true_r).
  destruct e as [value|selectedFile|result| |now|result|reply now|e'].
  - unfold step, exec, handle_event, bind, gets, modify. cbn [fst snd].
    rewrite Hidle. cbn. now repeat split.
  - unfold step, exec, handle_event, bind, gets, modify. cbn [fst snd].
    rewrite Hidle. cbn. now repeat split.
  - unfold step, exec, handle_event, preview_loaded, bind, gets, modify, ret.
    cbn [fst snd]. destruct (previewing s); cbn; now repeat split.
  - unfold step, exec, handle_event, removeFile, bind, gets, modify, ret.
    cbn [fst snd].
    destruct (filePreview s) as [p|]; [destruct (truthy p)|]; cbn; now repeat split.
  - unfold step, exec, handle_event, send_begin, bind, gets. cbn [fst snd].
    rewrite Hb, orb_true_r. cbn. now repeat split.
  - unfold step, exec, handle_event, read_done, bind, gets. cbn [fst snd].
    rewrite Hq. destruct result; cbn; now repeat split.
  - unfold step, exec, handle_event, reply_done, bind, gets. cbn [fst snd].
    rewrite Hq. cbn. now repeat split.
  - destruct e' as [genai|env|p o| |frame|env message|node| | |];
      unfold step; cbn [handle_event].
    1: { unfold exec, bind, gets. cbn [fst snd]. rewrite Hb. cbn. now repeat split. }
    all: rewrite in_voice_frame; unfold stuck; cbn; repeat split; try assumption.
    all: apply voice_step_calm; try discriminate; exact Hrec.
Qed.

Lemma run_stuck (events : list event) (s : State) :
  stuck s ->
  stuck (run events s) /\ requests (run events s) = requests s /\
  inputText (run events s) = inputText s.
Proof.
  revert s. induction events as [|e l IH]; intros s H; [now split|].
  destruct (step_stuck s e H) as (H1 & H2 & H3).
  destruct (IH _ H1) as (I1 & I2 & I3).
  change (run (e :: l) s) with (run l (step s e)).
  rewrite I2, I3. split; [exact I1|]. now split.
Qed.

(** X29. When the read of the attached image fails while a message is being
    sent, the handler of the reader throws and the call waits forever:
    whatever happens afterwards, [isSending] stays true, so the text area, the
    attach button, the send button and the microphone stay disabled, and
    nothing is given to the chat service any more. *)
Theorem failed_read_blocks (API_KEY : option string) (before after : list event)
    (parts : list ChatPart) (f : File) :
  let s := run before (mount API_KEY) in
  sending s = [Reading parts f] ->
  let s' := run (ReadDone None :: after) s in
  isSending s' = true /\ requests s' = requests s /\
  inputText s' = inputText s /\ isRecording (voice s') = false /\
  forall e, requests (step s' e) = requests s /\ isSending (step s' e) = true.
Proof.
  cbv zeta. intros Hq.
  assert (Ho : chat_orderly (run before (mount API_KEY)))
    by (apply chat_run_orderly, mount_orderly).
  set (s := run before (mount API_KEY)) in *.
  destruct Ho as (H1 & _ & H3).
  assert (Hb : isSending s = true) by (apply H1; rewrite Hq; discriminate).
  assert (Hs : stuck (step s (ReadDone None))).
  { unfold step, exec, handle_event, read_done, bind, gets, modify. cbn [fst snd].
    rewrite Hq. cbn. repeat split; [exact Hb | now apply H3]. }
  assert (Hf : requests (step s (ReadDone None)) = requests s /\
               inputText (step s (ReadDone None)) = inputText s).
  { unfold step, exec, handle_event, read_done, bind, gets, modify. cbn [fst snd].
    rewrite Hq. cbn. now split. }
  destruct Hf as [Hf1 Hf2].
  change (run (ReadDone None :: after) s) with (run after (step s (ReadDone None))).
  destruct (run_stuck after _ Hs) as (S1 & S2 & S3).
  rewrite S2, S3, Hf1, Hf2.
  split; [apply S1|]. split; [reflexivity|]. split; [reflexivity|].
  split; [apply S1|]. intros e.
  destruct (step_stuck _ e S1) as (T1 & T2 & _). rewrite T2, S2, Hf1.
  split; [reflexivity | apply T1].
Qed.

(** *** What is given to the chat service *)

(** A list of code units that does not begin with white space. *)
Definition unspaced (l : list ascii) : Prop :=
  match l with
  | [] => True
  | c :: _ => is_space c = false
  end.

(** A text with no white space at either end. *)
Definition trimmed (t : string) : Prop :=
  unspaced (list_ascii_of_string t) /\ unspaced (rev (list_ascii_of_string t)).

Fixpoint skip_spaces (l : list ascii) : list ascii :=
  match l with
  | c :: rest => if is_space c then skip_spaces rest else l
  | [] => []
  end.

Lemma trimStart_skip (s : string) :
  list_ascii_of_string (trimStart s) = skip_spaces (list_ascii_of_string s).
Proof.
  induction s as [|c s IH]; [reflexivity|]. cbn.
  destruct (is_space c); [exact IH | reflexivity].
Qed.

Lemma reverse_rev (s : string) :
  list_ascii_of_string (reverse s) = rev (list_ascii_of_string s).
Proof. unfold reverse. apply list_ascii_of_string_of_list_ascii. Qed.

Lemma skip_spaces_unspaced (l : list ascii) : unspaced (skip_spaces l).
Proof.
  induction l as [|c l IH]; [exact I|]. cbn.
  destruct (is_space c) eqn:E; [exact IH | exact E].
Qed.

Lemma skip_spaces_suffix (l : list ascii) : exists p, l = p ++ skip_spaces l.
Proof.
  induction l as [|c l [p IH]]; [now exists []|]. cbn.
  destruct (is_space c); [|now exists []].
  exists (c :: p). cbn. now f_equal.
Qed.

Lemma unspaced_prefix (b q : list ascii) : unspaced (b ++ q) -> unspaced b.
Proof. destruct b; [intros _; exact I | intros H; exact H]. Qed.

(** What [trim] returns has no white space at either end. *)
Lemma trim_trimmed (s : string) : trimmed (trim s).
Proof.
  unfold trimmed, trim, trimEnd.
  rewrite reverse_rev, trimStart_skip, reverse_rev, trimStart_skip.
  set (a := skip_spaces (list_ascii_of_string s)).
  assert (Ha : unspaced a) by apply skip_spaces_unspaced.
  split.
  - destruct (skip_spaces_suffix (rev a)) as [p Hp].
    apply (unspaced_prefix _ (rev p)).
    rewrite <- rev_app_distr, <- Hp, rev_involutive. exact Ha.
  - rewrite rev_involutive. apply skip_spaces_unspaced.
Qed.

(** A message with something in it: a trimmed text that is not empty, an
    image, or such a text followed by an image. *)
Inductive sendable : list ChatPart -> Prop :=
  | text_alone (t : string) :
      truthy t = true -> trimmed t -> sendable [TextPart t]
  | image_alone (data : option string) (mimeType : string) :
      startsWith "image/" mimeType = true -> sendable [InlinePart data mimeType]
  | text_and_image (t : string) (data : option string) (mimeType : string) :
      truthy t = true -> trimmed t -> startsWith "image/" mimeType = true ->
      sendable [TextPart t; InlinePart data mimeType].

Definition is_image (f : File) : Prop := startsWith "image/" (type f) = true.

Definition text_only (parts : list ChatPart) : Prop :=
  parts = [] \/ exists t, parts = [TextPart t] /\ truthy t = true /\ trimmed t.

Definition tidy (s : State) : Prop :=
  (forall f, file s = Some f -> is_image f) /\
  (forall parts f, In (Reading parts f) (sending s) -> is_image f /\ text_only parts) /\
  Forall sendable (requests s).

Lemma sendable_with_image (parts : list ChatPart) (f : File) (data : option string) :
  text_only parts -> is_image f -> sendable (parts ++ [InlinePart data (type f)]).
Proof.
  intros [->|(t & -> & Ht & Htr)] Hf; cbn.
  - now apply image_alone.
  - now apply text_and_image.
Qed.

Lemma step_tidy (s : State) (e : event) :
  chat_orderly s -> tidy s -> tidy (step s e).
Proof.
  intros Ho Htidy. pose proof Htidy as (T1 & T2 & T3).
  destruct e as [value|selectedFile|result| |now|result|reply now|e'].
  - unfold step, exec, handle_event, bind, gets, modify. cbn [fst snd].
    destruct (idle s); cbn [fst snd]; exact Htidy.
  - unfold step, exec, handle_event, handleFileChange, bind, gets, modify.
    cbn [fst snd].
    destruct (idle s); cbn [fst snd]; [|exact Htidy].
    destruct selectedFile as [f|];
      [destruct (startsWith "image/" (type f)) eqn:Hf|]; cbn [fst snd];
      (split; [|split; assumption]); cbn; intros f' Hf'; try discriminate.
    injection Hf' as <-. exact Hf.
  - unfold step, exec, handle_event, preview_loaded, bind, gets, modify, ret.
    cbn [fst snd]. destruct (previewing s); cbn [fst snd]; exact Htidy.
  - unfold step, exec, handle_event, removeFile, bind, gets, modify, ret.
    cbn [fst snd].
    destruct (filePreview s) as [p|]; [destruct (truthy p)|]; cbn [fst snd];
      try (exact Htidy).
    split; [|split; assumption]. cbn. intros f' Hf'. discriminate.
  - unfold step, exec, handle_event, send_begin, bind, gets. cbn [fst snd].
    destruct ((negb (truthy (trim (inputText s))) &&
               match file s with Some _ => false | None => true end)
              || isSending s || isRecording (voice s) || negb (chatRef s)) eqn:G.
    { cbn [fst snd ret]. exact Htidy. }
    apply orb_false_iff in G. destruct G as [G _].
    apply orb_false_iff in G. destruct G as [G _].
    apply orb_false_iff in G. destruct G as [G Hbusy].
    pose proof (quiet_sending s Ho Hbusy) as Hq.
    unfold setError, addTranscript, removeFile, sendMessage, wait, in_voice,
      bind, gets, modify. cbn [fst snd].
    destruct (file s) as [f|] eqn:Hfile; cbn [fst snd].
    + split; [|split]; cbn.
      * intros f' Hf'. discriminate.
      * rewrite Hq. intros parts f' [[= <- <-]|[]]. split; [now apply T1|].
        unfold text_only. destruct (truthy (trim (inputText s))) eqn:Ht;
          [right; exists (trim (inputText s)); repeat split;
             [exact Ht | apply trim_trimmed ..]
          |now left].
      * exact T3.
    + rewrite andb_true_r in G. apply negb_false_iff in G.
      split; [|split]; cbn.
      * intros f' Hf'. discriminate.
      * rewrite Hq. intros parts f' [[=]|[]].
      * apply Forall_app. split; [exact T3|]. constructor; [|constructor].
        rewrite G. apply text_alone; [exact G | apply trim_trimmed].
  - unfold step, exec, handle_event, read_done, bind, gets. cbn [fst snd].
    destruct (one_sending s Ho) as [Hq|(st & Hq & Hb)]; rewrite Hq.
    + destruct result; cbn [advance fst snd ret]; exact Htidy.
    + destruct result as [url|], st as [parts f| |]; cbn [advance fst snd ret];
        try (exact Htidy).
      * unfold sendMessage, modify. cbn [fst snd].
        destruct (T2 parts f) as [Hf Hp]; [rewrite Hq; now left|].
        split; [|split]; cbn.
        -- exact T1.
        -- intros parts' f' [[=]|[]].
        -- apply Forall_app. split; [exact T3|]. constructor; [|constructor].
           now apply sendable_with_image.
      * unfold modify. cbn [fst snd]. split; [|split]; cbn.
        -- exact T1.
        -- intros parts' f' [[=]|[]].
        -- exact T3.
  - unfold step, exec, handle_event, reply_done, bind, gets. cbn [fst snd].
    destruct (one_sending s Ho) as [Hq|(st & Hq & Hb)]; rewrite Hq.
    + cbn [advance fst snd ret]. exact Htidy.
    + destruct st as [parts f| |]; cbn [advance fst snd ret];
        try (exact Htidy).
      unfold setError, addTranscript, in_voice, bind, modify. cbn [fst snd].
      destruct reply as [answer|err]; cbn [fst snd];
        (split; [|split]); cbn; try assumption; intros parts' f' [].
  - destruct e' as [genai|env|p o| |frame|env message|node| | |];
      unfold step; cbn [handle_event].
    1: { unfold exec, bind, gets. cbn [fst snd].
         destruct (isSending s); cbn [fst snd ret]; [exact Htidy|].
         fold (exec (in_voice (TutorPanel.handle_event (Toggle genai))) s).
         rewrite in_voice_frame. exact Htidy. }
    all: rewrite in_voice_frame; exact Htidy.
Qed.

Lemma run_tidy (events : list event) (s : State) :
  chat_orderly s -> tidy s -> tidy (run events s).
Proof.
  revert s. induction events as [|e l IH]; intros s Ho Ht; [exact Ht|].
  cbn. apply IH; [now apply chat_step_orderly | now apply step_tidy].
Qed.

(** X30. Nothing empty and nothing but images is ever given to the chat
    service: whatever happens in the panel, every message given to
    [sendMessage] is a trimmed text that is not empty, an image of a type
    that starts with [image/], or such a text followed by such an image; and
    the file held is always of such a type. *)
Theorem only_text_and_images_sent (API_KEY : option string) (events : list event) :
  let s := run events (mount API_KEY) in
  Forall sendable (requests s) /\
  (forall f, file s = Some f -> startsWith "image/" (type f) = true).
Proof.
  cbv zeta.
  assert (Ht : tidy (run events (mount API_KEY))).
  { apply run_tidy; [apply mount_orderly|].
    split; [|split]; cbn; [discriminate | intros parts f [] | constructor]. }
  destruct Ht as (T1 & _ & T3). split; [exact T3 | exact T1].
Qed.

(** *** Instances *)

Definition picture : File := {| type := "image/png" |}.

(** Text typed and a picture attached, its preview loaded. *)
Definition composed : State :=
  run [Typed "  what is this? "; Attach (Some picture);
       PreviewLoaded (Some "data:image/png;base64,iVBORw0K"%string)]
      (mount (Some "key"%string)).

Lemma message_exchange_witness :
  isSending composed = false /\ sending composed = [] /\
  isRecording (voice composed) = false /\ chatRef composed = true /\
  (truthy (trim (inputText composed)) = true \/ file composed <> None) /\
  requests (run [Send 10; ReadDone (Some "data:image/png;base64,iVBORw0K"%string);
                 Reply (Normal "A cat."%string) 20] composed)
  = [[TextPart "what is this?"; InlinePart (Some "iVBORw0K"%string) "image/png"]] /\
  transcripts (voice (run [Send 10;
                           ReadDone (Some "data:image/png;base64,iVBORw0K"%string);
                           Reply (Normal "A cat."%string) 20] composed))
  = [{| id := 10; speaker := user; text := "  what is this? ";
        image := Some "data:image/png;base64,iVBORw0K"%string |};
     {| id := 21; speaker := tutor; text := "A cat."; image := None |}].
Proof.
  assert (H1 : isSending composed = false) by reflexivity.
  assert (H2 : sending composed = []) by reflexivity.
  assert (H3 : isRecording (voice composed) = false) by reflexivity.
  assert (H4 : chatRef composed = true) by reflexivity.
  assert (H5 : truthy (trim (inputText composed)) = true \/ file composed <> None)
    by (left; reflexivity).
  repeat (split; [assumption|]).
  pose proof (message_exchange composed 10 20 "data:image/png;base64,iVBORw0K"
                (Normal "A cat."%string) H1 H2 H3 H4 H5) as H.
  cbv zeta in H. destruct H as (Ht & Hr & _).
  split; [exact Hr | exact Ht].
Defined.

Lemma failed_read_blocks_witness :
  sending (run [Typed "look"; Attach (Some picture); Send 10]
               (mount (Some "key"%string)))
  = [Reading [TextPart "look"] picture] /\
  isSending (run (ReadDone None :: [Reply (Normal "late"%string) 20; Typed "again";
                                    Send 30; Voice (Toggle None)])
                 (run [Typed "look"; Attach (Some picture); Send 10]
                      (mount (Some "key"%string)))) = true /\
  requests (run (ReadDone None :: [Reply (Normal "late"%string) 20; Typed "again";
                                   Send 30; Voice (Toggle None)])
                (run [Typed "look"; Attach (Some picture); Send 10]
                     (mount (Some "key"%string)))) = [].
Proof.
  assert (Hq : sending (run [Typed "look"; Attach (Some picture); Send 10]
                            (mount (Some "key"%string)))
               = [Reading [TextPart "look"] picture]) by reflexivity.
  split; [exact Hq|].
  pose proof (failed_read_blocks (Some "key"%string)
                [Typed "look"; Attach (Some picture); Send 10]
                [Reply (Normal "late"%string) 20; Typed "again"; Send 30;
                 Voice (Toggle None)]
                [TextPart "look"] picture Hq) as H.
  cbv zeta in H. destruct H as (H1 & H2 & _).
  split; [exact H1 | exact H2].
Defined.

End TutorChatFacts.
